(** * DynamoDB course exercises: batch executors, inventory update, product creation

    A shallow embedding of the exercise solutions
    - [src/section3/02-solution.ts]  ([chunkArray], [batchAddContent]),
    - [src/section3/01-solution.ts]  ([getUserAnalytics]),
    - [src/section-2/03-solution.ts] ([updateInventory]),
    - [src/section-2/04-solution.ts] ([putProduct]),
    - the solution of the DeleteItem exercise ([deleteProduct]),
    together with the properties the specification states about them, and
    further properties of the same functions.

    Conventions.  The DynamoDB client is the only effectful collaborator.
    [client.send] is modelled by explicit state passing: a function from a
    store state and a command to a new store state and either an output or a
    thrown exception.  Every call of [client.send] and every [setTimeout]
    sleep is appended to an event log, so that statements about what was
    submitted, how often, and how long the code slept are statements about
    that log.  [marshall] of [@aws-sdk/util-dynamodb] throws for a number
    outside the safe range; the text of its message is a parameter. *)

From stdpp Require Import gmap strings list pretty.
From Equations Require Import Equations.
From Stdlib Require Import ZArith QArith Ascii.

Local Open Scope nat_scope.

(** A value together with the equation that it is the value of the
    expression inspected; it keeps a loop's test and body results in
    reach of the proof that the loop terminates. *)
Definition inspect {A : Type} (a : A) : {b : A | a = b} := exist _ a eq_refl.

(** ** Chunker: [chunkArray] of [src/section3/02-solution.ts] *)

Module Chunker.

(** [array.slice(start, end)] for non-negative integer bounds: the elements
    at the indices [start <= i < min end (length array)]. *)
Definition slice {T : Type} (start end_ : nat) (array : list T) : list T :=
  drop start (take end_ array).

(** [Math.ceil(len / size)] on non-negative integers, for [size >= 1]. *)
Definition ceil_div (len size : nat) : nat :=
  if len mod size =? 0 then len / size else S (len / size).

(** [Array.from({ length: Math.ceil(array.length / size) },
                (_, i) => array.slice(i * size, (i + 1) * size))].
    The source calls it with an integer [size >= 1] only (25). *)
Definition chunkArray {T : Type} (array : list T) (size : nat) : list (list T) :=
  map (fun i => slice (i * size) ((i + 1) * size) array)
      (seq 0 (ceil_div (length array) size)).

Example chunkArray_5_2 :
  chunkArray [1; 2; 3; 4; 5] 2 = [[1; 2]; [3; 4]; [5]].
Proof. reflexivity. Qed.

Example chunkArray_empty : chunkArray (@nil nat) 25 = [].
Proof. reflexivity. Qed.

Lemma ceil_div_covers (len size : nat) :
  1 <= size -> len <= ceil_div len size * size.
Proof.
  intros Hsize. unfold ceil_div.
  pose proof (Nat.div_mod_eq len size) as Hdm.
  pose proof (Nat.mod_upper_bound len size ltac:(lia)) as Hlt.
  destruct (Nat.eqb_spec (len mod size) 0) as [Hz | Hnz]; nia.
Qed.

Lemma ceil_div_tight (len size : nat) :
  1 <= size -> forall i, i < len -> i / size < ceil_div len size.
Proof.
  intros Hsize i Hi.
  apply Nat.Div0.div_lt_upper_bound.
  pose proof (ceil_div_covers len size Hsize). lia.
Qed.

Lemma ceil_div_minimal (len size : nat) :
  1 <= size -> forall j, j < ceil_div len size -> j * size < len.
Proof.
  intros Hsize j. unfold ceil_div.
  pose proof (Nat.div_mod_eq len size) as Hdm.
  pose proof (Nat.mod_upper_bound len size ltac:(lia)) as Hlt.
  destruct (Nat.eqb_spec (len mod size) 0) as [Hz | Hnz]; nia.
Qed.

(** The first [k] slices of width [size], concatenated, are the prefix of
    length [k * size]. *)
Lemma concat_slices {T : Type} (array : list T) (size k : nat) :
  concat (map (fun i => slice (i * size) ((i + 1) * size) array) (seq 0 k))
  = take (k * size) array.
Proof.
  induction k as [| k IH].
  - reflexivity.
  - rewrite seq_S, map_app, concat_app, IH. simpl.
    rewrite app_nil_r. unfold slice.
    replace (take (k * size) array)
      with (take (k * size) (take ((k + 1) * size) array))
      by (rewrite take_take; f_equal; lia).
    rewrite take_drop. f_equal. lia.
Qed.

Lemma chunkArray_concat {T : Type} (array : list T) (size : nat) :
  1 <= size -> concat (chunkArray array size) = array.
Proof.
  intros Hsize. unfold chunkArray. rewrite concat_slices.
  apply take_ge, ceil_div_covers, Hsize.
Qed.

Lemma slice_length {T : Type} (array : list T) (size i : nat) :
  length (slice (i * size) ((i + 1) * size) array) <= size.
Proof. unfold slice. rewrite length_drop, length_take. lia. Qed.

Lemma chunkArray_lookup {T : Type} (array : list T) (size j : nat) :
  j < ceil_div (length array) size ->
  chunkArray array size !! j = Some (slice (j * size) ((j + 1) * size) array).
Proof.
  intros Hj. unfold chunkArray.
  change (map ?f ?l) with (f <$> l).
  rewrite list_lookup_fmap, lookup_seq_lt by exact Hj. reflexivity.
Qed.

(** C4. For every [size >= 1] the chunks, read in order, are the input
    (so every request sits in exactly one chunk and first-seen order is
    kept): the request at input index [i] is found in chunk [i / size] at
    offset [i mod size]; no chunk is empty or longer than [size]; the chunk
    lengths add up to the input length. *)
Theorem chunkArray_partitions {T : Type} (array : list T) (size : nat) :
  1 <= size ->
  concat (chunkArray array size) = array
  /\ (forall i, array !! i
                = chunkArray array size !! (i / size) ≫= (.!! (i mod size)))
  /\ Forall (fun chunk => 1 <= length chunk <= size) (chunkArray array size)
  /\ list_sum (map length (chunkArray array size)) = length array.
Proof.
  intros Hsize.
  assert (Hcat : concat (chunkArray array size) = array).
  { unfold chunkArray. rewrite concat_slices.
    apply take_ge, ceil_div_covers, Hsize. }
  split; [exact Hcat |]. split; [| split].
  - intros i.
    pose proof (Nat.div_mod_eq i size) as Hdm.
    pose proof (Nat.mod_upper_bound i size ltac:(lia)) as Hlt.
    destruct (decide (i / size < ceil_div (length array) size)) as [Hj | Hj].
    + rewrite chunkArray_lookup by exact Hj. simpl. unfold slice.
      rewrite lookup_drop, lookup_take_lt by lia. f_equal. lia.
    + assert (Hout : length array <= i).
      { destruct (decide (i < length array)) as [Hi |]; [| lia].
        exfalso. apply Hj. apply ceil_div_tight; assumption. }
      rewrite (lookup_ge_None_2 array i Hout).
      unfold chunkArray. change (map ?f ?l) with (f <$> l).
      rewrite list_lookup_fmap, lookup_seq_ge by lia. reflexivity.
  - unfold chunkArray. apply Forall_forall. intros chunk Hin.
    change (map ?f ?l) with (f <$> l) in Hin.
    apply list_elem_of_fmap in Hin as (j & -> & Hj).
    apply elem_of_seq in Hj. split; [| apply slice_length].
    pose proof (ceil_div_minimal (length array) size Hsize j ltac:(lia)).
    unfold slice. rewrite length_drop, length_take. lia.
  - rewrite <- length_concat, Hcat. reflexivity.
Qed.

Lemma chunkArray_partitions_witness :
  1 <= 2
  /\ concat (chunkArray [10; 20; 30; 40; 50] 2) = [10; 20; 30; 40; 50]
  /\ list_sum (map length (chunkArray [10; 20; 30; 40; 50] 2)) = 5.
Proof.
  pose proof (chunkArray_partitions [10; 20; 30; 40; 50] 2 ltac:(lia))
    as (Hcat & _ & _ & Hsum).
  split; [lia | split; [exact Hcat | exact Hsum]].
Defined.

(** No chunk is empty, and none is longer than [size]. *)
Lemma chunkArray_chunk_lengths {T : Type} (array : list T) (size : nat) :
  1 <= size ->
  Forall (fun chunk => 1 <= length chunk <= size) (chunkArray array size).
Proof.
  intros Hsize. apply Forall_lookup. intros j chunk Hj.
  assert (Hlt : j < ceil_div (length array) size).
  { apply lookup_lt_Some in Hj. unfold chunkArray in Hj.
    by rewrite length_map, length_seq in Hj. }
  rewrite chunkArray_lookup in Hj by exact Hlt. injection Hj as <-.
  pose proof (ceil_div_minimal (length array) size Hsize j Hlt).
  unfold slice. rewrite length_drop, length_take. lia.
Qed.

End Chunker.

(** ** The effects of the exercises: the DynamoDB client and the timer *)

Module Effects.

(** What [client.send] may throw.  [ErrorObject name message] is an instance
    of [Error] (the SDK's exceptions carry their class name in [name], so
    [error instanceof ConditionalCheckFailedException] is the test
    [name = "ConditionalCheckFailedException"]); [NotAnError] is any other
    thrown value. *)
Inductive Thrown : Type :=
| ErrorObject (name message : string)
| NotAnError.

(** The outcome of [await client.send(command)]. *)
Inductive Sent (O : Type) : Type :=
| Returned (output : O)
| Threw (e : Thrown).
Arguments Returned {O} output.
Arguments Threw {O} e.

(** One observable step: a command sent to the store, with what came back,
    or a [setTimeout] sleep of [ms] milliseconds. *)
Inductive Event (I O : Type) : Type :=
| Submitted (input : I) (outcome : Sent O)
| Slept (ms : Z).
Arguments Submitted {I O} input outcome.
Arguments Slept {I O} ms.

(** The world a function runs in: the store behind the client, and the log
    of what the function did so far, oldest event first. *)
Record World (St I O : Type) : Type := mkWorld {
  store : St;
  log : list (Event I O)
}.
Arguments mkWorld {St I O} store log.
Arguments store {St I O} w.
Arguments log {St I O} w.

Section Client.
Context {St I O : Type}.
Variable send : St -> I -> St * Sent O.

(** [await client.send(new Command(input))]. *)
Definition submit (w : World St I O) (input : I) : World St I O * Sent O :=
  let '(st, outcome) := send (store w) input in
  (mkWorld st (log w ++ [Submitted input outcome]), outcome).

(** [await new Promise((resolve) => setTimeout(resolve, ms))]. *)
Definition sleep (ms : Z) (w : World St I O) : World St I O :=
  mkWorld (store w) (log w ++ [Slept ms]).

End Client.

(** Views of a log. *)
Definition submissions {I O : Type} (evs : list (Event I O)) : list (I * Sent O) :=
  omap (fun e => match e with
                 | Submitted input outcome => Some (input, outcome)
                 | Slept _ => None
                 end) evs.

Definition delays {I O : Type} (evs : list (Event I O)) : list Z :=
  omap (fun e => match e with
                 | Submitted _ _ => None
                 | Slept ms => Some ms
                 end) evs.

Lemma submissions_retry {I O : Type} (input : I) (outcome : Sent O) (ms : Z)
    (evs : list (Event I O)) :
  submissions (Submitted input outcome :: Slept ms :: evs)
  = (input, outcome) :: submissions evs.
Proof. reflexivity. Qed.

Lemma delays_retry {I O : Type} (input : I) (outcome : Sent O) (ms : Z)
    (evs : list (Event I O)) :
  delays (Submitted input outcome :: Slept ms :: evs) = ms :: delays evs.
Proof. reflexivity. Qed.

(** [error instanceof Error ? error.message : "Unknown error occurred"]. *)
Definition messageOrUnknown (e : Thrown) : string :=
  match e with
  | ErrorObject _ message => message
  | NotAnError => "Unknown error occurred"
  end.

(** A store that replays a script of outcomes, one per call, and returns
    [idle] once the script is used up.  It is the store of the worked
    examples: any sequence of responses is such a script. *)
Definition scripted {I O : Type} (idle : Sent O)
    (script : list (Sent O)) (_ : I) : list (Sent O) * Sent O :=
  match script with
  | [] => ([], idle)
  | outcome :: rest => (rest, outcome)
  end.

End Effects.

(** ** The retry policy, in the words of the specification *)

Module Policy.

(** The delay before the retry that follows attempt [attempt], in the
    words of the specification: [baseDelay * 2^attempt], capped at
    [maxDelay], attempts counted from 0. *)
Definition claimedDelay (baseDelay maxDelay : Z) (attempt : nat) : Z :=
  Z.min (baseDelay * 2 ^ Z.of_nat attempt) maxDelay.

(** The policy of the two executors.  The code has no policy object: it
    has the literal 3 in the loop tests and sleeps
    [Math.pow(2, retryCount) * 100] milliseconds after [retryCount++], which
    is 200 ms after the first attempt of a chunk and 800 ms, the longest
    sleep, after the third. *)
Definition maxAttempts : nat := 3.
Definition baseDelay : Z := 200.
Definition maxDelay : Z := 800.

(** The delay after attempt [attempt] under this policy. *)
Definition delayAfter (attempt : nat) : Z := claimedDelay baseDelay maxDelay attempt.

(** The delays of one loop follow the policy: the [i]-th of them is the
    delay after attempt [i], there are no more of them than attempts, they
    never decrease, and none exceeds [maxDelay]. *)
Definition scheduled (ds : list Z) : Prop :=
  ds = map (claimedDelay baseDelay maxDelay) (seq 0 (length ds))
  /\ length ds <= maxAttempts
  /\ (forall i j d d',
         i <= j -> ds !! i = Some d -> ds !! j = Some d' -> (d <= d')%Z)
  /\ Forall (fun d => (d <= maxDelay)%Z) ds.

Lemma delayAfter_values :
  delayAfter 0 = 200%Z /\ delayAfter 1 = 400%Z /\ delayAfter 2 = 800%Z.
Proof. repeat split. Qed.

Lemma delayAfter_mono (a b : nat) : a <= b -> (delayAfter a <= delayAfter b)%Z.
Proof.
  intros Hab. unfold delayAfter, claimedDelay, baseDelay, maxDelay.
  apply Z.min_le_compat_r. apply Z.mul_le_mono_nonneg_l; [lia |].
  apply Z.pow_le_mono_r; lia.
Qed.

Lemma delayAfter_capped (a : nat) : (delayAfter a <= maxDelay)%Z.
Proof. unfold delayAfter, claimedDelay. apply Z.le_min_r. Qed.

Lemma delays_scheduled (ds : list Z) :
  ds = map delayAfter (seq 0 (length ds)) ->
  length ds <= maxAttempts ->
  scheduled ds.
Proof.
  intros Hds Hlen. split; [exact Hds |]. split; [exact Hlen |]. split.
  - intros i j d d' Hij Hi Hj. rewrite Hds in Hi, Hj.
    apply list_lookup_fmap_Some in Hi as (a & -> & Hi).
    apply list_lookup_fmap_Some in Hj as (b & -> & Hj).
    apply lookup_seq in Hi as [-> _]. apply lookup_seq in Hj as [-> _].
    by apply delayAfter_mono.
  - rewrite Hds. apply Forall_forall. intros d Hd.
    apply list_elem_of_fmap in Hd as (a & -> & _).
    apply delayAfter_capped.
Qed.

End Policy.

(** ** Batch write: [src/section3/02-solution.ts] *)

Module BatchWrite.
Import Effects Chunker.

(** *** Types and interfaces *)

Inductive ContentType : Type := MOVIE | SERIES.

Definition ContentType_name (t : ContentType) : string :=
  match t with MOVIE => "MOVIE" | SERIES => "SERIES" end.

Record Languages : Type := {
  audio : list string;
  subtitles : list string
}.

(** JavaScript numbers are modelled by integers: the fields below hold
    years, seconds, counters and season or episode numbers.  An integer
    beyond [Number.MAX_SAFE_INTEGER] is a number [marshall] refuses, see
    [thrownNumber]. *)
Record ContentMetadata : Type := {
  id : string;
  title : string;
  type : ContentType;
  genre : list string;
  releaseYear : Z;
  rating : string;
  languages : Languages;
  duration : Z;
  director : option string;
  creator : option string;
  cast : list string
}.

Record SeriesEpisode : Type := {
  seriesId : string;
  seasonNumber : Z;
  episodeNumber : Z;
  episodeTitle : string;
  episodeDuration : Z;
  synopsis : string
}.

Record ContentStats : Type := {
  contentId : string;
  initialTrending : Z;
  releasePopularity : Z;
  targetDemographic : list string;
  languageAvailability : Z
}.

(** The per-category tally [processedItems]. *)
Record Counts : Type := {
  metadata : nat;
  episodes : nat;
  stats : nat
}.

Inductive ItemType : Type := metadata_item | episode_item | stats_item.

Record UnprocessedItem : Type := {
  itemId : string;
  itemType : ItemType;
  reason : string
}.

Record BatchWriteContentResponse : Type := {
  success : bool;
  message : option string;
  processedItems : Counts;
  unprocessedItems : option (list UnprocessedItem);
  error : option string
}.

(** The attribute values [marshall] produces for the items of this file. *)
#[local] Unset Elimination Schemes.
Inductive AttributeValue : Type :=
| AttrS (s : string)
| AttrN (n : Z)
| AttrL (l : list AttributeValue)
| AttrM (m : list (string * AttributeValue)).
#[local] Set Elimination Schemes.

(** A write request [{ PutRequest: { Item: { PK: {S}, SK: {S}, ... } } }]:
    the shape of every request this file builds, and so of every request a
    store hands back as unprocessed.  [attributes] are the other attributes
    of the item, in the order the source lists them. *)
Record WriteRequest : Type := {
  PK : string;
  SK : string;
  attributes : list (string * AttributeValue)
}.

(** [RequestItems], and [UnprocessedItems] of the output: tables by name. *)
Record BatchWriteItemCommandOutput : Type := {
  UnprocessedItems : option (gmap string (list WriteRequest))
}.

(** *** Helper functions *)

Definition nonEmpty (s : string) : bool := negb (String.eqb s "").

(** The [for (const item of content)] loop of [validateInputs]; the type
    of [item.type] has no falsy value, so [!item.type] never holds. *)
Fixpoint validateItems (content : list ContentMetadata)
    (episodes : list SeriesEpisode) (stats : list ContentStats) : option string :=
  match content with
  | [] => None
  | item :: rest =>
      if negb (nonEmpty (id item)) || negb (nonEmpty (title item)) then
        Some ("Invalid content item: Missing required fields for "
              +:+ (if nonEmpty (id item) then id item else "unknown"))
      else if match type item with
              | SERIES =>
                  length (filter (fun ep => seriesId ep = id item) episodes) =? 0
              | MOVIE => false
              end then
        Some ("No episodes provided for series " +:+ id item)
      else if negb (existsb (fun stat => String.eqb (contentId stat) (id item)) stats) then
        Some ("Missing stats for content " +:+ id item)
      else validateItems rest episodes stats
  end.

Definition validateInputs (content : list ContentMetadata)
    (episodes : list SeriesEpisode) (stats : list ContentStats) : option string :=
  if length content =? 0 then Some "No content items provided"
  else if 25 <? length content then
    Some "Batch size exceeds maximum limit of 25 items"
  else validateItems content episodes stats.

Definition strings (l : list string) : AttributeValue := AttrL (map AttrS l).

Fixpoint zeros (n : nat) : string :=
  match n with 0 => "" | S k => "0" +:+ zeros k end.

(** [s.padStart(width, "0")]. *)
Definition padStart (width : nat) (s : string) : string :=
  zeros (width - String.length s) +:+ s.

(** [`EPISODE#S${season.toString().padStart(2, "0")}E${episode...}`]. *)
Definition episodeSK (episode : SeriesEpisode) : string :=
  "EPISODE#S" +:+ padStart 2 (pretty (seasonNumber episode))
  +:+ "E" +:+ padStart 2 (pretty (episodeNumber episode)).

(** [...(value && { key: value })]: the attribute is present when the
    optional string is set and not empty. *)
Definition optionalAttr (key : string) (value : option string)
  : list (string * AttributeValue) :=
  match value with
  | Some v => if nonEmpty v then [(key, AttrS v)] else []
  | None => []
  end.

Definition metadataRequest (item : ContentMetadata) : WriteRequest :=
  {| PK := id item;
     SK := "METADATA";
     attributes :=
       [("entity_type", AttrS (ContentType_name (type item)));
        ("title", AttrS (title item));
        ("genre", strings (genre item));
        ("release_year", AttrN (releaseYear item));
        ("rating", AttrS (rating item));
        ("languages", AttrM [("audio", strings (audio (languages item)));
                             ("subtitles", strings (subtitles (languages item)))]);
        ("duration", AttrN (duration item))]
       ++ optionalAttr "director" (director item)
       ++ optionalAttr "creator" (creator item)
       ++ [("cast", strings (cast item))] |}.

Definition statsRequest (item : ContentMetadata) (itemStats : ContentStats)
  : WriteRequest :=
  {| PK := id item;
     SK := "STATS";
     attributes :=
       [("entity_type", AttrS (ContentType_name (type item) +:+ "_STATS"));
        ("initial_trending", AttrN (initialTrending itemStats));
        ("release_popularity", AttrN (releasePopularity itemStats));
        ("target_demographic", strings (targetDemographic itemStats));
        ("language_availability", AttrN (languageAvailability itemStats));
        ("total_views", AttrN 0);
        ("average_rating", AttrN 0);
        ("completion_rate", AttrN 0)] |}.

Definition episodeRequest (item : ContentMetadata) (episode : SeriesEpisode)
  : WriteRequest :=
  {| PK := id item;
     SK := episodeSK episode;
     attributes :=
       [("entity_type", AttrS "EPISODE");
        ("title", AttrS (episodeTitle episode));
        ("duration", AttrN (episodeDuration episode));
        ("synopsis", AttrS (synopsis episode));
        ("season_number", AttrN (seasonNumber episode));
        ("episode_number", AttrN (episodeNumber episode))] |}.

(** [formatBatchWriteItems]: per content item its metadata, then its stats
    when found, then (for a series) its episodes.  This is the list it
    returns when no [marshall] throws; [thrownNumber] below tells when one
    does. *)
Definition formatBatchWriteItems (content : list ContentMetadata)
    (episodes : list SeriesEpisode) (stats : list ContentStats)
  : list WriteRequest :=
  flat_map (fun item =>
    [metadataRequest item]
    ++ match find (fun stat => String.eqb (contentId stat) (id item)) stats with
       | Some itemStats => [statsRequest item itemStats]
       | None => []
       end
    ++ match type item with
       | SERIES =>
           map (episodeRequest item)
               (filter (fun ep => seriesId ep = id item) episodes)
       | MOVIE => []
       end) content.

(** [marshall] refuses a number outside the safe range
    ([convertToNumberAttr] of [@aws-sdk/util-dynamodb] throws an [Error]
    for a number above [Number.MAX_SAFE_INTEGER] or below
    [Number.MIN_SAFE_INTEGER]), and it visits the attributes of an item in
    the order they are listed, lists and maps included. *)
Definition MAX_SAFE_INTEGER : Z := 2 ^ 53 - 1.

Definition unsafe (n : Z) : bool :=
  (MAX_SAFE_INTEGER <? n)%Z || (n <? - MAX_SAFE_INTEGER)%Z.

Fixpoint numbers (v : AttributeValue) : list Z :=
  match v with
  | AttrS _ => []
  | AttrN n => [n]
  | AttrL l => flat_map numbers l
  | AttrM m => flat_map (fun '(_, v') => numbers v') m
  end.

Definition numbersOf (request : WriteRequest) : list Z :=
  flat_map (fun '(_, v) => numbers v) (attributes request).

(** The number at which [formatBatchWriteItems] throws, if it does: the
    first number out of range among the items in the order it builds
    them.  When there is none, [formatBatchWriteItems] returns the list
    above. *)
Definition thrownNumber (requests : list WriteRequest) : option Z :=
  find unsafe (flat_map numbersOf requests).

(** The body of [unprocessedChunk.forEach((item) => { ... })]. *)
Definition countItem (processedCount : Counts) (item : WriteRequest) : Counts :=
  let sk := SK item in
  if String.eqb sk "METADATA" then
    {| metadata := S (metadata processedCount);
       episodes := episodes processedCount;
       stats := stats processedCount |}
  else if String.prefix "EPISODE#" sk then
    {| metadata := metadata processedCount;
       episodes := S (episodes processedCount);
       stats := stats processedCount |}
  else if String.eqb sk "STATS" then
    {| metadata := metadata processedCount;
       episodes := episodes processedCount;
       stats := S (stats processedCount) |}
  else processedCount.

(** The entry of the response's [unprocessedItems] for a left-over request. *)
Definition report (item : WriteRequest) : UnprocessedItem :=
  {| itemId := PK item;
     itemType := if String.eqb (SK item) "METADATA" then metadata_item
                 else if String.eqb (SK item) "STATS" then stats_item
                 else episode_item;
     reason := "Failed after maximum retries" |}.

(** *** The executor *)

(** The variables of one chunk's retry loop.  [unprocessedItems] is the
    accumulator of the enclosing function: the [catch] block inside the
    loop appends to it. *)
Record LoopState : Type := mkLoop {
  retryCount : nat;
  unprocessedChunk : list WriteRequest;
  processedCount : Counts;
  leftOver : list WriteRequest
}.

Inductive Flow : Type := Continue | Break.

Definition maxRetries : nat := 3.

(** [unprocessedChunk.length > 0 && retryCount < 3]. *)
Definition loopCond (s : LoopState) : bool :=
  (0 <? length (unprocessedChunk s)) && (retryCount s <? maxRetries).

(** [Math.pow(2, retryCount) * 100]. *)
Definition backoff (retryCount : nat) : Z := (2 ^ Z.of_nat retryCount * 100)%Z.

(** What bounds the loop: nothing is left to run once the chunk is empty,
    and otherwise the retries not yet used. *)
Definition loopMeasure (s : LoopState) : nat :=
  match unprocessedChunk s with
  | [] => 0
  | _ :: _ => S (maxRetries - retryCount s)
  end.

Section Executor.
Context {St : Type}.
Variable TABLE_NAME : string.
Variable send :
  St -> gmap string (list WriteRequest) -> St * Sent BatchWriteItemCommandOutput.
(** The message of the [Error] that [marshall] throws for a number out of
    range; the text is the library's. *)
Variable marshallError : Z -> string.

Abbreviation World :=
  (Effects.World St (gmap string (list WriteRequest)) BatchWriteItemCommandOutput).

(** One pass through the body of the [while] loop: the [try] block, and
    the [catch] block with its [break]. *)
Definition loopBody (s : LoopState) (w : World) : Flow * LoopState * World :=
  match submit send w {[ TABLE_NAME := unprocessedChunk s ]} with
  | (w1, Returned response) =>
      let unprocessed :=
        default [] (UnprocessedItems response ≫= (.!! TABLE_NAME)) in
      (* computed by the source under the comment "Count processed items",
         and not used afterwards *)
      let processedItems :=
        (Z.of_nat (length (unprocessedChunk s)) - Z.of_nat (length unprocessed))%Z in
      let counted := foldl countItem (processedCount s) unprocessed in
      if 0 <? length unprocessed then
        let retries := S (retryCount s) in
        (Continue,
         mkLoop retries unprocessed counted (leftOver s),
         sleep (backoff retries) w1)
      else
        (Continue, mkLoop (retryCount s) unprocessed counted (leftOver s), w1)
  | (w1, Threw _) =>
      (Break,
       mkLoop (retryCount s) (unprocessedChunk s) (processedCount s)
              (leftOver s ++ unprocessedChunk s),
       w1)
  end.

Lemma loopBody_decreases (s s' : LoopState) (w w' : World) :
  loopCond s = true ->
  loopBody s w = (Continue, s', w') ->
  loopMeasure s' < loopMeasure s.
Proof.
  unfold loopCond, loopBody, loopMeasure. intros Hcond Hbody.
  apply andb_true_iff in Hcond as [Hlen Hretry].
  apply Nat.ltb_lt in Hlen, Hretry.
  destruct (submit send w _) as [w1 [response | e]]; [| discriminate].
  destruct (unprocessedChunk s) as [| item rest]; [simpl in Hlen; lia |].
  destruct (default [] _) as [| item' rest'] eqn:Hunprocessed;
    simpl in Hbody; inversion Hbody; subst; simpl; unfold maxRetries in *; lia.
Qed.

(** [while (unprocessedChunk.length > 0 && retryCount < 3) { ... }]. *)
Equations retryLoop (s : LoopState) (w : World) : LoopState * World
  by wf (loopMeasure s) lt :=
retryLoop s w with inspect (loopCond s) := {
  | exist _ true Hcond with inspect (loopBody s w) := {
      | exist _ (Continue, s', w') Hbody => retryLoop s' w'
      | exist _ (Break, s', w') Hbody => (s', w') }
  | exist _ false Hcond => (s, w) }.
Next Obligation.
  intros. eapply loopBody_decreases; eassumption.
Qed.

(** The body of [for (const chunk of itemChunks)]: the retry loop and the
    statement after it, which appends what is still unprocessed. *)
Definition processChunk (counts : Counts) (unprocessed : list WriteRequest)
    (chunk : list WriteRequest) (w : World) : LoopState * World :=
  let '(s, w1) := retryLoop (mkLoop 0 chunk counts unprocessed) w in
  (mkLoop (retryCount s) (unprocessedChunk s) (processedCount s)
          (if 0 <? length (unprocessedChunk s)
           then leftOver s ++ unprocessedChunk s
           else leftOver s),
   w1).

(** [for (const chunk of itemChunks) { ... }], started with the tallies
    [counts] and [unprocessed]. *)
Fixpoint processChunks (itemChunks : list (list WriteRequest))
    (counts : Counts) (unprocessed : list WriteRequest) (w : World)
  : Counts * list WriteRequest * World :=
  match itemChunks with
  | [] => (counts, unprocessed, w)
  | chunk :: rest =>
      let '(s, w1) := processChunk counts unprocessed chunk w in
      processChunks rest (processedCount s) (leftOver s) w1
  end.

Definition noCounts : Counts := {| metadata := 0; episodes := 0; stats := 0 |}.

(** The response of the two early exits: a validation error, and the
    outer [catch]. *)
Definition refusal (reason : string) : BatchWriteContentResponse :=
  {| success := false;
     message := None;
     processedItems := noCounts;
     unprocessedItems := None;
     error := Some reason |}.

(** [batchAddContent].  Outside the inner [try] only
    [formatBatchWriteItems] can throw, when [marshall] refuses a number;
    what it throws is an [Error], so the outer [catch] answers with its
    message, before any call of the store. *)
Definition batchAddContent (content : list ContentMetadata)
    (episodes : list SeriesEpisode) (stats : list ContentStats) (w : World)
  : BatchWriteContentResponse * World :=
  match validateInputs content episodes stats with
  | Some validationError => (refusal validationError, w)
  | None =>
      let batchItems := formatBatchWriteItems content episodes stats in
      match thrownNumber batchItems with
      | Some n => (refusal (marshallError n), w)
      | None =>
          let itemChunks := chunkArray batchItems 25 in
          let '(counts, unprocessed, w1) :=
            processChunks itemChunks noCounts [] w in
          ({| success := length unprocessed =? 0;
              message := Some (if length unprocessed =? 0
                               then "All items processed successfully"
                               else "Some items were not processed");
              processedItems := counts;
              unprocessedItems := Some (map report unprocessed);
              error := None |}, w1)
      end
  end.

End Executor.

(** *** The test data of the source, and stores for worked examples *)

Definition newContent : list ContentMetadata :=
  [ {| id := "MOVIE#106"; title := "Digital Frontier"; type := MOVIE;
       genre := ["Sci-Fi"; "Adventure"]; releaseYear := 2024; rating := "PG-13";
       languages := {| audio := ["English"; "Spanish"];
                       subtitles := ["English"; "Spanish"; "French"] |};
       duration := 7200; director := Some "Director6"; creator := None;
       cast := ["Actor10"; "Actor11"] |};
    {| id := "SERIES#204"; title := "Code Masters"; type := SERIES;
       genre := ["Drama"; "Technology"]; releaseYear := 2024; rating := "TV-14";
       languages := {| audio := ["English"];
                       subtitles := ["English"; "Spanish"; "French"] |};
       duration := 3600; director := None; creator := Some "Creator4";
       cast := ["Actor12"; "Actor13"] |} ].

Definition seriesEpisodes : list SeriesEpisode :=
  [ {| seriesId := "SERIES#204"; seasonNumber := 1; episodeNumber := 1;
       episodeTitle := "The First Commit"; episodeDuration := 3600;
       synopsis := "A team of developers face their first challenge" |};
    {| seriesId := "SERIES#204"; seasonNumber := 1; episodeNumber := 2;
       episodeTitle := "Debug Mode"; episodeDuration := 3600;
       synopsis := "The team discovers a critical bug" |} ].

Definition contentStats : list ContentStats :=
  [ {| contentId := "MOVIE#106"; initialTrending := 85; releasePopularity := 90;
       targetDemographic := ["18-34"; "Tech-Savvy"]; languageAvailability := 3 |};
    {| contentId := "SERIES#204"; initialTrending := 75; releasePopularity := 80;
       targetDemographic := ["25-45"; "Professionals"]; languageAvailability := 3 |} ].

Definition table : string := "StreamingPlatform".

(** A rendering of the library's message, for the worked examples. *)
Definition useBigInt (n : Z) : string :=
  "Number " +:+ pretty n +:+ " is outside the safe range. Use BigInt.".

(** The store accepted every item of the call. *)
Definition accepted : Sent BatchWriteItemCommandOutput :=
  Returned {| UnprocessedItems := None |}.

(** The store handed [items] back as unprocessed. *)
Definition handedBack (items : list WriteRequest) : Sent BatchWriteItemCommandOutput :=
  Returned {| UnprocessedItems := Some {[ table := items ]} |}.

(** The call failed with a capacity exception. *)
Definition throttled : Sent BatchWriteItemCommandOutput :=
  Threw (ErrorObject "ProvisionedThroughputExceededException" "Throughput exceeded").

(** A world whose store replays [script] and then accepts everything. *)
Definition replaying (script : list (Sent BatchWriteItemCommandOutput))
  : World (list (Sent BatchWriteItemCommandOutput))
          (gmap string (list WriteRequest)) BatchWriteItemCommandOutput :=
  mkWorld script [].

Definition item (pk sk : string) : WriteRequest :=
  {| PK := pk; SK := sk; attributes := [] |}.

(** *** Properties of the retry loop *)

(** What a submit call handed back for table [TABLE_NAME]:
    [response.UnprocessedItems?.[TABLE_NAME] || []]. *)
Definition handedBackFor (TABLE_NAME : string)
    (outcome : Sent BatchWriteItemCommandOutput) : list WriteRequest :=
  match outcome with
  | Returned response => default [] (UnprocessedItems response ≫= (.!! TABLE_NAME))
  | Threw _ => []
  end.

(** The submit calls of one chunk are chained: the first one carries
    [pending], and each later one carries exactly what the call before it
    handed back; nothing follows a call that threw. *)
Fixpoint chained (TABLE_NAME : string) (pending : list WriteRequest)
    (calls : list (gmap string (list WriteRequest) * Sent BatchWriteItemCommandOutput))
  : Prop :=
  match calls with
  | [] => True
  | (input, outcome) :: rest =>
      input = {[ TABLE_NAME := pending ]}
      /\ match outcome with
         | Returned _ => chained TABLE_NAME (handedBackFor TABLE_NAME outcome) rest
         | Threw _ => rest = []
         end
  end.

Section ExecutorFacts.
Context {St : Type}.
Variable TABLE_NAME : string.
Variable send :
  St -> gmap string (list WriteRequest) -> St * Sent BatchWriteItemCommandOutput.

Abbreviation World' :=
  (Effects.World St (gmap string (list WriteRequest)) BatchWriteItemCommandOutput).
Abbreviation body := (loopBody TABLE_NAME send).
Abbreviation loop := (retryLoop TABLE_NAME send).

Lemma retryLoop_eq (s : LoopState) (w : World') :
  loop s w =
  if loopCond s then
    match body s w with
    | (Continue, s', w') => loop s' w'
    | (Break, s', w') => (s', w')
    end
  else (s, w).
Proof.
  funelim (retryLoop TABLE_NAME send s w).
  - rewrite Hcond. reflexivity.
  - rewrite Hcond, Hbody. reflexivity.
  - rewrite Hcond, Hbody. reflexivity.
Qed.

(** Induction over the iterations of the loop. *)
Lemma retryLoop_run (P : LoopState -> World' -> LoopState -> World' -> Prop) :
  (forall s w, loopCond s = false -> P s w s w) ->
  (forall s w s' w',
      loopCond s = true -> body s w = (Break, s', w') -> P s w s' w') ->
  (forall s w s1 w1 s' w',
      loopCond s = true -> body s w = (Continue, s1, w1) ->
      loop s1 w1 = (s', w') -> P s1 w1 s' w' -> P s w s' w') ->
  forall s w, P s w (loop s w).1 (loop s w).2.
Proof.
  intros Hexit Hbreak Hnext s.
  remember (loopMeasure s) as n eqn:Hn. revert s Hn.
  induction n as [n IHn] using lt_wf_ind. intros s Hn w.
  rewrite retryLoop_eq.
  destruct (loopCond s) eqn:Hcond; [| apply Hexit; exact Hcond].
  destruct (body s w) as [[[] s1] w1] eqn:Hbody.
  - eapply Hnext; [exact Hcond | exact Hbody | apply surjective_pairing |].
    eapply IHn; [| reflexivity].
    subst n. eapply loopBody_decreases; eassumption.
  - apply Hbreak; assumption.
Qed.

(** The runs of the loop, as a relation between the state it starts in,
    the events it logs and the state it ends in: one rule per way through
    the loop test and the body. *)
Inductive attempts : LoopState -> list (Event (gmap string (list WriteRequest))
                                          BatchWriteItemCommandOutput)
                     -> LoopState -> Prop :=
| attempts_exit s :
    loopCond s = false ->
    attempts s [] s
| attempts_threw s e :
    loopCond s = true ->
    attempts s
      [Submitted {[ TABLE_NAME := unprocessedChunk s ]} (Threw e)]
      (mkLoop (retryCount s) (unprocessedChunk s) (processedCount s)
              (leftOver s ++ unprocessedChunk s))
| attempts_retry s response evs s' :
    loopCond s = true ->
    handedBackFor TABLE_NAME (Returned response) <> [] ->
    attempts (mkLoop (S (retryCount s))
                     (handedBackFor TABLE_NAME (Returned response))
                     (foldl countItem (processedCount s)
                            (handedBackFor TABLE_NAME (Returned response)))
                     (leftOver s)) evs s' ->
    attempts s
      (Submitted {[ TABLE_NAME := unprocessedChunk s ]} (Returned response)
       :: Slept (backoff (S (retryCount s))) :: evs) s'
| attempts_accepted s response evs s' :
    loopCond s = true ->
    handedBackFor TABLE_NAME (Returned response) = [] ->
    attempts (mkLoop (retryCount s) [] (processedCount s) (leftOver s)) evs s' ->
    attempts s
      (Submitted {[ TABLE_NAME := unprocessedChunk s ]} (Returned response) :: evs)
      s'.

Lemma retryLoop_attempts (s : LoopState) (w : World') :
  exists evs, log (loop s w).2 = log w ++ evs /\ attempts s evs (loop s w).1.
Proof.
  apply (retryLoop_run
           (fun s w s' w' => exists evs, log w' = log w ++ evs /\ attempts s evs s')).
  - intros s0 w0 Hcond. exists []. split; [by rewrite app_nil_r |].
    by apply attempts_exit.
  - intros s0 w0 s' w' Hcond Hbody. unfold loopBody, submit in Hbody.
    destruct (send (store w0) _) as [st [response | e]] eqn:Hsend.
    + destruct (0 <? length _); discriminate.
    + inversion Hbody; subst; simpl. eexists. split; [reflexivity |].
      by apply attempts_threw.
  - intros s0 w0 s1 w1 s' w' Hcond Hbody _ (evs & Hlog & Hrun).
    unfold loopBody, submit in Hbody.
    destruct (send (store w0) _) as [st [response | e]] eqn:Hsend;
      [| discriminate].
    destruct (0 <? length _) eqn:Hleft; inversion Hbody; subst; clear Hbody.
    + eexists. split.
      * rewrite Hlog. simpl. rewrite <- !app_assoc. reflexivity.
      * apply attempts_retry; [exact Hcond | | exact Hrun].
        apply Nat.ltb_lt in Hleft. simpl.
        intros Hnil. rewrite Hnil in Hleft. simpl in Hleft. lia.
    + eexists. split.
      * rewrite Hlog. simpl. rewrite <- !app_assoc. reflexivity.
      * apply Nat.ltb_ge in Hleft.
        assert (Hnil : handedBackFor TABLE_NAME (Returned response) = []).
        { simpl. destruct (default [] _); [reflexivity | simpl in Hleft; lia]. }
        apply attempts_accepted; [exact Hcond | exact Hnil |].
        simpl in Hnil, Hrun. rewrite Hnil in Hrun. exact Hrun.
Qed.

(** The submit calls of a chunk are chained from the chunk itself. *)
Lemma attempts_chained s evs s' :
  attempts s evs s' -> chained TABLE_NAME (unprocessedChunk s) (submissions evs).
Proof.
  induction 1 as [s _ | s e _ | s response evs s' _ _ _ IH | s response evs s' _ Hnil _ IH];
    simpl; auto.
  split; [reflexivity |]. simpl in Hnil, IH. rewrite Hnil. exact IH.
Qed.

(** The tally of a chunk grows by the requests the store handed back as
    unprocessed, call after call, and by nothing else. *)
Lemma attempts_tally s evs s' :
  attempts s evs s' ->
  processedCount s'
  = foldl countItem (processedCount s)
          (concat (map (fun call => handedBackFor TABLE_NAME call.2)
                       (submissions evs))).
Proof.
  induction 1 as [s _ | s e _ | s response evs s' _ _ _ IH
                 | s response evs s' _ Hnil _ IH]; simpl in *; auto.
  - by rewrite IH, foldl_app.
  - by rewrite IH, Hnil.
Qed.

End ExecutorFacts.

(** *** Conservation *)

(** A call answered within the store's contract: it returned, and what it
    handed back as unprocessed are requests of that call. *)
Definition honest (TABLE_NAME : string)
    (call : gmap string (list WriteRequest) * Sent BatchWriteItemCommandOutput)
  : Prop :=
  exists response,
    call.2 = Returned response
    /\ handedBackFor TABLE_NAME call.2 ⊆+ default [] (call.1 !! TABLE_NAME).

(** The requests a sequence of calls completed: call by call, the requests
    the call carried other than those it handed back. *)
Inductive completes (TABLE_NAME : string)
  : list (gmap string (list WriteRequest) * Sent BatchWriteItemCommandOutput)
    -> list WriteRequest -> Prop :=
| completes_nil : completes TABLE_NAME [] []
| completes_call input response done rest completed :
    default [] (input !! TABLE_NAME)
    ≡ₚ done ++ handedBackFor TABLE_NAME (Returned response) ->
    completes TABLE_NAME rest completed ->
    completes TABLE_NAME ((input, Returned response) :: rest) (done ++ completed).

Section Conservation.
Context {St : Type}.
Variable TABLE_NAME : string.
Variable send :
  St -> gmap string (list WriteRequest) -> St * Sent BatchWriteItemCommandOutput.

Lemma submissions_app {I O : Type} (evs evs' : list (Event I O)) :
  submissions (evs ++ evs') = submissions evs ++ submissions evs'.
Proof. unfold submissions. apply omap_app. Qed.

Lemma completes_app calls calls' completed completed' :
  completes TABLE_NAME calls completed ->
  completes TABLE_NAME calls' completed' ->
  completes TABLE_NAME (calls ++ calls') (completed ++ completed').
Proof.
  induction 1 as [| input response done rest completed Hdone _ IH]; intros Hrest.
  - exact Hrest.
  - simpl. rewrite <- app_assoc. apply completes_call; auto.
Qed.

(** When every call of a chunk is honest, the chunk splits into what its
    calls completed and what is pending at the end, and the [catch] block
    never ran. *)
Lemma attempts_conserve s evs s' :
  attempts TABLE_NAME s evs s' ->
  Forall (honest TABLE_NAME) (submissions evs) ->
  leftOver s' = leftOver s
  /\ exists completed,
      completes TABLE_NAME (submissions evs) completed
      /\ unprocessedChunk s ≡ₚ completed ++ unprocessedChunk s'.
Proof.
  induction 1 as [s _ | s e _ | s response evs s' _ _ _ IH
                 | s response evs s' _ Hnil _ IH]; simpl; intros Hhonest.
  - split; [reflexivity |]. exists []. split; [constructor | reflexivity].
  - apply Forall_cons in Hhonest as [(response & Habs & _) _]. discriminate.
  - apply Forall_cons in Hhonest as [(response' & _ & Hsub) Hrest].
    simpl in Hsub. rewrite lookup_singleton_eq in Hsub. simpl in Hsub.
    destruct (IH Hrest) as (Hleft & completed & Hcompleted & Hsplit).
    simpl in Hleft, Hsplit. split; [exact Hleft |].
    apply submseteq_Permutation in Hsub as [done Hdone].
    exists (done ++ completed). split.
    + apply completes_call; [| exact Hcompleted].
      rewrite lookup_singleton_eq. simpl. rewrite Hdone. apply Permutation_app_comm.
    + rewrite Hdone, Hsplit.
      rewrite (Permutation_app_comm (completed ++ unprocessedChunk s') done).
      by rewrite app_assoc.
  - apply Forall_cons in Hhonest as [_ Hrest].
    destruct (IH Hrest) as (Hleft & completed & Hcompleted & Hsplit).
    simpl in Hleft, Hsplit, Hnil. split; [exact Hleft |].
    exists (unprocessedChunk s ++ completed). split.
    + apply completes_call; [| exact Hcompleted].
      rewrite lookup_singleton_eq. simpl. by rewrite Hnil, app_nil_r.
    + rewrite <- app_assoc, <- Hsplit. by rewrite app_nil_r.
Qed.

Lemma processChunk_conserve counts unprocessed chunk
    (w : Effects.World St (gmap string (list WriteRequest))
                       BatchWriteItemCommandOutput) :
  exists evs,
    log (processChunk TABLE_NAME send counts unprocessed chunk w).2 = log w ++ evs
    /\ (Forall (honest TABLE_NAME) (submissions evs) ->
        let s := (processChunk TABLE_NAME send counts unprocessed chunk w).1 in
        leftOver s = unprocessed ++ unprocessedChunk s
        /\ exists completed,
            completes TABLE_NAME (submissions evs) completed
            /\ chunk ≡ₚ completed ++ unprocessedChunk s).
Proof.
  unfold processChunk.
  destruct (retryLoop_attempts TABLE_NAME send
              (mkLoop 0 chunk counts unprocessed) w) as (evs & Hlog & Hrun).
  destruct (retryLoop TABLE_NAME send _ w) as [s w1]. simpl in *.
  exists evs. split; [exact Hlog |]. intros Hhonest.
  destruct (attempts_conserve _ _ _ Hrun Hhonest) as [Hleft Hsplit].
  simpl in Hsplit, Hleft. split; [| exact Hsplit]. rewrite Hleft.
  destruct (unprocessedChunk s); simpl; [by rewrite app_nil_r | reflexivity].
Qed.

Lemma processChunks_conserve itemChunks counts unprocessed
    (w : Effects.World St (gmap string (list WriteRequest))
                       BatchWriteItemCommandOutput) :
  exists evs,
    log (processChunks TABLE_NAME send itemChunks counts unprocessed w).2
    = log w ++ evs
    /\ (Forall (honest TABLE_NAME) (submissions evs) ->
        exists completed more,
          completes TABLE_NAME (submissions evs) completed
          /\ (processChunks TABLE_NAME send itemChunks counts unprocessed w).1.2
             = unprocessed ++ more
          /\ concat itemChunks ≡ₚ completed ++ more).
Proof.
  revert counts unprocessed w.
  induction itemChunks as [| chunk rest IH]; intros counts unprocessed w; simpl.
  - exists []. split; [by rewrite app_nil_r |]. intros _.
    exists [], []. split; [constructor |]. by rewrite app_nil_r.
  - destruct (processChunk_conserve counts unprocessed chunk w)
      as (evs1 & Hlog1 & Hchunk).
    destruct (processChunk TABLE_NAME send counts unprocessed chunk w) as [s w1].
    simpl in Hlog1, Hchunk.
    destruct (IH (processedCount s) (leftOver s) w1) as (evs2 & Hlog2 & Hrest).
    exists (evs1 ++ evs2). split; [by rewrite Hlog2, Hlog1, app_assoc |].
    rewrite submissions_app. intros [Hhonest1 Hhonest2]%Forall_app.
    destruct (Hchunk Hhonest1) as (Hleft & completed1 & Hcompleted1 & Hsplit1).
    destruct (Hrest Hhonest2) as (completed2 & more & Hcompleted2 & Hmore & Hsplit2).
    exists (completed1 ++ completed2), (unprocessedChunk s ++ more).
    split; [by apply completes_app |]. split.
    + by rewrite Hmore, Hleft, app_assoc.
    + rewrite Hsplit1, Hsplit2, <- !app_assoc. apply Permutation_app_head.
      rewrite !app_assoc. apply Permutation_app_tail, Permutation_app_comm.
Qed.

End Conservation.

(** *** The runs of the executor, as the log shows them *)

Abbreviation Call :=
  (gmap string (list WriteRequest) * Sent BatchWriteItemCommandOutput)%type.
Abbreviation Trace :=
  (list (Event (gmap string (list WriteRequest)) BatchWriteItemCommandOutput)).

(** The run of one chunk's retry loop in the words of the specification,
    read off the events: while something is pending and attempts remain,
    a call that carries exactly what is pending; what the call hands back
    is pending next; after a call that handed something back, and only
    then, a sleep of the delay of the policy for that attempt, attempts
    counted from 0; nothing after a call that threw. *)
Fixpoint chunkRun (TABLE_NAME : string) (pending : list WriteRequest)
    (attempt : nat) (evs : Trace) : Prop :=
  match evs with
  | [] => pending = [] \/ attempt = Policy.maxAttempts
  | Submitted input outcome :: rest =>
      pending <> [] /\ attempt < Policy.maxAttempts
      /\ input = {[ TABLE_NAME := pending ]}
      /\ match outcome with
         | Threw _ => rest = []
         | Returned _ =>
             match handedBackFor TABLE_NAME outcome with
             | [] => rest = []
             | _ :: _ =>
                 match rest with
                 | Slept ms :: rest' =>
                     ms = Policy.delayAfter attempt
                     /\ chunkRun TABLE_NAME (handedBackFor TABLE_NAME outcome)
                                 (S attempt) rest'
                 | _ => False
                 end
             end
         end
  | Slept _ :: _ => False
  end.

(** The last call of a run. *)
Definition lastCall (evs : Trace) : option Call := last (submissions evs).

(** A run that ended with nothing pending: its last call returned and
    handed nothing back. *)
Definition settled (TABLE_NAME : string) (evs : Trace) : Prop :=
  exists input response,
    lastCall evs = Some (input, Returned response)
    /\ handedBackFor TABLE_NAME (Returned response) = [].

(** What is pending when a chunk's run ends: what its last call handed
    back, or what its last call carried if that call threw. *)
Definition pendingAtEnd (TABLE_NAME : string) (evs : Trace) : list WriteRequest :=
  match lastCall evs with
  | Some (input, Threw _) => default [] (input !! TABLE_NAME)
  | Some (_, Returned response) => handedBackFor TABLE_NAME (Returned response)
  | None => []
  end.

(** What a chunk's run adds to the list of unprocessed items: what is
    pending at its end; twice when its last call threw (the [catch] block
    lists it, and the statement after the loop lists it again). *)
Definition leftBy (TABLE_NAME : string) (evs : Trace) : list WriteRequest :=
  match lastCall evs with
  | Some (_, Threw _) => pendingAtEnd TABLE_NAME evs ++ pendingAtEnd TABLE_NAME evs
  | _ => pendingAtEnd TABLE_NAME evs
  end.

(** The statement after the retry loop: what is still pending goes to the
    list of unprocessed items. *)
Definition afterLoop (s : LoopState) : list WriteRequest :=
  if 0 <? length (unprocessedChunk s)
  then leftOver s ++ unprocessedChunk s
  else leftOver s.

Section RunFacts.
Variable TABLE_NAME : string.

Lemma loopCond_true (s : LoopState) :
  loopCond s = true <-> unprocessedChunk s <> [] /\ retryCount s < maxRetries.
Proof.
  unfold loopCond. rewrite andb_true_iff, !Nat.ltb_lt.
  destruct (unprocessedChunk s); simpl; split; intros [? ?]; split;
    try done; lia.
Qed.

Lemma attempts_stop s evs s' :
  attempts TABLE_NAME s evs s' -> loopCond s = false -> evs = [] /\ s' = s.
Proof. destruct 1; intros Hcond; [done | congruence ..]. Qed.

Lemma attempts_head s evs s' :
  attempts TABLE_NAME s evs s' ->
  evs = [] \/ exists input outcome rest, evs = Submitted input outcome :: rest.
Proof. destruct 1; eauto. Qed.

Lemma backoff_delayAfter (attempt : nat) :
  attempt < maxRetries -> backoff (S attempt) = Policy.delayAfter attempt.
Proof.
  unfold maxRetries. intros Hlt.
  destruct attempt as [| [| [| n]]]; [reflexivity .. | lia].
Qed.

(** The loop runs as the specification has it. *)
Lemma attempts_chunkRun s evs s' :
  attempts TABLE_NAME s evs s' ->
  retryCount s <= maxRetries ->
  chunkRun TABLE_NAME (unprocessedChunk s) (retryCount s) evs.
Proof.
  induction 1 as [s Hcond | s e Hcond | s response evs s' Hcond Hleft Hrun IH
                 | s response evs s' Hcond Hnil Hrun _]; intros Hretries.
  - simpl. unfold Policy.maxAttempts, loopCond, maxRetries in *.
    apply andb_false_iff in Hcond as [Hlen%Nat.ltb_ge | Hmax%Nat.ltb_ge].
    + left. destruct (unprocessedChunk s); [done | simpl in Hlen; lia].
    + right. lia.
  - apply loopCond_true in Hcond as [Hne Hlt]. simpl. auto.
  - apply loopCond_true in Hcond as [Hne Hlt].
    cbn [chunkRun]. split; [exact Hne |]. split; [exact Hlt |].
    split; [reflexivity |].
    destruct (handedBackFor TABLE_NAME (Returned response)) eqn:Hback; [done |].
    split; [by apply backoff_delayAfter |].
    rewrite <- Hback in *. apply IH. simpl. lia.
  - apply loopCond_true in Hcond as [Hne Hlt].
    cbn [chunkRun]. split; [exact Hne |]. split; [exact Hlt |].
    split; [reflexivity |]. rewrite Hnil.
    by apply attempts_stop in Hrun as [-> _].
Qed.

(** What the loop and the statement after it add to the list of
    unprocessed items. *)
Lemma attempts_left s evs s' :
  attempts TABLE_NAME s evs s' ->
  afterLoop s'
  = leftOver s ++ match evs with
                  | [] => unprocessedChunk s
                  | _ :: _ => leftBy TABLE_NAME evs
                  end.
Proof.
  induction 1 as [s Hcond | s e Hcond | s response evs s' Hcond Hleft Hrun IH
                 | s response evs s' Hcond Hnil Hrun _].
  - unfold afterLoop. destruct (unprocessedChunk s); simpl;
      [by rewrite app_nil_r | reflexivity].
  - apply loopCond_true in Hcond as [Hne _].
    unfold afterLoop, leftBy, pendingAtEnd, lastCall. simpl.
    rewrite lookup_singleton_eq. simpl.
    destruct (unprocessedChunk s); [done |]. simpl. by rewrite <- app_assoc.
  - rewrite IH. simpl. f_equal.
    destruct (attempts_head _ _ _ Hrun) as [-> | (input & outcome & rest & ->)].
    + reflexivity.
    + reflexivity.
  - apply attempts_stop in Hrun as [-> ->]; [| reflexivity].
    unfold afterLoop, leftBy, pendingAtEnd, lastCall. simpl in *. by rewrite Hnil, app_nil_r.
Qed.

(** Facts about a run, read off the events alone. *)

(** Induction over a run: one case per way through the loop. *)
Lemma chunkRun_cases (P : list WriteRequest -> nat -> Trace -> Prop) :
  (forall pending attempt,
      pending = [] \/ attempt = Policy.maxAttempts -> P pending attempt []) ->
  (forall pending attempt e,
      pending <> [] -> attempt < Policy.maxAttempts ->
      P pending attempt [Submitted {[ TABLE_NAME := pending ]} (Threw e)]) ->
  (forall pending attempt response,
      pending <> [] -> attempt < Policy.maxAttempts ->
      handedBackFor TABLE_NAME (Returned response) = [] ->
      P pending attempt [Submitted {[ TABLE_NAME := pending ]} (Returned response)]) ->
  (forall pending attempt response rest,
      pending <> [] -> attempt < Policy.maxAttempts ->
      handedBackFor TABLE_NAME (Returned response) <> [] ->
      chunkRun TABLE_NAME (handedBackFor TABLE_NAME (Returned response))
               (S attempt) rest ->
      P (handedBackFor TABLE_NAME (Returned response)) (S attempt) rest ->
      P pending attempt
        (Submitted {[ TABLE_NAME := pending ]} (Returned response)
         :: Slept (Policy.delayAfter attempt) :: rest)) ->
  forall pending attempt evs,
    chunkRun TABLE_NAME pending attempt evs -> P pending attempt evs.
Proof.
  intros Hexit Hthrew Haccepted Hretry pending attempt evs.
  remember (length evs) as n eqn:Hn. revert pending attempt evs Hn.
  induction n as [n IH] using lt_wf_ind. intros pending attempt evs Hn Hrun.
  destruct evs as [| [input outcome | ms] rest]; [by apply Hexit | | done].
  destruct Hrun as (Hne & Hlt & -> & Hrest).
  destruct outcome as [response | e]; [| subst rest; by apply Hthrew].
  destruct (handedBackFor TABLE_NAME (Returned response)) eqn:Hback.
  { subst rest. by apply Haccepted. }
  destruct rest as [| [? ? | ms] rest']; try done.
  destruct Hrest as [-> Hrest]. rewrite <- Hback in Hrest.
  apply Hretry; try done.
  - by rewrite Hback.
  - eapply IH; [| reflexivity | exact Hrest]. subst n. simpl. lia.
Qed.

Lemma lastCall_retry input outcome ms (evs : Trace) :
  evs <> [] ->
  (forall ms' rest, evs <> Slept ms' :: rest) ->
  lastCall (Submitted input outcome :: Slept ms :: evs) = lastCall evs.
Proof.
  intros Hne Hhead. destruct evs as [| [input' outcome' | ms'] rest]; try done.
  by destruct (Hhead ms' rest).
Qed.

Lemma chunkRun_head pending attempt evs :
  chunkRun TABLE_NAME pending attempt evs ->
  forall ms rest, evs <> Slept ms :: rest.
Proof. intros Hrun ms rest ->. exact Hrun. Qed.

Lemma chunkRun_calls pending attempt evs :
  chunkRun TABLE_NAME pending attempt evs ->
  attempt <= Policy.maxAttempts ->
  attempt + length (submissions evs) <= Policy.maxAttempts
  /\ (pending <> [] -> attempt < Policy.maxAttempts -> evs <> []).
Proof.
  intros Hrun. pattern pending, attempt, evs.
  revert pending attempt evs Hrun. apply chunkRun_cases;
    unfold Policy.maxAttempts.
  - intros pending attempt [-> | ->] Hle; (split; [simpl; lia |]); [done | lia].
  - intros pending attempt e Hne Hlt _. split; [simpl; lia | done].
  - intros pending attempt response Hne Hlt _ _. split; [simpl; lia | done].
  - intros pending attempt response rest Hne Hlt _ _ IH _. split; [| done].
    destruct IH as [IH _]; [lia |]. simpl in *. lia.
Qed.

Lemma chunkRun_delays pending attempt evs :
  chunkRun TABLE_NAME pending attempt evs ->
  delays evs = map Policy.delayAfter (seq attempt (length (delays evs))).
Proof.
  intros Hrun. pattern pending, attempt, evs.
  revert pending attempt evs Hrun. apply chunkRun_cases; try reflexivity.
  intros pending attempt response rest _ _ _ _ IH.
  rewrite delays_retry. simpl. by rewrite <- IH.
Qed.

Lemma chunkRun_sleeps pending attempt evs :
  chunkRun TABLE_NAME pending attempt evs ->
  attempt <= Policy.maxAttempts ->
  attempt + length (delays evs) <= Policy.maxAttempts.
Proof.
  intros Hrun. pattern pending, attempt, evs.
  revert pending attempt evs Hrun. apply chunkRun_cases;
    unfold Policy.maxAttempts; simpl; intros; lia.
Qed.

(** A sleep precedes each retry. *)
Lemma chunkRun_retries pending attempt evs :
  chunkRun TABLE_NAME pending attempt evs ->
  length (submissions evs) <= S (length (delays evs)).
Proof.
  intros Hrun. pattern pending, attempt, evs.
  revert pending attempt evs Hrun. apply chunkRun_cases; simpl; intros; lia.
Qed.

(** Every call of a run carries at least one request, in one table
    entry. *)
Lemma chunkRun_inputs pending attempt evs :
  chunkRun TABLE_NAME pending attempt evs ->
  Forall (fun call : Call =>
            exists requests,
              call.1 = {[ TABLE_NAME := requests ]} /\ requests <> [])
         (submissions evs).
Proof.
  intros Hrun. pattern pending, attempt, evs.
  revert pending attempt evs Hrun. apply chunkRun_cases.
  - constructor.
  - intros pending attempt e Hne _. repeat constructor. by exists pending.
  - intros pending attempt response Hne _ _. repeat constructor. by exists pending.
  - intros pending attempt response rest Hne _ _ _ IH.
    rewrite submissions_retry. constructor; [by exists pending | exact IH].
Qed.

(** How a run ends: settled, or on a call that threw, or with the
    attempts used up, the last of them handing something back. *)
Lemma chunkRun_end pending attempt evs :
  chunkRun TABLE_NAME pending attempt evs ->
  evs <> [] ->
  settled TABLE_NAME evs
  \/ (exists input e, lastCall evs = Some (input, Threw e))
  \/ (attempt + length (submissions evs) = Policy.maxAttempts
      /\ exists input response,
          lastCall evs = Some (input, Returned response)
          /\ handedBackFor TABLE_NAME (Returned response) <> []).
Proof.
  intros Hrun. pattern pending, attempt, evs.
  revert pending attempt evs Hrun. apply chunkRun_cases.
  - done.
  - intros pending attempt e _ _ _. right. left. unfold lastCall. simpl. eauto.
  - intros pending attempt response _ _ Hnil _. left.
    exists {[ TABLE_NAME := pending ]}, response. unfold lastCall. simpl. auto.
  - intros pending attempt response rest Hne Hlt Hback Hrest IH _.
    destruct rest as [| ev rest'].
    + right. right. destruct Hrest as [Hnil | Hmax]; [done |].
      split; [simpl; lia |].
      exists {[ TABLE_NAME := pending ]}, response. unfold lastCall. simpl. auto.
    + unfold settled.
      rewrite !(lastCall_retry _ _ _ (ev :: rest'))
        by (done || by apply (chunkRun_head _ _ _ Hrest)).
      destruct IH as [Hsettled | [Hthrew | [Hcount Hlast]]]; auto.
      right. right. split; [| exact Hlast].
      rewrite submissions_retry. simpl in *. lia.
Qed.

Lemma settled_iff_left pending attempt evs :
  chunkRun TABLE_NAME pending attempt evs ->
  evs <> [] ->
  leftBy TABLE_NAME evs = [] <-> settled TABLE_NAME evs.
Proof.
  intros Hrun Hne.
  pose proof (chunkRun_inputs _ _ _ Hrun) as Hinputs.
  unfold leftBy, pendingAtEnd, settled.
  destruct (lastCall evs) as [[input [response | e]] |] eqn:Hlast.
  - split.
    + intros Hnil. eauto.
    + intros (input' & response' & [= <- <-] & Hnil). exact Hnil.
  - split.
    + intros [Hnil _]%app_eq_nil. exfalso.
      unfold lastCall in Hlast. apply last_Some_elem_of in Hlast.
      apply (proj1 (Forall_forall _ _) Hinputs) in Hlast
        as (requests & Hinput & Hrequests).
      simpl in Hinput. subst input.
      rewrite lookup_singleton_eq in Hnil. done.
    + intros (input' & response' & [=] & _).
  - exfalso. unfold lastCall in Hlast. apply last_None in Hlast.
    destruct evs as [| [input outcome | ms] rest]; done.
Qed.

(** Only the last call of a run can have thrown. *)
Lemma chunkRun_returned pending attempt evs :
  chunkRun TABLE_NAME pending attempt evs ->
  (forall input e, lastCall evs <> Some (input, Threw e))
  <-> Forall (fun call : Call => exists response, call.2 = Returned response)
             (submissions evs).
Proof.
  intros Hrun. pattern pending, attempt, evs.
  revert pending attempt evs Hrun. apply chunkRun_cases.
  - intros pending attempt _. split; [constructor | done].
  - intros pending attempt e _ _. split.
    + intros Habs. by destruct (Habs {[ TABLE_NAME := pending ]} e).
    + intros [[response Habs] _]%Forall_cons. discriminate.
  - intros pending attempt response _ _ _. split; [| done].
    intros _. repeat constructor. eauto.
  - intros pending attempt response rest _ _ _ Hrest IH.
    rewrite submissions_retry, Forall_cons.
    destruct rest as [| ev rest'].
    + split; [| done]. intros _. split; [eauto | constructor].
    + rewrite (lastCall_retry _ _ _ (ev :: rest'))
        by (done || by apply (chunkRun_head _ _ _ Hrest)).
      rewrite IH. split; [| tauto]. intros Hall. split; [eauto | exact Hall].
Qed.

Lemma settled_returned pending attempt evs :
  chunkRun TABLE_NAME pending attempt evs ->
  settled TABLE_NAME evs ->
  Forall (fun call : Call => exists response, call.2 = Returned response)
         (submissions evs).
Proof.
  intros Hrun (input & response & Hlast & _).
  apply (chunkRun_returned _ _ _ Hrun). intros input' e. rewrite Hlast. done.
Qed.

(** What a run adds to the list has the elements of what is pending at
    its end. *)
Lemma leftBy_elements (evs : Trace) (request : WriteRequest) :
  request ∈ leftBy TABLE_NAME evs <-> request ∈ pendingAtEnd TABLE_NAME evs.
Proof.
  unfold leftBy. destruct (lastCall evs) as [[input [response | e]] |];
    [reflexivity | | reflexivity].
  rewrite elem_of_app. tauto.
Qed.

Lemma lefts_elements (traces : list Trace) (request : WriteRequest) :
  request ∈ concat (map (leftBy TABLE_NAME) traces)
  <-> exists evs, evs ∈ traces /\ request ∈ pendingAtEnd TABLE_NAME evs.
Proof.
  induction traces as [| evs traces IH]; simpl.
  - split; [by intros ?%elem_of_nil | by intros (evs & ?%elem_of_nil & _)].
  - rewrite elem_of_app, IH, leftBy_elements. split.
    + intros [Hin | (evs' & Hevs & Hin)].
      * exists evs. split; [left | exact Hin].
      * exists evs'. split; [by right | exact Hin].
    + intros (evs' & [-> | Hevs]%elem_of_cons & Hin); [by left |].
      right. eauto.
Qed.

(** Nothing is left by the runs exactly when each of them settled. *)
Lemma runs_settled (itemChunks : list (list WriteRequest)) (traces : list Trace) :
  Forall2 (fun chunk evs => chunkRun TABLE_NAME chunk 0 evs /\ evs <> [])
          itemChunks traces ->
  concat (map (leftBy TABLE_NAME) traces) = []
  <-> Forall (settled TABLE_NAME) traces.
Proof.
  induction 1 as [| chunk evs chunks traces [Hrun Hne] _ IH]; simpl.
  - split; [constructor | reflexivity].
  - rewrite Forall_cons, <- IH, <- (settled_iff_left _ _ _ Hrun Hne).
    split; [by intros [? ?]%app_eq_nil | by intros [-> ->]].
Qed.

Lemma runs_returned (itemChunks : list (list WriteRequest)) (traces : list Trace) :
  Forall2 (fun chunk evs => chunkRun TABLE_NAME chunk 0 evs /\ evs <> [])
          itemChunks traces ->
  Forall (settled TABLE_NAME) traces ->
  Forall (fun call : Call => exists response, call.2 = Returned response)
         (submissions (concat traces)).
Proof.
  induction 1 as [| chunk evs chunks traces [Hrun Hne] _ IH]; simpl.
  - constructor.
  - intros [Hsettled Hrest]%Forall_cons.
    rewrite submissions_app. apply Forall_app. split; [| by apply IH].
    by apply (settled_returned _ _ _ Hrun).
Qed.

End RunFacts.

Section Runs.
Context {St : Type}.
Variable TABLE_NAME : string.
Variable send :
  St -> gmap string (list WriteRequest) -> St * Sent BatchWriteItemCommandOutput.
Variable marshallError : Z -> string.

(** What the calls of a log handed back, call after call. *)
Definition handedBackBy (evs : Trace) : list WriteRequest :=
  concat (map (fun call : Call => handedBackFor TABLE_NAME call.2)
              (submissions evs)).

Lemma processChunk_run counts unprocessed chunk
    (w : Effects.World St (gmap string (list WriteRequest))
                       BatchWriteItemCommandOutput) :
  let result := processChunk TABLE_NAME send counts unprocessed chunk w in
  exists evs,
    log result.2 = log w ++ evs
    /\ chunkRun TABLE_NAME chunk 0 evs
    /\ leftOver result.1 = unprocessed ++ leftBy TABLE_NAME evs
    /\ processedCount result.1 = foldl countItem counts (handedBackBy evs).
Proof.
  unfold processChunk.
  destruct (retryLoop_attempts TABLE_NAME send
              (mkLoop 0 chunk counts unprocessed) w) as (evs & Hlog & Hrun).
  destruct (retryLoop TABLE_NAME send _ w) as [s w1]. simpl in *.
  pose proof (attempts_chunkRun _ _ _ _ Hrun ltac:(simpl; unfold maxRetries; lia))
    as Hspec.
  exists evs. split; [exact Hlog |]. split; [exact Hspec |]. split.
  - change (afterLoop s = unprocessed ++ leftBy TABLE_NAME evs).
    rewrite (attempts_left _ _ _ _ Hrun). simpl.
    destruct evs as [| ev rest]; [| reflexivity].
    simpl in Hspec. by destruct Hspec as [-> | Habs].
  - exact (attempts_tally _ _ _ _ Hrun).
Qed.

(** The loop over the chunks: one run per chunk, one after the other. *)
Lemma processChunks_runs itemChunks counts unprocessed
    (w : Effects.World St (gmap string (list WriteRequest))
                       BatchWriteItemCommandOutput) :
  let result := processChunks TABLE_NAME send itemChunks counts unprocessed w in
  exists traces,
    log result.2 = log w ++ concat traces
    /\ Forall2 (fun chunk evs => chunkRun TABLE_NAME chunk 0 evs) itemChunks traces
    /\ result.1.2 = unprocessed ++ concat (map (leftBy TABLE_NAME) traces)
    /\ result.1.1 = foldl countItem counts (handedBackBy (concat traces)).
Proof.
  revert counts unprocessed w.
  induction itemChunks as [| chunk rest IH]; intros counts unprocessed w; simpl.
  - exists []. simpl. rewrite !app_nil_r. repeat split. constructor.
  - destruct (processChunk_run counts unprocessed chunk w)
      as (evs & Hlog & Hrun & Hleft & Hcount).
    destruct (processChunk TABLE_NAME send counts unprocessed chunk w) as [s w1].
    simpl in Hlog, Hleft, Hcount.
    destruct (IH (processedCount s) (leftOver s) w1)
      as (traces & Hlog' & Hruns & Hleft' & Hcount').
    exists (evs :: traces). simpl. split; [| split; [| split]].
    + by rewrite Hlog', Hlog, app_assoc.
    + by constructor.
    + by rewrite Hleft', Hleft, app_assoc.
    + rewrite Hcount', Hcount. unfold handedBackBy.
      by rewrite submissions_app, map_app, concat_app, foldl_app.
Qed.

(** The run of a chunk that is not empty starts with a call. *)
Lemma runs_start (size : nat) itemChunks (traces : list Trace) :
  Forall (fun chunk : list WriteRequest => 1 <= length chunk <= size) itemChunks ->
  Forall2 (fun chunk evs => chunkRun TABLE_NAME chunk 0 evs) itemChunks traces ->
  Forall2 (fun chunk evs => chunkRun TABLE_NAME chunk 0 evs /\ evs <> [])
          itemChunks traces.
Proof.
  intros Hlengths Hruns. revert Hlengths.
  induction Hruns as [| chunk evs chunks traces Hrun _ IH]; intros Hlengths;
    [constructor |].
  apply Forall_cons in Hlengths as [Hchunk Hchunks].
  constructor; [| by apply IH]. split; [exact Hrun |].
  apply (chunkRun_calls _ _ _ _ Hrun); unfold Policy.maxAttempts; try lia.
  intros ->. simpl in Hchunk. lia.
Qed.

(** The runs of [batchAddContent] on an input that passes validation and
    that [marshall] accepts: the log is the runs of the chunks, one after
    the other, and the response is read off them. *)
Lemma batchAddContent_runs content episodes stats
    (w : Effects.World St (gmap string (list WriteRequest))
                       BatchWriteItemCommandOutput) :
  validateInputs content episodes stats = None ->
  thrownNumber (formatBatchWriteItems content episodes stats) = None ->
  let run := batchAddContent TABLE_NAME send marshallError content episodes
               stats w in
  exists traces,
    log run.2 = log w ++ concat traces
    /\ Forall2 (fun chunk evs => chunkRun TABLE_NAME chunk 0 evs /\ evs <> [])
         (chunkArray (formatBatchWriteItems content episodes stats) 25) traces
    /\ run.1
       = {| success := length (concat (map (leftBy TABLE_NAME) traces)) =? 0;
            message :=
              Some (if length (concat (map (leftBy TABLE_NAME) traces)) =? 0
                    then "All items processed successfully"
                    else "Some items were not processed");
            processedItems := foldl countItem noCounts (handedBackBy (concat traces));
            unprocessedItems :=
              Some (map report (concat (map (leftBy TABLE_NAME) traces)));
            error := None |}.
Proof.
  intros Hvalid Hsafe run. subst run. unfold batchAddContent.
  rewrite Hvalid, Hsafe.
  destruct (processChunks_runs
              (chunkArray (formatBatchWriteItems content episodes stats) 25)
              noCounts [] w) as (traces & Hlog & Hruns & Hleft & Hcount).
  destruct (processChunks _ _ _ _ _ w) as [[counts unprocessed] w1].
  simpl in *. subst counts unprocessed.
  exists traces. split; [exact Hlog |]. split; [| reflexivity].
  eapply runs_start; [| exact Hruns].
  apply chunkArray_chunk_lengths. lia.
Qed.

Lemma batchAddContent_refused content episodes stats
    (w : Effects.World St (gmap string (list WriteRequest))
                       BatchWriteItemCommandOutput) :
  let run := batchAddContent TABLE_NAME send marshallError content episodes
               stats w in
  (forall problem,
      validateInputs content episodes stats = Some problem ->
      run = (refusal problem, w))
  /\ (forall n,
         validateInputs content episodes stats = None ->
         thrownNumber (formatBatchWriteItems content episodes stats) = Some n ->
         run = (refusal (marshallError n), w)).
Proof.
  unfold batchAddContent. split.
  - by intros problem ->.
  - by intros n -> ->.
Qed.

End Runs.

(** *** Worked runs *)

(** Five write requests, for the run of the specification's scenario B. *)
Definition fiveItems : list WriteRequest :=
  [ item "MOVIE#1" "METADATA"; item "MOVIE#1" "STATS";
    item "MOVIE#2" "METADATA"; item "MOVIE#2" "STATS";
    item "MOVIE#3" "METADATA" ].

(** C3. The tally counts what the store handed back, not what it wrote.
    On the test data of the source, with a store that accepts all six items
    at once, the result is a success that reports no processed item at all;
    and in scenario B (five items in chunks of two, the second chunk handed
    one item back on its first call and accepted it on the second), the
    tally is one processed item, the one that was handed back, where the
    claim has five. *)
Theorem processed_tally_counts_unprocessed :
  (let response :=
     (batchAddContent table (scripted accepted) useBigInt
        newContent seriesEpisodes contentStats (replaying [])).1 in
   success response = true
   /\ length (formatBatchWriteItems newContent seriesEpisodes contentStats) = 6
   /\ processedItems response = {| metadata := 0; episodes := 0; stats := 0 |})
  /\ (let script := [accepted; handedBack [item "MOVIE#2" "STATS"]; accepted; accepted] in
      let '(counts, unprocessed, w) :=
        processChunks table (scripted accepted) (chunkArray fiveItems 2)
                      noCounts [] (replaying script) in
      map length (chunkArray fiveItems 2) = [2; 2; 1]
      /\ map (fun call => handedBackFor table call.2) (submissions (log w))
         = [[]; [item "MOVIE#2" "STATS"]; []; []]
      /\ unprocessed = []
      /\ counts = {| metadata := 0; episodes := 0; stats := 1 |}).
Proof. vm_compute. repeat split. Qed.

End BatchWrite.

(** ** Batch read: [src/section3/01-solution.ts] *)

Module BatchRead.
Import Effects.

(** *** Types and interfaces *)

Record ViewingEntry : Type := {
  movieId : option string;
  watchDuration : option Z;
  completed : option bool;
  watchDate : option string
}.

Record UserAnalyticsData : Type := {
  userId : string;
  name : option string;
  subscriptionTier : option string;
  viewingHistory : list ViewingEntry
}.

Record BatchReadResponse : Type := {
  success : bool;
  message : option string;
  data : option (list UserAnalyticsData);
  error : option string
}.

(** A key [{ PK: { S }, SK: { S } }] of the request. *)
Record Key : Type := {
  keyPK : string;
  keySK : string
}.

(** An item of the response after [unmarshall]: its key attributes, and
    the attributes the formatting reads, each absent ([undefined]) or set.
    Every item of the table has its two key attributes, and they are
    strings, so that reading [item.SK] or [profile.PK] never throws. *)
Record Item : Type := {
  PK : string;
  SK : string;
  item_name : option string;
  subscription_tier : option string;
  movie_id : option string;
  watch_duration : option Z;
  item_completed : option bool
}.

(** The output of [BatchGetItemCommand]: tables by name. *)
Record BatchGetItemCommandOutput : Type := {
  Responses : option (gmap string (list Item));
  UnprocessedKeys : option (gmap string (list Key))
}.

(** *** Helper functions *)

Definition formatUserKeys (userIds : list string) : list Key :=
  map (fun userId => {| keyPK := "USER#" +:+ userId;
                        keySK := "PROFILE#" +:+ userId |}) userIds.

Definition formatViewingHistoryKeys (userIds : list string) : list Key :=
  map (fun userId => {| keyPK := "USER#" +:+ userId;
                        keySK := "VIEWING#" |}) userIds.

Definition isDigit (c : ascii) : bool :=
  (48 <=? nat_of_ascii c) && (nat_of_ascii c <=? 57).

Fixpoint allDigits (s : string) : bool :=
  match s with
  | EmptyString => true
  | String c rest => isDigit c && allDigits rest
  end.

(** [/^\d+$/.test(id)]. *)
Definition digitsOnly (id : string) : bool :=
  negb (String.eqb id "") && allDigits id.

(** The three checks of the input; [None] when it passes. *)
Definition validate (userIds : list string) : option string :=
  if length userIds =? 0 then Some "User IDs array cannot be empty"
  else if 100 <? length userIds then
    Some "Cannot process more than 100 items in a batch"
  else if negb (forallb digitsOnly userIds) then
    Some "Invalid user ID format detected"
  else None.

(** [s.replace(pattern, replacement)] for a string pattern: the first
    occurrence, if any, is replaced. *)
Fixpoint replace (pattern replacement s : string) {struct s} : string :=
  if String.prefix pattern s then
    replacement
    +:+ String.substring (String.length pattern)
                         (String.length s - String.length pattern) s
  else match s with
       | EmptyString => EmptyString
       | String c rest => String c (replace pattern replacement rest)
       end.

(** [s.split(separator)] for a one-character separator. *)
Fixpoint split (separator : ascii) (s : string) : list string :=
  match s with
  | EmptyString => [EmptyString]
  | String c rest =>
      if Ascii.eqb c separator then EmptyString :: split separator rest
      else match split separator rest with
           | [] => [String c EmptyString]
           | first :: others => String c first :: others
           end
  end.

Example replace_user : replace "USER#" "" "USER#1001" = "1001".
Proof. reflexivity. Qed.

Example split_viewing :
  split "#" "VIEWING#2024-01-15" = ["VIEWING"; "2024-01-15"].
Proof. reflexivity. Qed.

Definition isProfile (item : Item) : bool := String.prefix "PROFILE#" (SK item).
Definition isViewing (item : Item) : bool :=
  negb (isProfile item) && String.prefix "VIEWING#" (SK item).

(** [allProfiles.map((profile) => { ... })]. *)
Definition format (allProfiles allViewingHistories : list Item)
  : list UserAnalyticsData :=
  map (fun profile =>
    {| userId := replace "USER#" "" (PK profile);
       name := item_name profile;
       subscriptionTier := subscription_tier profile;
       viewingHistory :=
         map (fun vh => {| movieId := movie_id vh;
                           watchDuration := watch_duration vh;
                           completed := item_completed vh;
                           watchDate := split "#" (SK vh) !! 1 |})
             (filter (fun vh => PK vh = PK profile) allViewingHistories) |})
    allProfiles.

(** *** The executor *)

Record LoopState : Type := mkLoop {
  unprocessedKeys : bool;
  retryCount : nat;
  allProfiles : list Item;
  allViewingHistories : list Item
}.

(** The loop body either falls through to the loop test again or throws;
    what it throws is caught by the [catch] of the whole function. *)
Inductive Flow : Type := Continue | Throw (e : Thrown).

Definition maxRetries : nat := 3.

(** [unprocessedKeys && retryCount < maxRetries]. *)
Definition loopCond (s : LoopState) : bool :=
  unprocessedKeys s && (retryCount s <? maxRetries).

(** [Math.pow(2, retryCount) * 100]. *)
Definition backoff (retryCount : nat) : Z := (2 ^ Z.of_nat retryCount * 100)%Z.

Definition loopMeasure (s : LoopState) : nat :=
  if unprocessedKeys s then S (maxRetries - retryCount s) else 0.

(** [response.UnprocessedKeys &&
     Object.keys(response.UnprocessedKeys).length > 0]. *)
Definition hasUnprocessedKeys (response : BatchGetItemCommandOutput) : bool :=
  match UnprocessedKeys response with
  | Some tables => 0 <? size tables
  | None => false
  end.

Section Executor.
Context {St : Type}.
Variable TABLE_NAME : string.
Variable send :
  St -> gmap string (list Key) -> St * Sent BatchGetItemCommandOutput.

Abbreviation World :=
  (Effects.World St (gmap string (list Key)) BatchGetItemCommandOutput).

(** The [RequestItems] of every call: all the keys of all the users. *)
Definition requestItems (userIds : list string) : gmap string (list Key) :=
  {[ TABLE_NAME := formatUserKeys userIds ++ formatViewingHistoryKeys userIds ]}.

(** One pass through the body of the [while] loop. *)
Definition loopBody (userIds : list string) (s : LoopState) (w : World)
  : Flow * LoopState * World :=
  match submit send w (requestItems userIds) with
  | (w1, Returned response) =>
      let items := default [] (Responses response ≫= (.!! TABLE_NAME)) in
      let profiles := allProfiles s ++ filter (fun i => isProfile i = true) items in
      let histories :=
        allViewingHistories s ++ filter (fun i => isViewing i = true) items in
      if hasUnprocessedKeys response then
        let retries := S (retryCount s) in
        (Continue, mkLoop (unprocessedKeys s) retries profiles histories,
         sleep (backoff retries) w1)
      else
        (Continue, mkLoop false (retryCount s) profiles histories, w1)
  | (w1, Threw e) => (Throw e, s, w1)
  end.

Lemma read_loopBody_decreases userIds (s s' : LoopState) (w w' : World) :
  loopCond s = true ->
  loopBody userIds s w = (Continue, s', w') ->
  loopMeasure s' < loopMeasure s.
Proof.
  unfold loopCond, loopBody, loopMeasure, maxRetries. intros Hcond Hbody.
  apply andb_true_iff in Hcond as [Hkeys Hretry].
  apply Nat.ltb_lt in Hretry. rewrite Hkeys in *.
  destruct (submit send w _) as [w1 [response | e]]; [| discriminate].
  destruct (hasUnprocessedKeys response); inversion Hbody; subst; simpl; lia.
Qed.

(** [while (unprocessedKeys && retryCount < maxRetries) { ... }]. *)
Equations retryLoop (userIds : list string) (s : LoopState) (w : World)
  : option Thrown * LoopState * World by wf (loopMeasure s) lt :=
retryLoop userIds s w with inspect (loopCond s) := {
  | exist _ true Hcond with inspect (loopBody userIds s w) := {
      | exist _ (Continue, s', w') Hbody => retryLoop userIds s' w'
      | exist _ (Throw e, s', w') Hbody => (Some e, s', w') }
  | exist _ false Hcond => (None, s, w) }.
Next Obligation.
  intros. eapply read_loopBody_decreases; eassumption.
Qed.

(** [getUserAnalytics]: validation, the retry loop from
    [unprocessedKeys = true] and [retryCount = 0], and the formatted
    response; an exception of [client.send] ends in the [catch] block. *)
Definition getUserAnalytics (userIds : list string) (w : World)
  : BatchReadResponse * World :=
  match validate userIds with
  | Some problem =>
      ({| success := false; message := None; data := None;
          error := Some problem |}, w)
  | None =>
      match retryLoop userIds (mkLoop true 0 [] []) w with
      | (None, s, w1) =>
          ({| success := true;
              message :=
                Some (if unprocessedKeys s
                      then "Some items could not be retrieved after maximum retries"
                      else "All items retrieved successfully");
              data := Some (format (allProfiles s) (allViewingHistories s));
              error := None |}, w1)
      | (Some e, _, w1) =>
          ({| success := false; message := None; data := None;
              error := Some (messageOrUnknown e) |}, w1)
      end
  end.

End Executor.

(** *** Stores and items for worked examples *)

Definition table : string := "StreamingPlatform".

Definition profile (id name tier : string) : Item :=
  {| PK := "USER#" +:+ id; SK := "PROFILE#" +:+ id;
     item_name := Some name; subscription_tier := Some tier;
     movie_id := None; watch_duration := None; item_completed := None |}.

Definition viewing (id date movie : string) (watched : Z) : Item :=
  {| PK := "USER#" +:+ id; SK := "VIEWING#" +:+ date;
     item_name := None; subscription_tier := None;
     movie_id := Some movie; watch_duration := Some watched;
     item_completed := Some true |}.

(** The store returned [items] and left [keys] unprocessed. *)
Definition partly (items : list Item) (keys : list Key)
  : Sent BatchGetItemCommandOutput :=
  Returned {| Responses := Some {[ table := items ]};
              UnprocessedKeys := Some {[ table := keys ]} |}.

(** The store returned [items] and left nothing unprocessed. *)
Definition fully (items : list Item) : Sent BatchGetItemCommandOutput :=
  Returned {| Responses := Some {[ table := items ]};
              UnprocessedKeys := Some ∅ |}.

(** A world whose store replays [script] and then returns nothing. *)
Definition replaying (script : list (Sent BatchGetItemCommandOutput))
  : Effects.World (list (Sent BatchGetItemCommandOutput))
                  (gmap string (list Key)) BatchGetItemCommandOutput :=
  mkWorld script [].

(** *** Properties of the retry loop *)

Section ExecutorFacts.
Context {St : Type}.
Variable TABLE_NAME : string.
Variable send :
  St -> gmap string (list Key) -> St * Sent BatchGetItemCommandOutput.

Abbreviation World' :=
  (Effects.World St (gmap string (list Key)) BatchGetItemCommandOutput).
Abbreviation body := (loopBody TABLE_NAME send).
Abbreviation loop := (retryLoop TABLE_NAME send).
Abbreviation request := (requestItems TABLE_NAME).

Lemma read_retryLoop_eq userIds (s : LoopState) (w : World') :
  loop userIds s w =
  if loopCond s then
    match body userIds s w with
    | (Continue, s', w') => loop userIds s' w'
    | (Throw e, s', w') => (Some e, s', w')
    end
  else (None, s, w).
Proof.
  funelim (retryLoop TABLE_NAME send userIds s w).
  - rewrite Hcond. reflexivity.
  - rewrite Hcond, Hbody. reflexivity.
  - rewrite Hcond, Hbody. reflexivity.
Qed.

(** The items a response adds to the two accumulators. *)
Definition received (response : BatchGetItemCommandOutput) : list Item :=
  default [] (Responses response ≫= (.!! TABLE_NAME)).

(** The runs of the loop: the state it starts in, the events it logs, and
    how and in which state it ends. *)
Inductive attempts (userIds : list string)
  : LoopState
    -> list (Event (gmap string (list Key)) BatchGetItemCommandOutput)
    -> option Thrown * LoopState -> Prop :=
| attempts_exit s :
    loopCond s = false ->
    attempts userIds s [] (None, s)
| attempts_threw s e :
    loopCond s = true ->
    attempts userIds s [Submitted (request userIds) (Threw e)] (Some e, s)
| attempts_retry s response evs r :
    loopCond s = true ->
    hasUnprocessedKeys response = true ->
    attempts userIds
      (mkLoop (unprocessedKeys s) (S (retryCount s))
         (allProfiles s ++ filter (fun i => isProfile i = true) (received response))
         (allViewingHistories s
          ++ filter (fun i => isViewing i = true) (received response)))
      evs r ->
    attempts userIds s
      (Submitted (request userIds) (Returned response)
       :: Slept (backoff (S (retryCount s))) :: evs) r
| attempts_complete s response evs r :
    loopCond s = true ->
    hasUnprocessedKeys response = false ->
    attempts userIds
      (mkLoop false (retryCount s)
         (allProfiles s ++ filter (fun i => isProfile i = true) (received response))
         (allViewingHistories s
          ++ filter (fun i => isViewing i = true) (received response)))
      evs r ->
    attempts userIds s
      (Submitted (request userIds) (Returned response) :: evs) r.

Lemma read_retryLoop_attempts userIds (s : LoopState) (w : World') :
  exists evs,
    log (loop userIds s w).2 = log w ++ evs
    /\ attempts userIds s evs (loop userIds s w).1.
Proof.
  remember (loopMeasure s) as n eqn:Hn. revert s Hn w.
  induction n as [n IH] using lt_wf_ind. intros s Hn w.
  rewrite read_retryLoop_eq.
  destruct (loopCond s) eqn:Hcond.
  2: { exists []. split; [by rewrite app_nil_r | by apply attempts_exit]. }
  destruct (body userIds s w) as [[flow s1] w1] eqn:Hbody.
  pose proof Hbody as Hstep. unfold loopBody, submit in Hstep.
  destruct (send (store w) _) as [st [response | e]] eqn:Hsend.
  - destruct (hasUnprocessedKeys response) eqn:Hkeys;
      inversion Hstep; subst flow s1 w1; clear Hstep;
      (edestruct IH as (evs & Hlog & Hrun);
       [| reflexivity
        | eexists; split;
          [ rewrite Hlog; simpl; rewrite <- !app_assoc; reflexivity | ] ]).
    + subst n. eapply read_loopBody_decreases; eassumption.
    + by apply attempts_retry.
    + subst n. eapply read_loopBody_decreases; eassumption.
    + by apply attempts_complete.
  - inversion Hstep; subst. eexists. split; [reflexivity |].
    by apply attempts_threw.
Qed.

(** Every call carries the keys of all the users, whatever came back
    before. *)
Lemma read_attempts_request userIds s evs r :
  attempts userIds s evs r ->
  Forall (fun call => call.1 = request userIds) (submissions evs).
Proof. induction 1; simpl; auto. Qed.

(** The items the calls of a log returned, call after call. *)
Definition receivedItems
    (evs : list (Event (gmap string (list Key)) BatchGetItemCommandOutput))
  : list Item :=
  concat (map (fun call => match call.2 with
                           | Returned response => received response
                           | Threw _ => []
                           end) (submissions evs)).

(** The two accumulators grow by the profiles and the viewing histories
    among the items each call returned, and by nothing else. *)
Lemma read_attempts_received userIds s evs r :
  attempts userIds s evs r ->
  allProfiles r.2
  = allProfiles s ++ filter (fun i => isProfile i = true) (receivedItems evs)
  /\ allViewingHistories r.2
     = allViewingHistories s
       ++ filter (fun i => isViewing i = true) (receivedItems evs).
Proof.
  unfold receivedItems.
  induction 1 as [s _ | s e _ | s response evs r _ _ _ [IH1 IH2]
                 | s response evs r _ _ _ [IH1 IH2]]; simpl in *.
  - by rewrite !app_nil_r.
  - by rewrite !app_nil_r.
  - rewrite IH1, IH2, !filter_app, !app_assoc. auto.
  - rewrite IH1, IH2, !filter_app, !app_assoc. auto.
Qed.

End ExecutorFacts.

(** *** The runs of the executor, as the log shows them *)

Abbreviation Call :=
  (gmap string (list Key) * Sent BatchGetItemCommandOutput)%type.
Abbreviation Trace :=
  (list (Event (gmap string (list Key)) BatchGetItemCommandOutput)).

(** The run of the retry loop, read off the events: while attempts remain,
    a call that carries [request]; after a call that left keys unprocessed,
    and only then, a sleep of the delay of the policy for that attempt,
    attempts counted from 0, and the next attempt; nothing after a call
    that left no key unprocessed, and nothing after a call that threw. *)
Fixpoint readRun (request : gmap string (list Key)) (attempt : nat)
    (evs : Trace) : Prop :=
  match evs with
  | [] => attempt = Policy.maxAttempts
  | Submitted input outcome :: rest =>
      attempt < Policy.maxAttempts
      /\ input = request
      /\ match outcome with
         | Threw _ => rest = []
         | Returned response =>
             if hasUnprocessedKeys response then
               match rest with
               | Slept ms :: rest' =>
                   ms = Policy.delayAfter attempt
                   /\ readRun request (S attempt) rest'
               | _ => False
               end
             else rest = []
         end
  | Slept _ :: _ => False
  end.

(** The last call of a run. *)
Definition lastCall (evs : Trace) : option Call := last (submissions evs).

(** The last call of the run left keys unprocessed. *)
Definition keysLeft (evs : Trace) : bool :=
  match lastCall evs with
  | Some (_, Returned response) => hasUnprocessedKeys response
  | _ => false
  end.

(** What the last call of the run threw, if it threw. *)
Definition thrownBy (evs : Trace) : option Thrown :=
  match lastCall evs with
  | Some (_, Threw e) => Some e
  | _ => None
  end.

Section RunFacts.
Context {St : Type}.
Variable TABLE_NAME : string.
Variable send :
  St -> gmap string (list Key) -> St * Sent BatchGetItemCommandOutput.

Lemma read_loopCond_true (s : LoopState) :
  loopCond s = true <-> unprocessedKeys s = true /\ retryCount s < maxRetries.
Proof. unfold loopCond. by rewrite andb_true_iff, Nat.ltb_lt. Qed.

Lemma read_attempts_stop userIds s evs r :
  attempts TABLE_NAME userIds s evs r ->
  loopCond s = false -> evs = [] /\ r = (None, s).
Proof. destruct 1; intros Hcond; [done | congruence ..]. Qed.

Lemma read_attempts_head userIds s evs r :
  attempts TABLE_NAME userIds s evs r ->
  evs = [] \/ exists input outcome rest, evs = Submitted input outcome :: rest.
Proof. destruct 1; eauto. Qed.

Lemma read_backoff_delayAfter (attempt : nat) :
  attempt < maxRetries -> backoff (S attempt) = Policy.delayAfter attempt.
Proof.
  unfold maxRetries. intros Hlt.
  destruct attempt as [| [| [| n]]]; [reflexivity .. | lia].
Qed.

(** The loop runs as [readRun] has it, and ends as its last call tells. *)
Lemma read_attempts_readRun userIds s evs r :
  attempts TABLE_NAME userIds s evs r ->
  unprocessedKeys s = true ->
  retryCount s <= maxRetries ->
  readRun (requestItems TABLE_NAME userIds) (retryCount s) evs
  /\ r.1 = thrownBy evs
  /\ (r.1 = None ->
      unprocessedKeys r.2 = match evs with [] => true | _ :: _ => keysLeft evs end).
Proof.
  induction 1 as [s Hcond | s e Hcond | s response evs r Hcond Hkeys Hrun IH
                 | s response evs r Hcond Hkeys Hrun _]; intros Hflag Hretries.
  - split; [| split; [reflexivity | by intros _]]. simpl.
    unfold loopCond in Hcond. rewrite Hflag in Hcond. simpl in Hcond.
    apply Nat.ltb_ge in Hcond. unfold Policy.maxAttempts, maxRetries in *. lia.
  - apply read_loopCond_true in Hcond as [_ Hlt].
    split; [| split; [reflexivity | done]]. simpl. auto.
  - apply read_loopCond_true in Hcond as [_ Hlt].
    destruct IH as (IHrun & IHthrown & IHkeys); [exact Hflag | simpl; lia |].
    simpl in IHrun.
    assert (Hlast : evs <> [] ->
              lastCall (Submitted (requestItems TABLE_NAME userIds)
                                  (Returned response)
                        :: Slept (backoff (S (retryCount s))) :: evs)
              = lastCall evs).
    { destruct (read_attempts_head _ _ _ _ Hrun)
        as [-> | (input & outcome & rest & ->)]; [done | reflexivity]. }
    split; [| split].
    + cbn [readRun]. split; [exact Hlt |]. split; [reflexivity |].
      rewrite Hkeys. split; [by apply read_backoff_delayAfter | exact IHrun].
    + rewrite IHthrown. unfold thrownBy.
      destruct evs as [| ev rest]; [reflexivity | by rewrite Hlast].
    + intros Hnone. rewrite (IHkeys Hnone). unfold keysLeft.
      destruct evs as [| ev rest]; [| by rewrite Hlast].
      unfold lastCall. simpl. by rewrite Hkeys.
  - apply read_loopCond_true in Hcond as [_ Hlt].
    apply read_attempts_stop in Hrun as [-> ->]; [| reflexivity].
    split; [| split].
    + cbn [readRun]. split; [exact Hlt |]. split; [reflexivity |].
      by rewrite Hkeys.
    + reflexivity.
    + intros _. unfold keysLeft, lastCall. simpl. by rewrite Hkeys.
Qed.

(** Induction over a run: one case per way through the loop. *)
Lemma readRun_cases (request : gmap string (list Key))
    (P : nat -> Trace -> Prop) :
  (P Policy.maxAttempts []) ->
  (forall attempt e,
      attempt < Policy.maxAttempts -> P attempt [Submitted request (Threw e)]) ->
  (forall attempt response,
      attempt < Policy.maxAttempts -> hasUnprocessedKeys response = false ->
      P attempt [Submitted request (Returned response)]) ->
  (forall attempt response rest,
      attempt < Policy.maxAttempts -> hasUnprocessedKeys response = true ->
      readRun request (S attempt) rest ->
      P (S attempt) rest ->
      P attempt (Submitted request (Returned response)
                 :: Slept (Policy.delayAfter attempt) :: rest)) ->
  forall attempt evs, readRun request attempt evs -> P attempt evs.
Proof.
  intros Hexit Hthrew Hcomplete Hretry attempt evs.
  remember (length evs) as n eqn:Hn. revert attempt evs Hn.
  induction n as [n IH] using lt_wf_ind. intros attempt evs Hn Hrun.
  destruct evs as [| [input outcome | ms] rest]; [| | done].
  { simpl in Hrun. by subst attempt. }
  destruct Hrun as (Hlt & -> & Hrest).
  destruct outcome as [response | e]; [| subst rest; by apply Hthrew].
  destruct (hasUnprocessedKeys response) eqn:Hkeys.
  2: { subst rest. by apply Hcomplete. }
  destruct rest as [| [? ? | ms] rest']; try done.
  destruct Hrest as [-> Hrest].
  apply Hretry; try done.
  eapply IH; [| reflexivity | exact Hrest]. subst n. simpl. lia.
Qed.

Lemma readRun_calls request attempt evs :
  readRun request attempt evs ->
  attempt + length (submissions evs) <= Policy.maxAttempts.
Proof.
  intros Hrun. pattern attempt, evs. revert attempt evs Hrun.
  apply readRun_cases; unfold Policy.maxAttempts; simpl; intros; lia.
Qed.

Lemma readRun_delays request attempt evs :
  readRun request attempt evs ->
  delays evs = map Policy.delayAfter (seq attempt (length (delays evs))).
Proof.
  intros Hrun. pattern attempt, evs. revert attempt evs Hrun.
  apply readRun_cases; try reflexivity.
  intros attempt response rest _ _ _ IH.
  rewrite delays_retry. simpl. by rewrite <- IH.
Qed.

Lemma readRun_sleeps request attempt evs :
  readRun request attempt evs ->
  attempt + length (delays evs) <= Policy.maxAttempts.
Proof.
  intros Hrun. pattern attempt, evs. revert attempt evs Hrun.
  apply readRun_cases; unfold Policy.maxAttempts; simpl; intros; lia.
Qed.

(** A sleep precedes each retry. *)
Lemma readRun_retries request attempt evs :
  readRun request attempt evs ->
  length (submissions evs) <= S (length (delays evs)).
Proof.
  intros Hrun. pattern attempt, evs. revert attempt evs Hrun.
  apply readRun_cases; simpl; intros; lia.
Qed.

Lemma readRun_request request attempt evs :
  readRun request attempt evs ->
  Forall (fun call : Call => call.1 = request) (submissions evs).
Proof.
  intros Hrun. pattern attempt, evs. revert attempt evs Hrun.
  apply readRun_cases; intros; repeat constructor; auto.
Qed.

Lemma readRun_head request attempt evs :
  readRun request attempt evs -> forall ms rest, evs <> Slept ms :: rest.
Proof. intros Hrun ms rest ->. exact Hrun. Qed.

Lemma read_lastCall_retry input outcome ms (evs : Trace) :
  evs <> [] ->
  (forall ms' rest, evs <> Slept ms' :: rest) ->
  lastCall (Submitted input outcome :: Slept ms :: evs) = lastCall evs.
Proof.
  intros Hne Hhead. destruct evs as [| [input' outcome' | ms'] rest]; try done.
  by destruct (Hhead ms' rest).
Qed.

(** No call of a run threw exactly when its last call did not. *)
Lemma readRun_returned request attempt evs :
  readRun request attempt evs ->
  thrownBy evs = None
  <-> Forall (fun call : Call => exists response, call.2 = Returned response)
             (submissions evs).
Proof.
  intros Hrun. pattern attempt, evs. revert attempt evs Hrun.
  apply readRun_cases.
  - split; [constructor | reflexivity].
  - intros attempt e _. split; [discriminate |].
    intros [[response Habs] _]%Forall_cons. discriminate.
  - intros attempt response _ _. split; [| reflexivity].
    intros _. repeat constructor. eauto.
  - intros attempt response rest _ _ Hrest IH.
    rewrite submissions_retry, Forall_cons.
    destruct rest as [| ev rest'].
    + split; [| reflexivity]. intros _. split; [eauto | constructor].
    + unfold thrownBy in *.
      rewrite (read_lastCall_retry _ _ _ (ev :: rest'))
        by (done || by apply (readRun_head _ _ _ Hrest)).
      rewrite IH. split; [| tauto]. intros Hall. split; [eauto | exact Hall].
Qed.

(** How a run ends when no call threw: on a call that left no key
    unprocessed, or with the attempts used up. *)
Lemma readRun_end request attempt evs :
  readRun request attempt evs ->
  evs <> [] ->
  thrownBy evs = None ->
  keysLeft evs = false
  \/ (keysLeft evs = true
      /\ attempt + length (submissions evs) = Policy.maxAttempts).
Proof.
  intros Hrun. pattern attempt, evs. revert attempt evs Hrun.
  apply readRun_cases.
  - done.
  - intros attempt e _ _ Habs. discriminate.
  - intros attempt response _ Hkeys _ _. left.
    unfold keysLeft, lastCall. simpl. exact Hkeys.
  - intros attempt response rest Hlt Hkeys Hrest IH _.
    destruct rest as [| ev rest'].
    + intros _. right. simpl in Hrest. unfold keysLeft, lastCall. simpl.
      split; [exact Hkeys | lia].
    + unfold thrownBy, keysLeft in *.
      rewrite !(read_lastCall_retry _ _ _ (ev :: rest'))
        by (done || by apply (readRun_head _ _ _ Hrest)).
      intros Hnone. destruct (IH ltac:(done) Hnone) as [Hdone | [Hleft Hcount]];
        [by left | right].
      split; [exact Hleft |]. rewrite submissions_retry. simpl in *. lia.
Qed.

(** The runs of [getUserAnalytics] on an input that passes validation:
    the log is one run of the loop, and the response is read off it. *)
Lemma getUserAnalytics_runs userIds
    (w : Effects.World St (gmap string (list Key)) BatchGetItemCommandOutput) :
  validate userIds = None ->
  let run := getUserAnalytics TABLE_NAME send userIds w in
  exists evs,
    log run.2 = log w ++ evs
    /\ readRun (requestItems TABLE_NAME userIds) 0 evs
    /\ evs <> []
    /\ run.1
       = match thrownBy evs with
         | Some e =>
             {| success := false; message := None; data := None;
                error := Some (messageOrUnknown e) |}
         | None =>
             {| success := true;
                message :=
                  Some (if keysLeft evs
                        then "Some items could not be retrieved after maximum retries"
                        else "All items retrieved successfully");
                data :=
                  Some (format
                          (filter (fun i => isProfile i = true)
                                  (receivedItems TABLE_NAME evs))
                          (filter (fun i => isViewing i = true)
                                  (receivedItems TABLE_NAME evs)));
                error := None |}
         end.
Proof.
  intros Hvalid run. subst run. unfold getUserAnalytics. rewrite Hvalid.
  destruct (read_retryLoop_attempts TABLE_NAME send userIds
              (mkLoop true 0 [] []) w) as (evs & Hlog & Hrun).
  pose proof (read_attempts_received _ _ _ _ _ Hrun) as [Hprofiles Hviewing].
  destruct (read_attempts_readRun _ _ _ _ Hrun eq_refl
              ltac:(simpl; unfold maxRetries; lia))
    as (Hspec & Hthrown & Hkeys).
  simpl in Hspec.
  assert (Hne : evs <> []).
  { intros ->. simpl in Hspec. discriminate. }
  destruct (retryLoop _ _ _ _ w) as [[[e |] s] w1]; simpl in *;
    exists evs; (split; [exact Hlog |]); (split; [exact Hspec |]);
    (split; [exact Hne |]); rewrite <- Hthrown; [reflexivity |].
  rewrite Hprofiles, Hviewing, (Hkeys eq_refl).
  by destruct evs.
Qed.

Lemma getUserAnalytics_refused userIds problem
    (w : Effects.World St (gmap string (list Key)) BatchGetItemCommandOutput) :
  validate userIds = Some problem ->
  getUserAnalytics TABLE_NAME send userIds w
  = ({| success := false; message := None; data := None;
        error := Some problem |}, w).
Proof. unfold getUserAnalytics. by intros ->. Qed.

End RunFacts.

End BatchRead.

(** ** Inventory update: [src/section-2/03-solution.ts] *)

Module Inventory.
Import Effects.

(** *** Types *)

Inductive Operation : Type := add | subtract.

(** [UpdateStockRequest] of [types.ts]; the quantity is an integer, of
    those that [String] prints in decimal digits (below [10^21] in
    absolute value). *)
Record UpdateStockRequest : Type := {
  productId : string;
  quantity : Z;
  operation : Operation;
  updatedBy : string
}.

(** The attribute values of this exercise: strings and numbers. *)
Inductive AttributeValue : Type :=
| AttrS (s : string)
| AttrN (n : Z).

Record UpdateItemCommandInput : Type := {
  TableName : string;
  Key : gmap string AttributeValue;
  UpdateExpression : string;
  ConditionExpression : string;
  ExpressionAttributeValues : gmap string AttributeValue;
  ReturnValues : string
}.

Record UpdateItemCommandOutput : Type := {
  Attributes : option (gmap string AttributeValue)
}.

(** [ProductResponse]; [data] is the unmarshalled item as the store
    returned it (the source only casts it to [Product]). *)
Record ProductResponse : Type := {
  success : bool;
  data : option (gmap string AttributeValue);
  error : option string
}.

(** *** [updateInventory] *)

Definition newline : string := String (ascii_of_nat 10) EmptyString.

(** The template literal of [UpdateExpression], with its line break and
    the indentation of the source. *)
Definition updateExpression : string :=
  "SET stock = :quantity," +:+ newline
  +:+ "                        lastUpdated = :updateTime".

Definition conditionExpression : string :=
  "attribute_not_exists(stock) OR (attribute_exists(stock) AND stock >= :zero)".

(** The command [updateInventory] builds.  [now] is the reading of the
    clock, [new Date().toISOString()].  [quantityUpdate] is computed as in
    the source, which does not use it afterwards. *)
Definition updateItemCommand (TABLE_NAME : string)
    (request : UpdateStockRequest) (now : string) : UpdateItemCommandInput :=
  let key : gmap string AttributeValue :=
    {[ "PK" := AttrS ("PRODUCT#" +:+ productId request);
       "SK" := AttrS ("METADATA#" +:+ productId request) ]} in
  let quantityUpdate :=
    match operation request with
    | add => "stock + :quantity"
    | subtract => "stock - :quantity"
    end in
  let expressionAttributeValues : gmap string AttributeValue :=
    {[ ":quantity" := AttrS (pretty (quantity request));
       ":zero" := AttrS "0";
       ":updateTime" := AttrS now ]} in
  {| TableName := TABLE_NAME;
     Key := key;
     UpdateExpression := updateExpression;
     ConditionExpression := conditionExpression;
     ExpressionAttributeValues := expressionAttributeValues;
     ReturnValues := "ALL_NEW" |}.

(** [error instanceof ConditionalCheckFailedException]. *)
Definition isConditionalCheckFailed (e : Thrown) : bool :=
  match e with
  | ErrorObject name _ => String.eqb name "ConditionalCheckFailedException"
  | NotAnError => false
  end.

(** [error.message] of a caught value. *)
Definition messageOf (e : Thrown) : option string :=
  match e with
  | ErrorObject _ message => Some message
  | NotAnError => None
  end.

Section UpdateInventory.
Context {St : Type}.
Variable TABLE_NAME : string.
Variable send : St -> UpdateItemCommandInput -> St * Sent UpdateItemCommandOutput.

Abbreviation World := (Effects.World St UpdateItemCommandInput UpdateItemCommandOutput).

Definition updateInventory (request : UpdateStockRequest) (now : string)
    (w : World) : ProductResponse * World :=
  match submit send w (updateItemCommand TABLE_NAME request now) with
  | (w1, Returned response) =>
      ({| success := true; data := Attributes response; error := None |}, w1)
  | (w1, Threw e) =>
      if isConditionalCheckFailed e then
        ({| success := false; data := None;
            error := Some "Insufficient stock available" |}, w1)
      else
        ({| success := false; data := None; error := messageOf e |}, w1)
  end.

End UpdateInventory.

(** *** A reference store

    The part of DynamoDB's [UpdateItem] that the command above exercises,
    after the service's documentation: the condition is evaluated on the
    stored item; when it holds, the [SET] clauses are applied (creating the
    item if there is none) and, for [ReturnValues = ALL_NEW], the new item
    is returned; when it fails, the item is left as it is and
    [ConditionalCheckFailedException] is thrown.  Operands of different
    types do not compare; strings compare by code unit. *)

Definition Table : Type := gmap (string * string) (gmap string AttributeValue).

Definition greaterOrEqual (a b : AttributeValue) : bool :=
  match a, b with
  | AttrS x, AttrS y => String.leb y x
  | AttrN x, AttrN y => (y <=? x)%Z
  | _, _ => false
  end.

Definition keyOf (key : gmap string AttributeValue) : option (string * string) :=
  match key !! "PK", key !! "SK" with
  | Some (AttrS pk), Some (AttrS sk) => Some (pk, sk)
  | _, _ => None
  end.

Definition validationException : Sent UpdateItemCommandOutput :=
  Threw (ErrorObject "ValidationException" "Invalid request").

Definition conditionalCheckFailed : Sent UpdateItemCommandOutput :=
  Threw (ErrorObject "ConditionalCheckFailedException"
                     "The conditional request failed").

Definition updateItem (tbl : Table) (command : UpdateItemCommandInput)
  : Table * Sent UpdateItemCommandOutput :=
  let values := ExpressionAttributeValues command in
  match keyOf (Key command), values !! ":quantity", values !! ":zero",
        values !! ":updateTime" with
  | Some k, Some quantity, Some zero, Some updateTime =>
      if negb (String.eqb (UpdateExpression command) updateExpression
               && String.eqb (ConditionExpression command) conditionExpression)
      then (tbl, validationException)
      else
        let stored := tbl !! k in
        let holds :=
          match stored ≫= (.!! "stock") with
          | None => true
          | Some stock => greaterOrEqual stock zero
          end in
        if holds then
          let item :=
            <[ "lastUpdated" := updateTime ]>
              (<[ "stock" := quantity ]> (default (Key command) stored)) in
          (<[ k := item ]> tbl, Returned {| Attributes := Some item |})
        else (tbl, conditionalCheckFailed)
  | _, _, _, _ => (tbl, validationException)
  end.

(** Product 001 before any stock was recorded for it. *)
Definition product001 : gmap string AttributeValue :=
  {[ "PK" := AttrS "PRODUCT#001"; "SK" := AttrS "METADATA#001";
     "name" := AttrS "Laptop" ]}.

Definition inventory : Table :=
  {[ ("PRODUCT#001", "METADATA#001") := product001 ]}.

Definition table : string := "Products".

(** The stock the table holds for product 001. *)
Definition stockOf (tbl : Table) : option AttributeValue :=
  tbl !! ("PRODUCT#001", "METADATA#001") ≫= (.!! "stock").

(** The same request with another operation. *)
Definition withOperation (op : Operation) (request : UpdateStockRequest)
  : UpdateStockRequest :=
  {| productId := productId request; quantity := quantity request;
     operation := op; updatedBy := updatedBy request |}.

(** *** Properties *)

Section UpdateInventoryFacts.
Context {St : Type}.
Variable TABLE_NAME : string.
Variable send : St -> UpdateItemCommandInput -> St * Sent UpdateItemCommandOutput.

(** Whatever the store answers, one command is sent and the timer is not
    used; a failed conditional check comes back as the one failure
    "Insufficient stock available". *)
Lemma updateInventory_single_attempt request now
    (w : Effects.World St UpdateItemCommandInput UpdateItemCommandOutput) :
  let '(response, w1) := updateInventory TABLE_NAME send request now w in
  exists outcome,
    log w1 = log w ++ [Submitted (updateItemCommand TABLE_NAME request now) outcome]
    /\ (forall e, outcome = Threw e -> isConditionalCheckFailed e = true ->
        response = {| success := false; data := None;
                      error := Some "Insufficient stock available" |}).
Proof.
  unfold updateInventory, submit.
  destruct (send (store w) _) as [st [output | e]].
  - eexists. split; [reflexivity |]. intros e Habs. discriminate.
  - destruct (isConditionalCheckFailed e) eqn:Hcheck.
    + eexists. split; [reflexivity |]. intros e' [= <-] _. reflexivity.
    + eexists. split; [reflexivity |]. intros e' [= <-] Habs. congruence.
Qed.

End UpdateInventoryFacts.

(** C8. A subtraction larger than the stock is not rejected.  On the
    reference store, product 001 gets five units by a first call; a second
    call then subtracts ten.  The condition of the command looks at the
    stored stock only, so it holds, and the call succeeds and overwrites
    the stock with the quantity, where the claim has it fail with
    "Insufficient stock available" and leave the item unchanged. *)
Theorem oversubtraction_is_accepted :
  let w0 := mkWorld inventory [] in
  let first :=
    updateInventory table updateItem
      {| productId := "001"; quantity := 5; operation := add;
         updatedBy := "system" |} "2024-01-01T00:00:00.000Z" w0 in
  let second :=
    updateInventory table updateItem
      {| productId := "001"; quantity := 10; operation := subtract;
         updatedBy := "system" |} "2024-01-01T00:00:01.000Z" first.2 in
  success first.1 = true
  /\ stockOf (store first.2) = Some (AttrS "5")
  /\ success second.1 = true
  /\ error second.1 = None
  /\ stockOf (store second.2) = Some (AttrS "10")
  /\ length (submissions (log second.2)) = 2.
Proof. vm_compute. repeat split. Qed.

(** C9. Two requests that differ in the operation only make
    [updateInventory] build the same command, whose update expression is
    the fixed text that sets [stock] to [:quantity]; so, on any store and
    from the same state and clock reading, both calls return the same
    response and leave the same store and log. *)
Theorem operation_is_ignored {St : Type} (TABLE_NAME : string)
    (send : St -> UpdateItemCommandInput -> St * Sent UpdateItemCommandOutput)
    (request1 request2 : UpdateStockRequest) (now : string)
    (w : Effects.World St UpdateItemCommandInput UpdateItemCommandOutput) :
  productId request1 = productId request2 ->
  quantity request1 = quantity request2 ->
  updatedBy request1 = updatedBy request2 ->
  updateItemCommand TABLE_NAME request1 now
  = updateItemCommand TABLE_NAME request2 now
  /\ UpdateExpression (updateItemCommand TABLE_NAME request1 now)
     = "SET stock = :quantity," +:+ newline
       +:+ "                        lastUpdated = :updateTime"
  /\ updateInventory TABLE_NAME send request1 now w
     = updateInventory TABLE_NAME send request2 now w.
Proof.
  intros Hid Hquantity Hby.
  assert (Hcommand : updateItemCommand TABLE_NAME request1 now
                     = updateItemCommand TABLE_NAME request2 now).
  { unfold updateItemCommand. rewrite Hid, Hquantity. reflexivity. }
  split; [exact Hcommand |]. split; [reflexivity |].
  unfold updateInventory. rewrite Hcommand. reflexivity.
Qed.

Lemma operation_is_ignored_witness :
  let request :=
    {| productId := "001"; quantity := 10; operation := add;
       updatedBy := "system" |} in
  updateItemCommand table request "2024-01-01T00:00:00.000Z"
  = updateItemCommand table (withOperation subtract request)
                      "2024-01-01T00:00:00.000Z"
  /\ updateInventory table updateItem request "2024-01-01T00:00:00.000Z"
       (mkWorld inventory [])
     = updateInventory table updateItem (withOperation subtract request)
         "2024-01-01T00:00:00.000Z" (mkWorld inventory []).
Proof.
  intros request.
  destruct (operation_is_ignored table updateItem request
              (withOperation subtract request) "2024-01-01T00:00:00.000Z"
              (mkWorld inventory []) eq_refl eq_refl eq_refl)
    as (Hcommand & _ & Hcall).
  split; [exact Hcommand | exact Hcall].
Defined.

End Inventory.

(** ** Product creation: [src/section-2/04-solution.ts] *)

Module PutProduct.
Import Effects.

(** *** Types *)

(** A JavaScript number: not-a-number, an infinity, or a finite value. *)
Inductive JSNumber : Type :=
| NaN
| Infinity (negative : bool)
| Finite (q : Q).

(** A product as [putProduct] receives it at run time: each field is set
    or absent ([undefined]), as in the source's own test that deletes
    [brand]. *)
Record Product : Type := {
  PK : option string;
  SK : option string;
  productId : option string;
  name : option string;
  category : option string;
  price : option JSNumber;
  stock : option JSNumber;
  lastUpdated : option string;
  brand : option string
}.

Record ProductResponse : Type := {
  success : bool;
  data : option Product;
  error : option string
}.

Record PutItemCommandInput : Type := {
  TableName : string;
  Item : Product;
  ConditionExpression : string;
  ReturnValues : string
}.

Record PutItemCommandOutput : Type := {
  Attributes : option Product
}.

(** *** Truthiness and the number tests *)

(** [!s] is false for a non-empty string. *)
Definition truthyString (s : option string) : bool :=
  match s with
  | Some s => negb (String.eqb s "")
  | None => false
  end.

(** [!n] is false for a number other than zero and not-a-number. *)
Definition truthyNumber (n : option JSNumber) : bool :=
  match n with
  | Some NaN => false
  | Some (Infinity _) => true
  | Some (Finite q) => negb (Qeq_bool q 0)
  | None => false
  end.

(** [n <= 0]. *)
Definition notPositive (n : JSNumber) : bool :=
  match n with
  | NaN => false
  | Infinity negative => negative
  | Finite q => Qle_bool q 0
  end.

(** [n < 0]. *)
Definition negative (n : JSNumber) : bool :=
  match n with
  | NaN => false
  | Infinity negative => negative
  | Finite q => negb (Qle_bool 0 q)
  end.

Definition isFinite (n : JSNumber) : bool :=
  match n with Finite _ => true | _ => false end.

Definition isInteger (n : JSNumber) : bool :=
  match n with
  | Finite q => (Qnum q mod Zpos (Qden q) =? 0)%Z
  | _ => false
  end.

Definition isNaN (n : JSNumber) : bool :=
  match n with NaN => true | _ => false end.

(** [marshall] refuses a number that is not finite or that is outside the
    safe range ([convertToNumberAttr] of [@aws-sdk/util-dynamodb] throws
    an [Error] for it). *)
Definition MAX_SAFE_INTEGER : Z := 2 ^ 53 - 1.

Definition refused (n : JSNumber) : bool :=
  match n with
  | Finite q =>
      negb (Qle_bool q (inject_Z MAX_SAFE_INTEGER))
      || negb (Qle_bool (inject_Z (- MAX_SAFE_INTEGER)) q)
  | _ => true
  end.

(** The required fields, in the order the source lists them. *)
Inductive Field : Type :=
| field_PK | field_SK | field_productId | field_name | field_category
| field_price | field_stock | field_lastUpdated | field_brand.

Definition requiredFields : list Field :=
  [field_PK; field_SK; field_productId; field_name; field_category;
   field_price; field_stock; field_lastUpdated; field_brand].

Definition fieldName (field : Field) : string :=
  match field with
  | field_PK => "PK"
  | field_SK => "SK"
  | field_productId => "productId"
  | field_name => "name"
  | field_category => "category"
  | field_price => "price"
  | field_stock => "stock"
  | field_lastUpdated => "lastUpdated"
  | field_brand => "brand"
  end.

(** [!product[field]]. *)
Definition missing (product : Product) (field : Field) : bool :=
  negb match field with
       | field_PK => truthyString (PK product)
       | field_SK => truthyString (SK product)
       | field_productId => truthyString (productId product)
       | field_name => truthyString (name product)
       | field_category => truthyString (category product)
       | field_price => truthyNumber (price product)
       | field_stock => truthyNumber (stock product)
       | field_lastUpdated => truthyString (lastUpdated product)
       | field_brand => truthyString (brand product)
       end.

Definition approvedBrands : list string :=
  ["Apple"; "Samsung"; "Sony"; "Nike"; "Adidas"].

Definition failure (reason : string) : ProductResponse :=
  {| success := false; data := None; error := Some reason |}.

(** [error.message] of a caught value. *)
Definition messageOf (e : Thrown) : option string :=
  match e with
  | ErrorObject _ message => Some message
  | NotAnError => None
  end.

(** [error.name === "ConditionalCheckFailedException"]. *)
Definition isConditionalCheckFailed (e : Thrown) : bool :=
  match e with
  | ErrorObject name _ => String.eqb name "ConditionalCheckFailedException"
  | NotAnError => false
  end.

Definition conditionExpression : string :=
  "attribute_not_exists(PK) AND attribute_not_exists(SK)".

(** *** [putProduct] *)

Section PutProduct.
Context {St : Type}.
Variable TABLE_NAME : string.
Variable send : St -> PutItemCommandInput -> St * Sent PutItemCommandOutput.

(** The runtime's number formatting and date parsing, which the embedding
    takes as given: [n.toFixed(2)], [n.toString()] and [Date.parse(s)]. *)
Variable toFixed2 : JSNumber -> string.
Variable toString : JSNumber -> string.
Variable Date_parse : string -> JSNumber.
(** The message of the [Error] that [marshall] throws for a product with a
    number it refuses; the text is the library's. *)
Variable marshallError : Product -> string.

Abbreviation World := (Effects.World St PutItemCommandInput PutItemCommandOutput).

(** The checks after the required-field loop.  They run only when every
    field is set, so they take the values of the fields. *)
Definition validateValues (pk sk : string) (price stock : JSNumber)
    (lastUpdated brand : string) : option string :=
  if notPositive price || negb (isFinite price)
     || negb (String.eqb (toFixed2 price) (toString price)) then
    Some "Price must be positive with max 2 decimal places"
  else if negative stock || negb (isInteger stock) then
    Some "Stock must be a non-negative integer"
  else if negb (String.prefix "PRODUCT#" pk) || negb (String.prefix "METADATA#" sk) then
    Some "Invalid PK or SK format"
  else if isNaN (Date_parse lastUpdated) then
    Some "Invalid date format"
  else if negb (bool_decide (brand ∈ approvedBrands)) then
    Some "Invalid brand"
  else None.

Definition putProduct (product : Product) (w : World) : ProductResponse * World :=
  match find (missing product) requiredFields with
  | Some field => (failure ("Missing required field: " +:+ fieldName field), w)
  | None =>
      match PK product, SK product, price product, stock product,
            lastUpdated product, brand product with
      | Some pk, Some sk, Some price, Some stock, Some lastUpdated, Some brand =>
          match validateValues pk sk price stock lastUpdated brand with
          | Some problem => (failure problem, w)
          | None =>
              if refused price || refused stock then
                (* [marshall(product)] throws an [Error], whose name is not
                   that of a failed condition *)
                (failure (marshallError product), w)
              else
                let input :=
                  {| TableName := TABLE_NAME;
                     Item := product;
                     ConditionExpression := conditionExpression;
                     ReturnValues := "ALL_OLD" |} in
                match submit send w input with
                | (w1, Returned _) =>
                    ({| success := true; data := Some product; error := None |},
                     w1)
                | (w1, Threw e) =>
                    if isConditionalCheckFailed e then
                      (failure "Product already exists", w1)
                    else
                      ({| success := false; data := None; error := messageOf e |},
                       w1)
                end
          end
      | _, _, _, _, _, _ =>
          (* no run gets here: a field that is not set is missing *)
          (failure "Missing required field", w)
      end
  end.

End PutProduct.

(** A product with a zero stock and an empty partition key, and a product
    that is complete but for its zero stock. *)
Definition outOfStock : Product :=
  {| PK := Some "PRODUCT#103"; SK := Some "METADATA#103";
     productId := Some "103"; name := Some "Headphones";
     category := Some "Electronics"; price := Some (Finite (4999 # 100));
     stock := Some (Finite 0); lastUpdated := Some "2024-01-01T00:00:00.000Z";
     brand := Some "Sony" |}.

Definition outOfStockNoKey : Product :=
  {| PK := Some ""; SK := Some "METADATA#103";
     productId := Some "103"; name := Some "Headphones";
     category := Some "Electronics"; price := Some (Finite (4999 # 100));
     stock := Some (Finite 0); lastUpdated := Some "2024-01-01T00:00:00.000Z";
     brand := Some "Sony" |}.

(** A store that accepts every product, and a runtime whose formatting
    and parsing are never consulted by the runs below. *)
Definition accepting (st : unit) (_ : PutItemCommandInput)
  : unit * Sent PutItemCommandOutput :=
  (st, Returned {| Attributes := None |}).

Definition unformatted (_ : JSNumber) : string := "".
Definition unparsed (_ : string) : JSNumber := NaN.
Definition unsafeNumber (_ : Product) : string :=
  "Number is outside the safe range. Use BigInt.".

Definition table : string := "ProductsPutDelete".

(** A runtime in which every number prints as ["n"] and every date
    parses. *)
Definition printed (_ : JSNumber) : string := "n".
Definition parsed (_ : string) : JSNumber := Finite 0.

(** The valid product of the source's tests. *)
Definition smartphone : Product :=
  {| PK := Some "PRODUCT#101"; SK := Some "METADATA#101";
     productId := Some "101"; name := Some "Smartphone X";
     category := Some "Electronics"; price := Some (Finite (59999 # 100));
     stock := Some (Finite 50); lastUpdated := Some "2024-01-01T00:00:00.000Z";
     brand := Some "Samsung" |}.

(** *** Properties *)

Section PutProductFacts.
Context {St : Type}.
Variable TABLE_NAME : string.
Variable send : St -> PutItemCommandInput -> St * Sent PutItemCommandOutput.
Variable toFixed2 : JSNumber -> string.
Variable toString : JSNumber -> string.
Variable Date_parse : string -> JSNumber.
Variable marshallError : Product -> string.

Abbreviation put :=
  (putProduct TABLE_NAME send toFixed2 toString Date_parse marshallError).

(** Past the required-field loop every field the later checks read is set:
    the last branch of [putProduct] is never taken. *)
Lemma required_fields_set (product : Product) :
  find (missing product) requiredFields = None ->
  is_Some (PK product) /\ is_Some (SK product) /\ is_Some (price product)
  /\ is_Some (stock product) /\ is_Some (lastUpdated product)
  /\ is_Some (brand product).
Proof.
  unfold requiredFields, missing. simpl.
  destruct (PK product), (SK product), (productId product), (name product),
    (category product), (price product), (stock product),
    (lastUpdated product), (brand product); simpl;
    repeat match goal with
           | |- context [if ?b then _ else _] => destruct b
           end;
    intros; try discriminate; repeat split; eauto.
Qed.

Lemma zero_is_missing (product : Product) (q : Q) :
  stock product = Some (Finite q) -> (q == 0)%Q ->
  missing product field_stock = true.
Proof.
  intros Hstock Hzero. unfold missing. rewrite Hstock. simpl.
  apply Qeq_bool_iff in Hzero. rewrite Hzero. reflexivity.
Qed.

End PutProductFacts.

(** The required fields that the loop reaches before it is done with
    [stock], in the order it checks them. *)
Definition upToStock : list Field :=
  [field_PK; field_SK; field_productId; field_name; field_category;
   field_price; field_stock].

(** C10. A product whose stock is zero is turned away by the
    required-field loop, before any check of its values and before any
    call of the store: the response is a failure "Missing required field"
    for the first required field that is falsy (a field at or before
    [stock] in the source's list, every field before it being truthy), and
    the world is as it was.  That field is [stock] when the six fields
    listed before it (PK, SK, productId, name, category, price) are all
    truthy. *)
Theorem zero_stock_is_reported_missing {St : Type} (TABLE_NAME : string)
    (send : St -> PutItemCommandInput -> St * Sent PutItemCommandOutput)
    (toFixed2 toString : JSNumber -> string) (Date_parse : string -> JSNumber)
    (marshallError : Product -> string)
    (product : Product) (q : Q)
    (w : Effects.World St PutItemCommandInput PutItemCommandOutput) :
  stock product = Some (Finite q) -> (q == 0)%Q ->
  (exists earlier field later,
      upToStock = earlier ++ field :: later
      /\ Forall (fun f => missing product f = false) earlier
      /\ missing product field = true
      /\ putProduct TABLE_NAME send toFixed2 toString Date_parse marshallError
           product w
         = (failure ("Missing required field: " +:+ fieldName field), w))
  /\ (truthyString (PK product) = true ->
      truthyString (SK product) = true ->
      truthyString (productId product) = true ->
      truthyString (name product) = true ->
      truthyString (category product) = true ->
      truthyNumber (price product) = true ->
      putProduct TABLE_NAME send toFixed2 toString Date_parse marshallError
        product w
      = ({| success := false; data := None;
            error := Some "Missing required field: stock" |}, w)).
Proof.
  intros Hstock Hzero.
  pose proof (zero_is_missing product q Hstock Hzero) as Hmissing.
  split.
  - unfold putProduct, requiredFields, upToStock. simpl find.
    destruct (missing product field_PK) eqn:H1.
    { exists [], field_PK, (tail upToStock). auto. }
    destruct (missing product field_SK) eqn:H2.
    { exists [field_PK], field_SK, (drop 2 upToStock). repeat split; auto. }
    destruct (missing product field_productId) eqn:H3.
    { exists (take 2 upToStock), field_productId, (drop 3 upToStock).
      repeat split; auto. simpl. auto. }
    destruct (missing product field_name) eqn:H4.
    { exists (take 3 upToStock), field_name, (drop 4 upToStock).
      repeat split; auto. simpl. auto. }
    destruct (missing product field_category) eqn:H5.
    { exists (take 4 upToStock), field_category, (drop 5 upToStock).
      repeat split; auto. simpl. auto 6. }
    destruct (missing product field_price) eqn:H6.
    { exists (take 5 upToStock), field_price, (drop 6 upToStock).
      repeat split; auto. simpl. auto 7. }
    rewrite Hmissing.
    exists (take 6 upToStock), field_stock, []. repeat split; auto.
    simpl. auto 8.
  - intros HPK HSK Hid Hname Hcategory Hprice.
    unfold putProduct, requiredFields. simpl find.
    unfold missing at 1 2 3 4 5 6.
    rewrite HPK, HSK, Hid, Hname, Hcategory, Hprice. simpl.
    rewrite Hmissing. reflexivity.
Qed.

Lemma zero_stock_is_reported_missing_witness :
  putProduct table accepting unformatted unformatted unparsed unsafeNumber
             outOfStock (mkWorld tt [])
  = ({| success := false; data := None;
        error := Some "Missing required field: stock" |}, mkWorld tt []).
Proof.
  apply (zero_stock_is_reported_missing table accepting unformatted unformatted
           unparsed unsafeNumber outOfStock 0 (mkWorld tt []) eq_refl
           (Qeq_refl 0));
    reflexivity.
Defined.

(** C10, as the claim has it, fails for a product whose zero stock is not
    its first falsy field: with an empty [PK] the field reported missing is
    [PK], not [stock]. *)
Lemma zero_stock_other_field_reported :
  stock outOfStockNoKey = Some (Finite 0)
  /\ error (putProduct table accepting unformatted unformatted unparsed
              unsafeNumber outOfStockNoKey (mkWorld tt [])).1
     = Some "Missing required field: PK"
  /\ error (putProduct table accepting unformatted unformatted unparsed
              unsafeNumber outOfStockNoKey (mkWorld tt [])).1
     <> Some "Missing required field: stock".
Proof. split; [reflexivity |]. split; [reflexivity | discriminate]. Qed.

End PutProduct.

(** ** The batch executor: what the two retry loops have in common *)

Module Executor.
Import Effects Chunker.

(** *** Worked runs *)

Definition ann : BatchRead.Item := BatchRead.profile "1001" "Ann" "premium".
Definition bob : BatchRead.Item := BatchRead.profile "1002" "Bob" "basic".

(** The keys of user 1002. *)
Definition keysOf1002 : list BatchRead.Key :=
  [ {| BatchRead.keyPK := "USER#1002"; BatchRead.keySK := "PROFILE#1002" |};
    {| BatchRead.keyPK := "USER#1002"; BatchRead.keySK := "VIEWING#" |} ].

(** All the keys of the users 1001 and 1002, as [getUserAnalytics] lists
    them. *)
Definition allKeys : list BatchRead.Key :=
  [ {| BatchRead.keyPK := "USER#1001"; BatchRead.keySK := "PROFILE#1001" |};
    {| BatchRead.keyPK := "USER#1002"; BatchRead.keySK := "PROFILE#1002" |};
    {| BatchRead.keyPK := "USER#1001"; BatchRead.keySK := "VIEWING#" |};
    {| BatchRead.keyPK := "USER#1002"; BatchRead.keySK := "VIEWING#" |} ].

(** A read of two users: the first call returns the profile of 1001 and
    leaves the keys of 1002 unprocessed; the second call returns whatever
    it is asked for. *)
Definition partialRead :=
  BatchRead.getUserAnalytics BatchRead.table (scripted (BatchRead.fully []))
    ["1001"; "1002"]
    (BatchRead.replaying
       [BatchRead.partly [ann] keysOf1002; BatchRead.fully [ann; bob]]).

(** A read whose keys the store never processes. *)
Definition starvedRead :=
  BatchRead.getUserAnalytics BatchRead.table (scripted (BatchRead.fully []))
    ["1002"]
    (BatchRead.replaying
       [BatchRead.partly [] keysOf1002; BatchRead.partly [] keysOf1002;
        BatchRead.partly [] keysOf1002; BatchRead.partly [] keysOf1002]).

(** A write of the source's test data whose only call throws. *)
Definition throttledWrite :=
  BatchWrite.batchAddContent BatchWrite.table (scripted BatchWrite.accepted)
    BatchWrite.useBigInt BatchWrite.newContent BatchWrite.seriesEpisodes BatchWrite.contentStats
    (BatchWrite.replaying [BatchWrite.throttled]).

Definition stuck : BatchWrite.WriteRequest :=
  BatchWrite.statsRequest
    {| BatchWrite.id := "MOVIE#106"; BatchWrite.title := "Digital Frontier";
       BatchWrite.type := BatchWrite.MOVIE; BatchWrite.genre := [];
       BatchWrite.releaseYear := 2024; BatchWrite.rating := "PG-13";
       BatchWrite.languages :=
         {| BatchWrite.audio := []; BatchWrite.subtitles := [] |};
       BatchWrite.duration := 7200; BatchWrite.director := None;
       BatchWrite.creator := None; BatchWrite.cast := [] |}
    {| BatchWrite.contentId := "MOVIE#106"; BatchWrite.initialTrending := 85;
       BatchWrite.releasePopularity := 90;
       BatchWrite.targetDemographic := ["18-34"; "Tech-Savvy"];
       BatchWrite.languageAvailability := 3 |}.

(** A write of the source's test data in which the store hands one
    request back at every call. *)
Definition starvedWrite :=
  BatchWrite.batchAddContent BatchWrite.table (scripted BatchWrite.accepted)
    BatchWrite.useBigInt BatchWrite.newContent BatchWrite.seriesEpisodes BatchWrite.contentStats
    (BatchWrite.replaying
       [BatchWrite.handedBack [stuck]; BatchWrite.handedBack [stuck];
        BatchWrite.handedBack [stuck]; BatchWrite.handedBack [stuck]]).

(** A write in which the store hands one request back once. *)
Definition delayedWrite :=
  BatchWrite.batchAddContent BatchWrite.table (scripted BatchWrite.accepted)
    BatchWrite.useBigInt BatchWrite.newContent BatchWrite.seriesEpisodes BatchWrite.contentStats
    (BatchWrite.replaying [BatchWrite.handedBack [stuck]]).

(** *** Resubmission *)

(** In the write executor the calls of a chunk are chained: each carries
    what the call before it handed back, as it was handed back. *)
Lemma write_retry_resubmits_verbatim {St : Type} (TABLE_NAME : string)
    (send : St -> gmap string (list BatchWrite.WriteRequest)
            -> St * Sent BatchWrite.BatchWriteItemCommandOutput)
    chunk counts unprocessed
    (w : World St (gmap string (list BatchWrite.WriteRequest))
               BatchWrite.BatchWriteItemCommandOutput) :
  exists evs,
    log (BatchWrite.retryLoop TABLE_NAME send
           (BatchWrite.mkLoop 0 chunk counts unprocessed) w).2 = log w ++ evs
    /\ BatchWrite.chained TABLE_NAME chunk (submissions evs).
Proof.
  destruct (BatchWrite.retryLoop_attempts TABLE_NAME send
              (BatchWrite.mkLoop 0 chunk counts unprocessed) w)
    as (evs & Hlog & Hrun).
  exists evs. split; [exact Hlog |].
  exact (BatchWrite.attempts_chained _ _ _ _ Hrun).
Qed.

(** In the read executor every call carries all the keys. *)
Lemma read_retry_resubmits_everything {St : Type} (TABLE_NAME : string)
    (send : St -> gmap string (list BatchRead.Key)
            -> St * Sent BatchRead.BatchGetItemCommandOutput)
    userIds s
    (w : World St (gmap string (list BatchRead.Key))
               BatchRead.BatchGetItemCommandOutput) :
  exists evs,
    log (BatchRead.retryLoop TABLE_NAME send userIds s w).2 = log w ++ evs
    /\ Forall (fun call => call.1 = BatchRead.requestItems TABLE_NAME userIds)
              (submissions evs).
Proof.
  destruct (BatchRead.read_retryLoop_attempts TABLE_NAME send userIds s w)
    as (evs & Hlog & Hrun).
  exists evs. split; [exact Hlog |].
  exact (BatchRead.read_attempts_request _ _ _ _ _ Hrun).
Qed.

(** C1. The read executor does not resubmit what was left unprocessed.
    For the users 1001 and 1002, the first call returns the profile of
    1001 and hands the two keys of 1002 back; the second call carries all
    four keys again, the completed one included, and the profile of 1001
    ends up twice in the data. *)
Theorem read_retry_resubmits_all_keys :
  submissions (log partialRead.2)
  = [ ({[ BatchRead.table := allKeys ]}, BatchRead.partly [ann] keysOf1002);
      ({[ BatchRead.table := allKeys ]}, BatchRead.fully [ann; bob]) ]
  /\ allKeys <> keysOf1002
  /\ BatchRead.success partialRead.1 = true
  /\ map BatchRead.userId <$> BatchRead.data partialRead.1
     = Some ["1001"; "1001"; "1002"].
Proof.
  split; [vm_compute; reflexivity |].
  split; [discriminate |]. split; vm_compute; reflexivity.
Qed.

(** *** Completeness *)

(** When the only call of a write throws, each of the six requests is
    listed twice among the unprocessed items: the [catch] block appends
    what is pending, and so does the statement after the loop. *)
Lemma thrown_call_lists_requests_twice :
  let requests :=
    BatchWrite.formatBatchWriteItems BatchWrite.newContent
      BatchWrite.seriesEpisodes BatchWrite.contentStats in
  length requests = 6
  /\ length (submissions (log throttledWrite.2)) = 1
  /\ BatchWrite.unprocessedItems throttledWrite.1
     = Some (map BatchWrite.report (requests ++ requests)).
Proof. vm_compute. repeat split. Qed.

(** C2, as the claim has it, fails on the read executor: the keys of user
    1002 are requested, the store never processes them, and the result is
    a success with no data, no error and no list of what is missing; the
    keys are in none of the sets. *)
Lemma read_keys_left_unlisted :
  map (fun call => call.1 !! BatchRead.table) (submissions (log starvedRead.2))
  = [Some keysOf1002; Some keysOf1002; Some keysOf1002]
  /\ BatchRead.success starvedRead.1 = true
  /\ BatchRead.data starvedRead.1 = Some []
  /\ BatchRead.error starvedRead.1 = None.
Proof. vm_compute. repeat split. Qed.

(** C2. In the write executor, for an input that passes validation and
    that [marshall] accepts, when every call of the run is honest (it
    returns, and hands back only requests of that call), the requests
    split into those completed and those listed among the unprocessed
    items: each request is in one of the two, once.  In the read executor
    the data of a successful result is made of the items the calls
    returned, call after call, and of nothing else: a key whose item never
    came back is in no part of the result, and the message alone tells
    whether the last call left keys unprocessed. *)
Theorem requests_settle_once {St St' : Type} (TABLE_NAME TABLE_NAME' : string)
    (send : St -> gmap string (list BatchWrite.WriteRequest)
            -> St * Sent BatchWrite.BatchWriteItemCommandOutput)
    (marshallError : Z -> string)
    (send' : St' -> gmap string (list BatchRead.Key)
             -> St' * Sent BatchRead.BatchGetItemCommandOutput) :
  (forall content episodes stats (st : St),
      let run := BatchWrite.batchAddContent TABLE_NAME send marshallError
                   content episodes stats (mkWorld st []) in
      BatchWrite.validateInputs content episodes stats = None ->
      BatchWrite.thrownNumber
        (BatchWrite.formatBatchWriteItems content episodes stats) = None ->
      Forall (BatchWrite.honest TABLE_NAME) (submissions (log run.2)) ->
      exists completed unprocessed,
        BatchWrite.completes TABLE_NAME (submissions (log run.2)) completed
        /\ BatchWrite.formatBatchWriteItems content episodes stats
           ≡ₚ completed ++ unprocessed
        /\ BatchWrite.unprocessedItems run.1
           = Some (map BatchWrite.report unprocessed))
  /\ (forall userIds w,
         let run := BatchRead.getUserAnalytics TABLE_NAME' send' userIds w in
         exists evs,
           log run.2 = log w ++ evs
           /\ (BatchRead.success run.1 = true ->
               BatchRead.data run.1
               = Some (BatchRead.format
                         (filter (fun i => BatchRead.isProfile i = true)
                                 (BatchRead.receivedItems TABLE_NAME' evs))
                         (filter (fun i => BatchRead.isViewing i = true)
                                 (BatchRead.receivedItems TABLE_NAME' evs)))
               /\ BatchRead.message run.1
                  = Some (if BatchRead.keysLeft evs
                          then "Some items could not be retrieved after maximum retries"
                          else "All items retrieved successfully")
               /\ BatchRead.error run.1 = None)).
Proof.
  split.
  - intros content episodes stats st run Hvalid Hsafe. subst run.
    unfold BatchWrite.batchAddContent. rewrite Hvalid, Hsafe.
    destruct (BatchWrite.processChunks_conserve TABLE_NAME send
                (chunkArray
                   (BatchWrite.formatBatchWriteItems content episodes stats) 25)
                BatchWrite.noCounts [] (mkWorld st [])) as (evs & Hlog & Hsplit).
    destruct (BatchWrite.processChunks _ _ _ _ _ _) as [[counts unprocessed] w1].
    simpl in *. subst evs. intros Hhonest.
    destruct (Hsplit Hhonest) as (completed & more & Hcompleted & -> & Hperm).
    rewrite chunkArray_concat in Hperm by lia.
    exists completed, more. split; [exact Hcompleted |].
    split; [exact Hperm | reflexivity].
  - intros userIds w run. subst run.
    destruct (BatchRead.validate userIds) as [problem |] eqn:Hvalid.
    { exists []. rewrite (BatchRead.getUserAnalytics_refused _ _ _ _ _ Hvalid).
      simpl. split; [by rewrite app_nil_r | discriminate]. }
    destruct (BatchRead.getUserAnalytics_runs TABLE_NAME' send' userIds w Hvalid)
      as (evs & Hlog & _ & _ & Hresponse).
    exists evs. split; [exact Hlog |]. rewrite Hresponse.
    destruct (BatchRead.thrownBy evs); [discriminate | by intros _].
Qed.

Lemma requests_settle_once_witness :
  exists completed unprocessed,
    BatchWrite.completes BatchWrite.table (submissions (log delayedWrite.2))
      completed
    /\ BatchWrite.formatBatchWriteItems BatchWrite.newContent
         BatchWrite.seriesEpisodes BatchWrite.contentStats
       ≡ₚ completed ++ unprocessed
    /\ BatchWrite.unprocessedItems delayedWrite.1
       = Some (map BatchWrite.report unprocessed).
Proof.
  apply (proj1 (requests_settle_once BatchWrite.table BatchRead.table
                  (scripted BatchWrite.accepted) BatchWrite.useBigInt
                  (scripted (BatchRead.fully [])))
           BatchWrite.newContent BatchWrite.seriesEpisodes
           BatchWrite.contentStats [BatchWrite.handedBack [stuck]]).
  - reflexivity.
  - reflexivity.
  - vm_compute. repeat constructor.
    + eexists. split; [reflexivity |]. repeat constructor.
    + eexists. split; [reflexivity |]. repeat constructor.
Defined.

(** *** The success flag *)

(** C5, as the claim has it, fails on the read executor: when the keys are
    never processed the retries run out and the result is still a
    success; only its message tells. *)
Lemma read_success_with_keys_left :
  BatchRead.success starvedRead.1 = true
  /\ BatchRead.message starvedRead.1
     = Some "Some items could not be retrieved after maximum retries"
  /\ map (fun call => call.2) (submissions (log starvedRead.2))
     = [BatchRead.partly [] keysOf1002; BatchRead.partly [] keysOf1002;
        BatchRead.partly [] keysOf1002].
Proof. vm_compute. repeat split. Qed.

(** A call that returned. *)
Definition returned {I O : Type} (call : I * Sent O) : Prop :=
  exists response, call.2 = Returned response.

(** C5. In the write executor an input that fails validation, or that
    [marshall] refuses, gives a failure without any call.  For any other
    input the log is the runs of the chunks, one after the other, and
    [success] is true exactly when every chunk's run settled: its last
    call returned and handed nothing back; then no call of the run threw.
    In the read executor an input that fails validation gives a failure
    without any call; for any other input [success] is true exactly when
    no call threw, whether or not keys were left unprocessed, which the
    message of a success alone tells. *)
Theorem success_flag {St St' : Type} (TABLE_NAME TABLE_NAME' : string)
    (send : St -> gmap string (list BatchWrite.WriteRequest)
            -> St * Sent BatchWrite.BatchWriteItemCommandOutput)
    (marshallError : Z -> string)
    (send' : St' -> gmap string (list BatchRead.Key)
             -> St' * Sent BatchRead.BatchGetItemCommandOutput) :
  (forall content episodes stats w,
      let run := BatchWrite.batchAddContent TABLE_NAME send marshallError
                   content episodes stats w in
      let requests := BatchWrite.formatBatchWriteItems content episodes stats in
      match BatchWrite.validateInputs content episodes stats,
            BatchWrite.thrownNumber requests with
      | None, None =>
          exists traces,
            log run.2 = log w ++ concat traces
            /\ Forall2 (fun chunk evs => BatchWrite.chunkRun TABLE_NAME chunk 0 evs)
                       (chunkArray requests 25) traces
            /\ (BatchWrite.success run.1 = true
                <-> Forall (BatchWrite.settled TABLE_NAME) traces)
            /\ (BatchWrite.success run.1 = true ->
                Forall returned (submissions (concat traces)))
      | _, _ => BatchWrite.success run.1 = false /\ run.2 = w
      end)
  /\ (forall userIds w,
         let run := BatchRead.getUserAnalytics TABLE_NAME' send' userIds w in
         match BatchRead.validate userIds with
         | None =>
             exists evs,
               log run.2 = log w ++ evs
               /\ BatchRead.readRun (BatchRead.requestItems TABLE_NAME' userIds)
                                    0 evs
               /\ (BatchRead.success run.1 = true
                   <-> Forall returned (submissions evs))
               /\ (BatchRead.success run.1 = true ->
                   BatchRead.message run.1
                   = Some (if BatchRead.keysLeft evs
                           then "Some items could not be retrieved after maximum retries"
                           else "All items retrieved successfully"))
         | Some _ => BatchRead.success run.1 = false /\ run.2 = w
         end).
Proof.
  split.
  - intros content episodes stats w run requests. subst run requests.
    destruct (BatchWrite.batchAddContent_refused TABLE_NAME send marshallError
                content episodes stats w) as [Hinvalid Hunsafe].
    destruct (BatchWrite.validateInputs content episodes stats)
      as [problem |] eqn:Hvalid.
    { rewrite (Hinvalid problem eq_refl).
      by destruct (BatchWrite.thrownNumber _). }
    destruct (BatchWrite.thrownNumber _) as [n |] eqn:Hsafe.
    { by rewrite (Hunsafe n eq_refl eq_refl). }
    destruct (BatchWrite.batchAddContent_runs TABLE_NAME send marshallError
                content episodes stats w Hvalid Hsafe)
      as (traces & Hlog & Hruns & Hresponse).
    pose proof (BatchWrite.runs_settled TABLE_NAME _ _ Hruns) as Hsettled.
    exists traces. split; [exact Hlog |]. split.
    { eapply Forall2_impl; [exact Hruns |]. by intros chunk evs [? _]. }
    rewrite Hresponse. simpl.
    rewrite Nat.eqb_eq, length_zero_iff_nil, Hsettled. split; [reflexivity |].
    apply (BatchWrite.runs_returned TABLE_NAME _ _ Hruns).
  - intros userIds w run. subst run.
    destruct (BatchRead.validate userIds) as [problem |] eqn:Hvalid.
    { by rewrite (BatchRead.getUserAnalytics_refused _ _ _ _ _ Hvalid). }
    destruct (BatchRead.getUserAnalytics_runs TABLE_NAME' send' userIds w Hvalid)
      as (evs & Hlog & Hrun & _ & Hresponse).
    exists evs. split; [exact Hlog |]. split; [exact Hrun |].
    rewrite Hresponse. unfold returned.
    rewrite <- (BatchRead.readRun_returned _ _ _ Hrun).
    destruct (BatchRead.thrownBy evs); simpl; split; try done.
Qed.

(** *** Backoff *)

(** The delays of three worked runs: a write and a read whose store never
    completes them, and a write whose store hands one request back once. *)
Lemma worked_delays :
  delays (log starvedWrite.2) = [200; 400; 800]%Z
  /\ delays (log starvedRead.2) = [200; 400; 800]%Z
  /\ delays (log delayedWrite.2) = [200]%Z.
Proof. vm_compute. repeat split. Qed.

(** C6. The executors sleep as the specification has it, under the policy
    of a base delay of 200 ms and a longest delay of 800 ms.  In the write
    executor the log of a run is the runs of its chunks, one after the
    other, and in a chunk's run a sleep follows each call that handed
    something back, and no other call; the sleep after attempt [attempt],
    attempts counted from 0, lasts [baseDelay * 2^attempt] capped at
    [maxDelay].  So the delays of a chunk, one before each retry (the
    calls of a chunk are at most one more than its sleeps) and one after a
    third attempt that left something, are the first of 200, 400 and
    800 ms: they never decrease and never exceed [maxDelay].  The
    read executor does the same in its one loop, with a sleep after each
    call that left keys unprocessed.  An input that is refused causes no
    call and no sleep. *)
Theorem backoff_schedule {St St' : Type} (TABLE_NAME TABLE_NAME' : string)
    (send : St -> gmap string (list BatchWrite.WriteRequest)
            -> St * Sent BatchWrite.BatchWriteItemCommandOutput)
    (marshallError : Z -> string)
    (send' : St' -> gmap string (list BatchRead.Key)
             -> St' * Sent BatchRead.BatchGetItemCommandOutput) :
  (forall content episodes stats w,
      let run := BatchWrite.batchAddContent TABLE_NAME send marshallError
                   content episodes stats w in
      let requests := BatchWrite.formatBatchWriteItems content episodes stats in
      match BatchWrite.validateInputs content episodes stats,
            BatchWrite.thrownNumber requests with
      | None, None =>
          exists traces,
            log run.2 = log w ++ concat traces
            /\ Forall2 (fun chunk evs => BatchWrite.chunkRun TABLE_NAME chunk 0 evs)
                       (chunkArray requests 25) traces
            /\ Forall (fun evs =>
                         Policy.scheduled (delays evs)
                         /\ length (submissions evs) <= S (length (delays evs)))
                      traces
      | _, _ => run.2 = w
      end)
  /\ (forall userIds w,
         let run := BatchRead.getUserAnalytics TABLE_NAME' send' userIds w in
         match BatchRead.validate userIds with
         | None =>
             exists evs,
               log run.2 = log w ++ evs
               /\ BatchRead.readRun (BatchRead.requestItems TABLE_NAME' userIds)
                                    0 evs
               /\ Policy.scheduled (delays evs)
               /\ length (submissions evs) <= S (length (delays evs))
         | Some _ => run.2 = w
         end).
Proof.
  split.
  - intros content episodes stats w run requests. subst run requests.
    destruct (BatchWrite.batchAddContent_refused TABLE_NAME send marshallError
                content episodes stats w) as [Hinvalid Hunsafe].
    destruct (BatchWrite.validateInputs content episodes stats)
      as [problem |] eqn:Hvalid.
    { rewrite (Hinvalid problem eq_refl).
      by destruct (BatchWrite.thrownNumber _). }
    destruct (BatchWrite.thrownNumber _) as [n |] eqn:Hsafe.
    { by rewrite (Hunsafe n eq_refl eq_refl). }
    destruct (BatchWrite.batchAddContent_runs TABLE_NAME send marshallError
                content episodes stats w Hvalid Hsafe)
      as (traces & Hlog & Hruns & _).
    exists traces. split; [exact Hlog |]. split.
    { eapply Forall2_impl; [exact Hruns |]. by intros chunk evs [? _]. }
    clear Hlog. induction Hruns as [| chunk evs chunks traces [Hrun _] _ IH];
      constructor; [| exact IH].
    split; [| exact (BatchWrite.chunkRun_retries _ _ _ _ Hrun)].
    apply Policy.delays_scheduled.
    + by apply (BatchWrite.chunkRun_delays _ _ _ _ Hrun).
    + apply (BatchWrite.chunkRun_sleeps _ _ _ _ Hrun).
      unfold Policy.maxAttempts. lia.
  - intros userIds w run. subst run.
    destruct (BatchRead.validate userIds) as [problem |] eqn:Hvalid.
    { by rewrite (BatchRead.getUserAnalytics_refused _ _ _ _ _ Hvalid). }
    destruct (BatchRead.getUserAnalytics_runs TABLE_NAME' send' userIds w Hvalid)
      as (evs & Hlog & Hrun & _ & _).
    exists evs. split; [exact Hlog |]. split; [exact Hrun |].
    split; [| exact (BatchRead.readRun_retries _ _ _ Hrun)].
    apply Policy.delays_scheduled.
    + by apply (BatchRead.readRun_delays _ _ _ Hrun).
    + by apply (BatchRead.readRun_sleeps _ _ _ Hrun).
Qed.

(** *** Termination and what is left *)

(** C7, as the claim has it, fails on the reason: a request still pending
    after the third attempt is reported with the reason "Failed after
    maximum retries". *)
Lemma exhausted_reason_text :
  length (submissions (log starvedWrite.2)) = 3
  /\ BatchWrite.success starvedWrite.1 = false
  /\ BatchWrite.unprocessedItems starvedWrite.1
     = Some [ {| BatchWrite.itemId := "MOVIE#106";
                 BatchWrite.itemType := BatchWrite.stats_item;
                 BatchWrite.reason := "Failed after maximum retries" |} ]
  /\ map BatchWrite.reason <$> BatchWrite.unprocessedItems starvedWrite.1
     <> Some ["max attempts exceeded"].
Proof.
  split; [vm_compute; reflexivity |]. split; [vm_compute; reflexivity |].
  split; [vm_compute; reflexivity |]. vm_compute. discriminate.
Qed.

Lemma reports_reason (requests : list BatchWrite.WriteRequest) :
  Forall (fun entry => BatchWrite.reason entry = "Failed after maximum retries")
         (map BatchWrite.report requests).
Proof. apply Forall_forall. intros entry [request [-> _]]%list_elem_of_fmap. reflexivity. Qed.

(** C7. Whatever the store does, every chunk's retry loop ends after at
    least one and at most three calls: settled (the last call returned and
    handed nothing back), or on a call that threw, or with the third call
    handing something back.  The write executor then returns a response
    (it raises nothing) whose list of unprocessed items has the requests
    that were pending when a chunk's run ended (what its last call handed
    back, or carried if it threw) and no others, each with the reason
    "Failed after maximum retries".  An input that fails validation, or that [marshall] refuses,
    gives a failure with the reason and no call.  The read executor makes
    at least one and at most three calls too; when none throws its
    response is a success whose message tells whether the last call left
    keys unprocessed, which is so only after three calls; when one throws
    its response is a failure with the message of what was thrown. *)
Theorem retry_loop_is_bounded {St St' : Type} (TABLE_NAME TABLE_NAME' : string)
    (send : St -> gmap string (list BatchWrite.WriteRequest)
            -> St * Sent BatchWrite.BatchWriteItemCommandOutput)
    (marshallError : Z -> string)
    (send' : St' -> gmap string (list BatchRead.Key)
             -> St' * Sent BatchRead.BatchGetItemCommandOutput) :
  (forall content episodes stats w,
      let run := BatchWrite.batchAddContent TABLE_NAME send marshallError
                   content episodes stats w in
      let requests := BatchWrite.formatBatchWriteItems content episodes stats in
      match BatchWrite.validateInputs content episodes stats,
            BatchWrite.thrownNumber requests with
      | None, None =>
          exists traces,
            log run.2 = log w ++ concat traces
            /\ Forall2 (fun chunk evs => BatchWrite.chunkRun TABLE_NAME chunk 0 evs)
                       (chunkArray requests 25) traces
            /\ Forall
                 (fun evs =>
                    1 <= length (submissions evs) <= 3
                    /\ (BatchWrite.settled TABLE_NAME evs
                        \/ (exists input e,
                               BatchWrite.lastCall evs = Some (input, Threw e))
                        \/ (length (submissions evs) = 3
                            /\ exists input response,
                                BatchWrite.lastCall evs
                                = Some (input, Returned response)
                                /\ BatchWrite.handedBackFor TABLE_NAME
                                     (Returned response) <> [])))
                 traces
            /\ exists entries,
                BatchWrite.unprocessedItems run.1 = Some entries
                /\ Forall (fun entry => BatchWrite.reason entry
                                        = "Failed after maximum retries") entries
                /\ (forall entry,
                       entry ∈ entries
                       <-> exists evs request,
                             evs ∈ traces
                             /\ request ∈ BatchWrite.pendingAtEnd TABLE_NAME evs
                             /\ entry = BatchWrite.report request)
                /\ BatchWrite.error run.1 = None
      | Some problem, _ => run = (BatchWrite.refusal problem, w)
      | None, Some n => run = (BatchWrite.refusal (marshallError n), w)
      end)
  /\ (forall userIds w,
         let run := BatchRead.getUserAnalytics TABLE_NAME' send' userIds w in
         match BatchRead.validate userIds with
         | None =>
             exists evs,
               log run.2 = log w ++ evs
               /\ BatchRead.readRun (BatchRead.requestItems TABLE_NAME' userIds)
                                    0 evs
               /\ 1 <= length (submissions evs) <= 3
               /\ match BatchRead.thrownBy evs with
                  | None =>
                      BatchRead.success run.1 = true
                      /\ BatchRead.message run.1
                         = Some (if BatchRead.keysLeft evs
                                 then "Some items could not be retrieved after maximum retries"
                                 else "All items retrieved successfully")
                      /\ (BatchRead.keysLeft evs = true ->
                          length (submissions evs) = 3)
                  | Some e =>
                      BatchRead.success run.1 = false
                      /\ BatchRead.error run.1 = Some (messageOrUnknown e)
                  end
         | Some problem =>
             run = ({| BatchRead.success := false; BatchRead.message := None;
                       BatchRead.data := None;
                       BatchRead.error := Some problem |}, w)
         end).
Proof.
  split.
  - intros content episodes stats w run requests. subst run requests.
    destruct (BatchWrite.batchAddContent_refused TABLE_NAME send marshallError
                content episodes stats w) as [Hinvalid Hunsafe].
    destruct (BatchWrite.validateInputs content episodes stats)
      as [problem |] eqn:Hvalid.
    { exact (Hinvalid problem eq_refl). }
    destruct (BatchWrite.thrownNumber _) as [n |] eqn:Hsafe.
    { exact (Hunsafe n eq_refl eq_refl). }
    destruct (BatchWrite.batchAddContent_runs TABLE_NAME send marshallError
                content episodes stats w Hvalid Hsafe)
      as (traces & Hlog & Hruns & Hresponse).
    exists traces. split; [exact Hlog |]. split.
    { eapply Forall2_impl; [exact Hruns |]. by intros chunk evs [? _]. }
    rewrite Hresponse. simpl. split.
    + clear Hlog Hresponse.
      induction Hruns as [| chunk evs chunks traces [Hrun Hne] _ IH];
        constructor; [| exact IH].
      pose proof (BatchWrite.chunkRun_calls _ _ _ _ Hrun
                    ltac:(unfold Policy.maxAttempts; lia)) as [Hcalls _].
      pose proof (BatchWrite.chunkRun_end _ _ _ _ Hrun Hne) as Hend.
      unfold Policy.maxAttempts in *. simpl in Hcalls, Hend. split.
      * split; [| lia]. destruct evs as [| [input outcome | ms] rest];
          [done | simpl; lia | done].
      * exact Hend.
    + eexists. split; [reflexivity |]. split; [apply reports_reason |].
      split; [| reflexivity]. intros entry.
      rewrite list_elem_of_fmap. split.
      * intros (request & -> & (evs & Hevs & Hin)%BatchWrite.lefts_elements).
        eauto.
      * intros (evs & request & Hevs & Hin & ->). exists request.
        split; [reflexivity |]. apply BatchWrite.lefts_elements. eauto.
  - intros userIds w run. subst run.
    destruct (BatchRead.validate userIds) as [problem |] eqn:Hvalid.
    { exact (BatchRead.getUserAnalytics_refused _ _ _ _ _ Hvalid). }
    destruct (BatchRead.getUserAnalytics_runs TABLE_NAME' send' userIds w Hvalid)
      as (evs & Hlog & Hrun & Hne & Hresponse).
    exists evs. split; [exact Hlog |]. split; [exact Hrun |].
    pose proof (BatchRead.readRun_calls _ _ _ Hrun) as Hcalls.
    pose proof (BatchRead.readRun_end _ _ _ Hrun Hne) as Hend.
    unfold Policy.maxAttempts in *. simpl in Hcalls, Hend. split.
    { split; [| lia]. destruct evs as [| [input outcome | ms] rest];
        [done | simpl; lia | done]. }
    rewrite Hresponse. destruct (BatchRead.thrownBy evs) as [e |]; [done |].
    split; [reflexivity |]. split; [reflexivity |].
    intros Hleft. destruct (Hend eq_refl) as [Hdone | [_ Hcount]];
      [congruence | exact Hcount].
Qed.

End Executor.
(** ** Further properties of the chunker *)

Module ChunkerShape.
Import Chunker.

(** The chunks are as many as [Math.ceil(length / size)], chunk [j] holds
    the [size] requests from index [j * size] on, or what is left of the
    input there; so every chunk but the last is full, and an input gives
    no chunk exactly when it is empty. *)
Theorem chunkArray_shape {T : Type} (array : list T) (size : nat) :
  1 <= size ->
  length (chunkArray array size) = ceil_div (length array) size
  /\ (forall j chunk,
         chunkArray array size !! j = Some chunk ->
         chunk = take size (drop (j * size) array)
         /\ length chunk = size `min` (length array - j * size))
  /\ (forall j chunk,
         chunkArray array size !! j = Some chunk ->
         j + 1 < length (chunkArray array size) ->
         length chunk = size)
  /\ (chunkArray array size = [] <-> array = []).
Proof.
  intros Hsize.
  assert (Hcount : length (chunkArray array size) = ceil_div (length array) size).
  { unfold chunkArray. by rewrite length_map, length_seq. }
  assert (Hchunk : forall j chunk,
             chunkArray array size !! j = Some chunk ->
             chunk = take size (drop (j * size) array)
             /\ length chunk = size `min` (length array - j * size)).
  { intros j chunk Hj.
    assert (Hlt : j < ceil_div (length array) size).
    { rewrite <- Hcount. eapply lookup_lt_Some, Hj. }
    rewrite chunkArray_lookup in Hj by exact Hlt. injection Hj as <-.
    unfold slice. rewrite take_drop_commute.
    replace (j * size + size) with ((j + 1) * size) by lia.
    split; [reflexivity |].
    rewrite length_drop, length_take. lia. }
  split; [exact Hcount |]. split; [exact Hchunk |]. split.
  - intros j chunk Hj Hlast.
    destruct (Hchunk j chunk Hj) as [_ ->].
    rewrite Hcount in Hlast.
    pose proof (ceil_div_minimal (length array) size Hsize (j + 1) Hlast). lia.
  - split.
    + intros Hnone. apply nil_length_inv.
      pose proof (ceil_div_covers (length array) size Hsize) as Hcover.
      rewrite <- Hcount, Hnone in Hcover. simpl in Hcover. lia.
    + intros ->. apply nil_length_inv. rewrite Hcount. unfold ceil_div.
      simpl length. by rewrite Nat.Div0.mod_0_l, Nat.Div0.div_0_l.
Qed.

Lemma chunkArray_shape_witness :
  length (chunkArray [1; 2; 3; 4; 5; 6; 7] 3) = 3
  /\ (chunkArray [1; 2; 3; 4; 5; 6; 7] 3 = [] <-> [1; 2; 3; 4; 5; 6; 7] = []).
Proof.
  destruct (chunkArray_shape [1; 2; 3; 4; 5; 6; 7] 3 ltac:(lia))
    as (Hcount & _ & _ & Hnone).
  split; [exact Hcount | exact Hnone].
Defined.

End ChunkerShape.

(** ** Further properties of the batch write: its input *)

Module BatchWriteInput.
Import Effects Chunker BatchWrite.

(** What [validateInputs] asks of one content item: an id and a title, at
    least one episode if it is a series, and statistics. *)
Definition wellFormed (episodes : list SeriesEpisode) (stats : list ContentStats)
    (item : ContentMetadata) : Prop :=
  id item <> "" /\ title item <> ""
  /\ (type item = SERIES ->
      exists episode, episode ∈ episodes /\ seriesId episode = id item)
  /\ (exists stat, stat ∈ stats /\ contentId stat = id item).

(** The episodes [formatBatchWriteItems] writes for a content item. *)
Definition episodesOf (episodes : list SeriesEpisode) (item : ContentMetadata)
  : list SeriesEpisode :=
  match type item with
  | SERIES => filter (fun ep => seriesId ep = id item) episodes
  | MOVIE => []
  end.

(** A tally with [m], [e] and [s] more requests of the three kinds. *)
Definition bump (counts : Counts) (m e s : nat) : Counts :=
  {| metadata := m + metadata counts;
     episodes := e + episodes counts;
     stats := s + stats counts |}.

Lemma nonEmpty_true (s : string) : nonEmpty s = true <-> s <> "".
Proof.
  unfold nonEmpty. rewrite negb_true_iff. apply String.eqb_neq.
Qed.

Lemma no_match_iff {A : Type} (P : A -> Prop) `{!forall x, Decision (P x)}
    (l : list A) :
  (length (filter P l) =? 0) = false <-> exists x, x ∈ l /\ P x.
Proof.
  rewrite Nat.eqb_neq. induction l as [| a l IH].
  - simpl. split; [lia |]. intros (x & Hin & _). by apply elem_of_nil in Hin.
  - rewrite filter_cons. destruct (decide (P a)) as [Ha | Ha].
    + simpl. split; [| lia]. intros _. exists a. split; [left | exact Ha].
    + rewrite IH. split.
      * intros (x & Hin & Hx). exists x. split; [by right | exact Hx].
      * intros (x & [-> | Hin]%elem_of_cons & Hx); [done | eauto].
Qed.

Lemma has_stats_iff (stats : list ContentStats) (key : string) :
  existsb (fun stat => String.eqb (contentId stat) key) stats = true
  <-> exists stat, stat ∈ stats /\ contentId stat = key.
Proof.
  rewrite existsb_exists. split.
  - intros (stat & Hin%list_elem_of_In & Heq%String.eqb_eq). eauto.
  - intros (stat & Hin%list_elem_of_In & Heq%String.eqb_eq). eauto.
Qed.

Lemma validateItems_accepts content episodes stats :
  validateItems content episodes stats = None
  <-> Forall (wellFormed episodes stats) content.
Proof.
  induction content as [| item rest IH]; simpl.
  - split; auto.
  - rewrite Forall_cons, <- IH. unfold wellFormed.
    destruct (nonEmpty (id item)) eqn:Hid; simpl.
    2: { split; [discriminate |]. intros [[Hne _] _].
         apply nonEmpty_true in Hne. congruence. }
    destruct (nonEmpty (title item)) eqn:Htitle; simpl.
    2: { split; [discriminate |]. intros [(_ & Hne & _) _].
         apply nonEmpty_true in Hne. congruence. }
    apply nonEmpty_true in Hid, Htitle.
    destruct (type item) eqn:Htype.
    + destruct (existsb _ stats) eqn:Hstats; simpl.
      * apply has_stats_iff in Hstats. split; [| tauto].
        intros Hrest. repeat split; auto. discriminate.
      * split; [discriminate |]. intros [(_ & _ & _ & Hsome) _].
        apply has_stats_iff in Hsome. congruence.
    + destruct (length (filter _ episodes) =? 0) eqn:Hepisodes.
      * split; [discriminate |]. intros [(_ & _ & Hsome & _) _].
        specialize (Hsome eq_refl).
        apply (no_match_iff (fun ep => seriesId ep = id item)) in Hsome.
        congruence.
      * apply (no_match_iff (fun ep => seriesId ep = id item)) in Hepisodes.
        destruct (existsb _ stats) eqn:Hstats; simpl.
        -- apply has_stats_iff in Hstats. split; [| tauto].
           intros Hrest. repeat split; auto.
        -- split; [discriminate |]. intros [(_ & _ & _ & Hsome) _].
           apply has_stats_iff in Hsome. congruence.
Qed.

(** Validation accepts exactly the inputs of 1 to 25 content items in which
    every item has an id, a title and statistics, and every series has at
    least one episode. *)
Theorem validateInputs_accepts content episodes stats :
  validateInputs content episodes stats = None
  <-> 1 <= length content <= 25
      /\ Forall (wellFormed episodes stats) content.
Proof.
  unfold validateInputs.
  destruct (Nat.eqb_spec (length content) 0) as [Hempty | Hsome].
  { split; [discriminate | lia]. }
  destruct (Nat.ltb_spec 25 (length content)) as [Hmany | Hfew].
  { split; [discriminate | lia]. }
  rewrite validateItems_accepts. split; [intros ?; split; [lia | done] | tauto].
Qed.

Lemma foldl_countItem_bump (counts : Counts) (m e s : nat) requests :
  foldl countItem (bump counts m e s) requests
  = bump (foldl countItem counts requests) m e s.
Proof.
  revert counts. induction requests as [| request rest IH]; intros counts.
  - reflexivity.
  - simpl. rewrite <- IH. f_equal. unfold countItem, bump.
    destruct (String.eqb _ "METADATA"); simpl; [f_equal; lia |].
    destruct (String.prefix "EPISODE#" _); simpl; [f_equal; lia |].
    destruct (String.eqb _ "STATS"); simpl; [f_equal; lia | reflexivity].
Qed.

Lemma foldl_countItem_episodes (item : ContentMetadata) eps (counts : Counts) :
  foldl countItem counts (map (episodeRequest item) eps)
  = bump counts 0 (length eps) 0.
Proof.
  revert counts. induction eps as [| ep eps IH]; intros counts.
  - by destruct counts.
  - simpl. rewrite IH.
    change (countItem counts (episodeRequest item ep)) with (bump counts 0 1 0).
    unfold bump. simpl. f_equal. lia.
Qed.

Lemma item_requests_by_kind (item : ContentMetadata) (itemStats : ContentStats)
    (episodes : list SeriesEpisode) (counts : Counts) :
  let requests :=
    [metadataRequest item] ++ [statsRequest item itemStats]
    ++ match type item with
       | MOVIE => []
       | SERIES =>
           map (episodeRequest item)
               (filter (fun ep => seriesId ep = id item) episodes)
       end in
  foldl countItem counts requests
  = bump counts 1 (length (episodesOf episodes item)) 1
  /\ length requests = 2 + length (episodesOf episodes item).
Proof.
  unfold episodesOf. destruct (type item); simpl.
  - split; reflexivity.
  - rewrite length_map. split; [| reflexivity].
    change (countItem (countItem counts (metadataRequest item))
                      (statsRequest item itemStats))
      with (bump counts 1 0 1).
    rewrite foldl_countItem_episodes. unfold bump. simpl. f_equal; lia.
Qed.

(** The requests built for an input that passes validation and that
    [marshall] accepts, classified by sort key as the tally classifies
    them, are one metadata request and one stats request per content item,
    and one episode request per episode of each series: the tally a fully
    processed batch would have. *)
Theorem formatted_requests_by_kind content episodes stats :
  validateInputs content episodes stats = None ->
  thrownNumber (formatBatchWriteItems content episodes stats) = None ->
  foldl countItem noCounts (formatBatchWriteItems content episodes stats)
  = {| metadata := length content;
       episodes := list_sum (map (fun item => length (episodesOf episodes item))
                                 content);
       stats := length content |}
  /\ length (formatBatchWriteItems content episodes stats)
     = 2 * length content
       + list_sum (map (fun item => length (episodesOf episodes item)) content).
Proof.
  intros Hvalid _.
  assert (Hitems : Forall (wellFormed episodes stats) content).
  { unfold validateInputs in Hvalid.
    destruct (length content =? 0); [discriminate |].
    destruct (25 <? length content); [discriminate |].
    by apply validateItems_accepts. }
  clear Hvalid.
  assert (Hstats : Forall (fun item =>
            exists itemStats,
              find (fun stat => String.eqb (contentId stat) (id item)) stats
              = Some itemStats) content).
  { eapply Forall_impl; [exact Hitems |]. intros item (_ & _ & _ & Hsome).
    apply has_stats_iff in Hsome.
    destruct (find _ stats) eqn:Hfind; [eauto |].
    apply existsb_exists in Hsome as (stat & Hin & Heq).
    by rewrite (find_none _ _ Hfind stat Hin) in Heq. }
  clear Hitems. unfold formatBatchWriteItems.
  induction Hstats as [| item rest (itemStats & Hfind) _ [IHtally IHlength]].
  - split; reflexivity.
  - cbn [flat_map]. rewrite Hfind.
    destruct (item_requests_by_kind item itemStats episodes noCounts)
      as [Htally Hlength].
    split.
    + rewrite foldl_app, Htally, foldl_countItem_bump, IHtally.
      unfold bump. simpl. f_equal.
    + rewrite length_app, Hlength, IHlength. simpl. lia.
Qed.

Lemma formatted_requests_by_kind_witness :
  foldl countItem noCounts
        (formatBatchWriteItems newContent seriesEpisodes contentStats)
  = {| metadata := 2; episodes := 2; stats := 2 |}.
Proof.
  exact (proj1 (formatted_requests_by_kind newContent seriesEpisodes
                  contentStats eq_refl eq_refl)).
Defined.

End BatchWriteInput.

(** ** Further properties of the batch write: its runs *)

Module BatchWriteRuns.
Import Effects Chunker BatchWrite.

(** A call the store answered by accepting every request. *)
Definition acceptedCall (TABLE_NAME : string) (call : Call) : Prop :=
  exists response,
    call.2 = Returned response /\ handedBackFor TABLE_NAME call.2 = [].

(** The runs of the loop over the chunks: the events of the chunks' retry
    loops one after the other, each loop starting from the tallies the one
    before it left. *)
Inductive batch (TABLE_NAME : string)
  : list (list WriteRequest) -> Counts -> list WriteRequest -> Trace
    -> Counts -> list WriteRequest -> Prop :=
| batch_done counts unprocessed :
    batch TABLE_NAME [] counts unprocessed [] counts unprocessed
| batch_chunk chunk rest counts unprocessed evs s evs' counts' unprocessed' :
    attempts TABLE_NAME (mkLoop 0 chunk counts unprocessed) evs s ->
    batch TABLE_NAME rest (processedCount s) (afterLoop s) evs' counts' unprocessed' ->
    batch TABLE_NAME (chunk :: rest) counts unprocessed (evs ++ evs')
          counts' unprocessed'.

Section Runs.
Context {St : Type}.
Variable TABLE_NAME : string.
Variable send :
  St -> gmap string (list WriteRequest) -> St * Sent BatchWriteItemCommandOutput.

Lemma processChunks_batch itemChunks counts unprocessed
    (w : World St (gmap string (list WriteRequest)) BatchWriteItemCommandOutput) :
  exists evs,
    log (processChunks TABLE_NAME send itemChunks counts unprocessed w).2
    = log w ++ evs
    /\ batch TABLE_NAME itemChunks counts unprocessed evs
         (processChunks TABLE_NAME send itemChunks counts unprocessed w).1.1
         (processChunks TABLE_NAME send itemChunks counts unprocessed w).1.2.
Proof.
  revert counts unprocessed w.
  induction itemChunks as [| chunk rest IH]; intros counts unprocessed w.
  - exists []. split; [by rewrite app_nil_r | constructor].
  - simpl. unfold processChunk.
    destruct (retryLoop_attempts TABLE_NAME send
                (mkLoop 0 chunk counts unprocessed) w) as (evs & Hlog & Hrun).
    destruct (retryLoop TABLE_NAME send _ w) as [s w1]. simpl in Hlog, Hrun.
    cbn [processedCount leftOver].
    destruct (IH (processedCount s) (afterLoop s) w1) as (evs' & Hlog' & Hrest).
    exists (evs ++ evs'). split.
    + unfold afterLoop in Hlog'. by rewrite Hlog', Hlog, app_assoc.
    + eapply batch_chunk; [exact Hrun | exact Hrest].
Qed.

(** The first event of a loop that runs at all is the call that carries
    what is pending. *)
Lemma attempts_first s evs s' :
  attempts TABLE_NAME s evs s' ->
  loopCond s = true ->
  exists outcome rest,
    evs = Submitted {[ TABLE_NAME := unprocessedChunk s ]} outcome :: rest.
Proof. destruct 1; intros Hcond; [congruence | eauto ..]. Qed.

Lemma loopCond_pending s :
  loopCond s = true -> unprocessedChunk s <> [].
Proof.
  unfold loopCond. intros [Hlen%Nat.ltb_lt _]%andb_true_iff Hnil.
  rewrite Hnil in Hlen. simpl in Hlen. lia.
Qed.

(** A chunk whose calls are all accepted takes one call and no sleep. *)
Lemma attempts_accepted_once s evs s' :
  attempts TABLE_NAME s evs s' ->
  retryCount s < maxRetries ->
  Forall (acceptedCall TABLE_NAME) (submissions evs) ->
  unprocessedChunk s' = [] /\ leftOver s' = leftOver s
  /\ delays evs = []
  /\ map fst (submissions evs)
     = match unprocessedChunk s with
       | [] => []
       | _ :: _ => [ {[ TABLE_NAME := unprocessedChunk s ]} ]
       end.
Proof.
  induction 1 as [s Hcond | s e _ | s response evs s' _ Hleft _ _
                 | s response evs s' Hcond Hnil _ IH]; simpl;
    intros Hretries Haccepted.
  - unfold loopCond in Hcond.
    apply andb_false_iff in Hcond as [Hlen%Nat.ltb_ge | Hmax%Nat.ltb_ge];
      [| lia].
    destruct (unprocessedChunk s); [done | simpl in Hlen; lia].
  - apply Forall_cons in Haccepted as [(response & Habs & _) _]. discriminate.
  - apply Forall_cons in Haccepted as [(response' & _ & Hnone) _]. done.
  - apply Forall_cons in Haccepted as [_ Hrest].
    destruct (IH Hretries Hrest) as (Hdone & Hsame & Hdelays & Hcalls).
    simpl in Hsame, Hcalls. rewrite Hcalls.
    pose proof (loopCond_pending s Hcond).
    destruct (unprocessedChunk s); done.
Qed.

(** With an honest store every call of a chunk carries requests of the
    chunk, and at least one. *)
Lemma attempts_within s evs s' :
  attempts TABLE_NAME s evs s' ->
  Forall (honest TABLE_NAME) (submissions evs) ->
  Forall (fun call : Call =>
            exists requests,
              call.1 = {[ TABLE_NAME := requests ]}
              /\ requests <> [] /\ requests ⊆+ unprocessedChunk s)
         (submissions evs).
Proof.
  induction 1 as [s _ | s e _ | s response evs s' Hcond _ _ IH
                 | s response evs s' Hcond Hnil _ IH]; simpl; intros Hhonest.
  - constructor.
  - apply Forall_cons in Hhonest as [(response & Habs & _) _]. discriminate.
  - apply Forall_cons in Hhonest as [(response' & _ & Hsub) Hrest].
    simpl in Hsub. rewrite lookup_singleton_eq in Hsub. simpl in Hsub.
    constructor.
    + exists (unprocessedChunk s). simpl.
      split; [reflexivity |]. split; [by apply loopCond_pending | reflexivity].
    + eapply Forall_impl; [exact (IH Hrest) |].
      intros call (requests & Hcall & Hne & Hin). simpl in Hin.
      exists requests. split; [exact Hcall |]. split; [exact Hne |]. by etrans.
  - apply Forall_cons in Hhonest as [_ Hrest].
    constructor.
    + exists (unprocessedChunk s). simpl.
      split; [reflexivity |]. split; [by apply loopCond_pending | reflexivity].
    + eapply Forall_impl; [exact (IH Hrest) |].
      intros call (requests & Hcall & Hne & Hin). simpl in Hin.
      apply submseteq_nil_r in Hin. done.
Qed.

Lemma batch_accepted itemChunks counts unprocessed evs counts' unprocessed' :
  batch TABLE_NAME itemChunks counts unprocessed evs counts' unprocessed' ->
  Forall (fun chunk => chunk <> []) itemChunks ->
  Forall (acceptedCall TABLE_NAME) (submissions evs) ->
  unprocessed' = unprocessed /\ delays evs = []
  /\ map fst (submissions evs)
     = map (fun chunk => {[ TABLE_NAME := chunk ]}) itemChunks.
Proof.
  induction 1 as [| chunk rest counts unprocessed evs s evs' counts' unprocessed'
                    Hrun _ IH]; intros Hchunks Haccepted.
  - auto.
  - apply Forall_cons in Hchunks as [Hchunk Hrest].
    rewrite submissions_app in Haccepted.
    apply Forall_app in Haccepted as [Hfirst Hothers].
    destruct (attempts_accepted_once _ _ _ Hrun
                ltac:(unfold maxRetries; simpl; lia) Hfirst)
      as (Hdone & Hsame & Hdelays & Hcalls).
    destruct (IH Hrest Hothers) as (-> & Hdelays' & Hcalls').
    simpl in Hsame, Hcalls. unfold afterLoop. rewrite Hdone, Hsame. simpl.
    split; [reflexivity |]. split.
    + unfold delays in *. by rewrite omap_app, Hdelays, Hdelays'.
    + rewrite submissions_app, map_app, Hcalls, Hcalls'.
      destruct chunk; done.
Qed.

Lemma batch_within itemChunks counts unprocessed evs counts' unprocessed' :
  batch TABLE_NAME itemChunks counts unprocessed evs counts' unprocessed' ->
  Forall (honest TABLE_NAME) (submissions evs) ->
  Forall (fun call : Call =>
            exists requests chunk,
              call.1 = {[ TABLE_NAME := requests ]} /\ requests <> []
              /\ chunk ∈ itemChunks /\ requests ⊆+ chunk)
         (submissions evs).
Proof.
  induction 1 as [| chunk rest counts unprocessed evs s evs' counts' unprocessed'
                    Hrun _ IH]; intros Hhonest.
  - constructor.
  - rewrite submissions_app in Hhonest |- *.
    apply Forall_app in Hhonest as [Hfirst Hothers]. apply Forall_app. split.
    + eapply Forall_impl; [exact (attempts_within _ _ _ Hrun Hfirst) |].
      intros call (requests & Hcall & Hne & Hin). simpl in Hin.
      exists requests, chunk. repeat split; auto. left.
    + eapply Forall_impl; [exact (IH Hothers) |].
      intros call (requests & chunk' & Hcall & Hne & Hchunk & Hin).
      exists requests, chunk'. repeat split; auto. by right.
Qed.

Lemma batch_tally itemChunks counts unprocessed evs counts' unprocessed' :
  batch TABLE_NAME itemChunks counts unprocessed evs counts' unprocessed' ->
  counts'
  = foldl countItem counts
          (concat (map (fun call : Call => handedBackFor TABLE_NAME call.2)
                       (submissions evs))).
Proof.
  induction 1 as [| chunk rest counts unprocessed evs s evs' counts' unprocessed'
                    Hrun _ IH].
  - reflexivity.
  - rewrite submissions_app, map_app, concat_app, foldl_app, IH.
    by rewrite (attempts_tally _ _ _ _ Hrun).
Qed.

End Runs.

Lemma chunkArray_first {T : Type} (x : T) (array : list T) (size : nat) :
  1 <= size ->
  exists rest, chunkArray (x :: array) size = take size (x :: array) :: rest.
Proof.
  intros Hsize.
  assert (Hlt : 0 < ceil_div (length (x :: array)) size).
  { pose proof (ceil_div_tight (length (x :: array)) size Hsize 0
                  ltac:(simpl; lia)) as Hq.
    by rewrite Nat.Div0.div_0_l in Hq. }
  pose proof (chunkArray_lookup (x :: array) size 0 Hlt) as Hfirst.
  destruct (chunkArray (x :: array) size) as [| chunk rest]; [discriminate |].
  injection Hfirst as ->. exists rest. unfold slice.
  change ((0 + 1) * size) with (size + 0). by rewrite Nat.add_0_r.
Qed.

(** An input that fails validation, or in which [marshall] refuses a
    number, never reaches the store: the response is a failure with the
    reason, and the world is as it was.  Any other input always does: the
    first event of the run is the call that carries the first 25 requests
    (all of them, if they are fewer). *)
Theorem valid_input_reaches_store {St : Type} (TABLE_NAME : string)
    (send : St -> gmap string (list WriteRequest)
            -> St * Sent BatchWriteItemCommandOutput)
    (marshallError : Z -> string)
    content episodes stats
    (w : World St (gmap string (list WriteRequest)) BatchWriteItemCommandOutput) :
  let run := batchAddContent TABLE_NAME send marshallError content episodes
               stats w in
  let requests := formatBatchWriteItems content episodes stats in
  match validateInputs content episodes stats, thrownNumber requests with
  | None, None =>
      exists outcome evs,
        log run.2
        = log w ++ Submitted {[ TABLE_NAME := take 25 requests ]} outcome :: evs
  | Some problem, _ => run = (refusal problem, w)
  | None, Some n => run = (refusal (marshallError n), w)
  end.
Proof.
  intros run requests. subst run requests. unfold batchAddContent.
  destruct (validateInputs content episodes stats) as [problem |] eqn:Hvalid;
    [reflexivity |].
  destruct (thrownNumber _) as [n |] eqn:Hsafe; [reflexivity |].
  destruct content as [| item content]; [discriminate |].
  assert (Hsome : exists request requests,
             formatBatchWriteItems (item :: content) episodes stats
             = request :: requests).
  { unfold formatBatchWriteItems. cbn [flat_map app]. eauto. }
  destruct Hsome as (request & requests & ->).
  destruct (chunkArray_first request requests 25 ltac:(lia)) as [rest Hchunks].
  destruct (processChunks_batch TABLE_NAME send
              (chunkArray (request :: requests) 25) noCounts [] w)
    as (evs & Hlog & Hbatch).
  destruct (processChunks TABLE_NAME send _ noCounts [] w)
    as [[counts unprocessed] w1].
  simpl in Hlog, Hbatch |- *. rewrite Hchunks in Hbatch.
  inversion Hbatch as [| ? ? ? ? evs1 s evs2 ? ? Hrun _]; subst.
  apply attempts_first in Hrun as (outcome & more & ->); [| reflexivity].
  exists outcome, (more ++ evs2). by rewrite Hlog.
Qed.

(** For an input that passes validation and that [marshall] accepts:
    when the store accepts every call of a run, the run makes exactly one
    call per chunk, in the order of the chunks, never sleeps, and answers
    success with nothing listed as unprocessed. *)
Theorem accepted_batch_takes_one_call_per_chunk {St : Type} (TABLE_NAME : string)
    (send : St -> gmap string (list WriteRequest)
            -> St * Sent BatchWriteItemCommandOutput)
    (marshallError : Z -> string)
    content episodes stats (st : St) :
  let run := batchAddContent TABLE_NAME send marshallError content episodes
               stats (mkWorld st []) in
  validateInputs content episodes stats = None ->
  thrownNumber (formatBatchWriteItems content episodes stats) = None ->
  Forall (acceptedCall TABLE_NAME) (submissions (log run.2)) ->
  success run.1 = true
  /\ message run.1 = Some "All items processed successfully"
  /\ unprocessedItems run.1 = Some []
  /\ delays (log run.2) = []
  /\ map fst (submissions (log run.2))
     = map (fun chunk => {[ TABLE_NAME := chunk ]})
           (chunkArray (formatBatchWriteItems content episodes stats) 25).
Proof.
  intros run Hvalid Hsafe. subst run. unfold batchAddContent.
  rewrite Hvalid, Hsafe.
  destruct (processChunks_batch TABLE_NAME send
              (chunkArray (formatBatchWriteItems content episodes stats) 25)
              noCounts [] (mkWorld st [])) as (evs & Hlog & Hbatch).
  destruct (processChunks TABLE_NAME send _ noCounts [] (mkWorld st []))
    as [[counts unprocessed] w1].
  simpl in Hlog, Hbatch |- *. subst evs. intros Haccepted.
  destruct (batch_accepted _ _ _ _ _ _ _ Hbatch) as (-> & Hdelays & Hcalls).
  - eapply Forall_impl; [apply (chunkArray_chunk_lengths _ 25); lia |].
    intros chunk Hlen ->. simpl in Hlen. lia.
  - exact Haccepted.
  - auto.
Qed.

Lemma accepted_batch_takes_one_call_per_chunk_witness :
  let run := batchAddContent table (scripted accepted) useBigInt newContent
               seriesEpisodes contentStats (replaying []) in
  success run.1 = true
  /\ delays (log run.2) = []
  /\ map fst (submissions (log run.2))
     = map (fun chunk => {[ table := chunk ]})
           (chunkArray
              (formatBatchWriteItems newContent seriesEpisodes contentStats) 25).
Proof.
  intros run.
  destruct (accepted_batch_takes_one_call_per_chunk table (scripted accepted)
              useBigInt newContent seriesEpisodes contentStats [] eq_refl eq_refl)
    as (Hsuccess & _ & _ & Hdelays & Hcalls).
  - vm_compute. repeat constructor. eexists. split; reflexivity.
  - split; [exact Hsuccess |]. split; [exact Hdelays | exact Hcalls].
Defined.

(** When the store is honest (every call returns, and hands back only
    requests of that call), every call of a run carries at least one and at
    most 25 requests, in one table entry. *)
Theorem honest_calls_within_limit {St : Type} (TABLE_NAME : string)
    (send : St -> gmap string (list WriteRequest)
            -> St * Sent BatchWriteItemCommandOutput)
    (marshallError : Z -> string)
    content episodes stats (st : St) :
  let run := batchAddContent TABLE_NAME send marshallError content episodes
               stats (mkWorld st []) in
  Forall (honest TABLE_NAME) (submissions (log run.2)) ->
  Forall (fun call : Call =>
            exists requests,
              call.1 = {[ TABLE_NAME := requests ]}
              /\ 1 <= length requests <= 25)
         (submissions (log run.2)).
Proof.
  intros run. subst run. unfold batchAddContent.
  destruct (validateInputs content episodes stats) as [problem |].
  { simpl. constructor. }
  destruct (thrownNumber _) as [n |].
  { simpl. constructor. }
  destruct (processChunks_batch TABLE_NAME send
              (chunkArray (formatBatchWriteItems content episodes stats) 25)
              noCounts [] (mkWorld st [])) as (evs & Hlog & Hbatch).
  destruct (processChunks TABLE_NAME send _ noCounts [] (mkWorld st []))
    as [[counts unprocessed] w1].
  simpl in Hlog, Hbatch |- *. subst evs. intros Hhonest.
  eapply Forall_impl; [exact (batch_within _ _ _ _ _ _ _ Hbatch Hhonest) |].
  intros call (requests & chunk & Hcall & Hne & Hchunk & Hin).
  exists requests. split; [exact Hcall |].
  pose proof (chunkArray_chunk_lengths
                (formatBatchWriteItems content episodes stats) 25 ltac:(lia))
    as Hlengths.
  rewrite Forall_forall in Hlengths. specialize (Hlengths chunk Hchunk).
  apply submseteq_length in Hin.
  destruct requests; [done | simpl in *; lia].
Qed.

Lemma honest_calls_within_limit_witness :
  let run := batchAddContent table (scripted accepted) useBigInt newContent
               seriesEpisodes contentStats
               (replaying [handedBack [Executor.stuck]]) in
  Forall (fun call : Call =>
            exists requests,
              call.1 = {[ table := requests ]} /\ 1 <= length requests <= 25)
         (submissions (log run.2)).
Proof.
  intros run.
  apply (honest_calls_within_limit table (scripted accepted) useBigInt
           newContent seriesEpisodes contentStats [handedBack [Executor.stuck]]).
  vm_compute. repeat constructor.
  - eexists. split; [reflexivity |]. repeat constructor.
  - eexists. split; [reflexivity |]. repeat constructor.
Defined.

(** The tally [processedItems] of a run is the count, by sort key, of the
    requests the store handed back as unprocessed, over all the calls of
    the run: a request adds to it each time it is handed back, and a
    request that is written at once adds nothing. *)
Theorem tally_counts_what_was_handed_back {St : Type} (TABLE_NAME : string)
    (send : St -> gmap string (list WriteRequest)
            -> St * Sent BatchWriteItemCommandOutput)
    (marshallError : Z -> string)
    content episodes stats (st : St) :
  let run := batchAddContent TABLE_NAME send marshallError content episodes
               stats (mkWorld st []) in
  processedItems run.1
  = foldl countItem noCounts
          (concat (map (fun call : Call => handedBackFor TABLE_NAME call.2)
                       (submissions (log run.2)))).
Proof.
  intros run. subst run. unfold batchAddContent.
  destruct (validateInputs content episodes stats) as [problem |].
  { reflexivity. }
  destruct (thrownNumber _) as [n |].
  { reflexivity. }
  destruct (processChunks_batch TABLE_NAME send
              (chunkArray (formatBatchWriteItems content episodes stats) 25)
              noCounts [] (mkWorld st [])) as (evs & Hlog & Hbatch).
  destruct (processChunks TABLE_NAME send _ noCounts [] (mkWorld st []))
    as [[counts unprocessed] w1].
  simpl in Hlog, Hbatch |- *. subst evs.
  exact (batch_tally _ _ _ _ _ _ _ Hbatch).
Qed.

End BatchWriteRuns.

(** ** Further properties of the batch read *)

Module BatchReadRuns.
Import Effects BatchRead.

(** *** Strings *)

Lemma prefix_append (p s : string) : String.prefix p (p +:+ s) = true.
Proof.
  induction p as [| a p IH]; simpl; [by destruct s |].
  destruct (ascii_dec a a); [exact IH | done].
Qed.

Lemma substring_all (s : string) : String.substring 0 (String.length s) s = s.
Proof. induction s as [| a s IH]; simpl; [reflexivity | by rewrite IH]. Qed.

Lemma substring_after (p s : string) :
  String.substring (String.length p)
    (String.length (p +:+ s) - String.length p) (p +:+ s) = s.
Proof.
  induction p as [| a p IH]; simpl.
  - rewrite Nat.sub_0_r. apply substring_all.
  - exact IH.
Qed.

Lemma replace_unfold (pattern replacement s : string) :
  replace pattern replacement s
  = if String.prefix pattern s then
      replacement
      +:+ String.substring (String.length pattern)
            (String.length s - String.length pattern) s
    else match s with
         | EmptyString => EmptyString
         | String c rest => String c (replace pattern replacement rest)
         end.
Proof. destruct s; reflexivity. Qed.

(** Removing a prefix that was put in front gives the string back. *)
Lemma replace_prefix (p s : string) : replace p "" (p +:+ s) = s.
Proof.
  rewrite replace_unfold, prefix_append, substring_after. reflexivity.
Qed.

(** A string without the separator is its own single field. *)
Lemma split_plain (separator : ascii) (s : string) :
  separator ∉ String.list_ascii_of_string s -> split separator s = [s].
Proof.
  induction s as [| c s IH]; simpl; intros Hfree; [reflexivity |].
  apply not_elem_of_cons in Hfree as [Hne Hfree].
  destruct (Ascii.eqb_spec c separator) as [-> | _]; [done |].
  by rewrite IH.
Qed.

(** *** Input *)

(** An id the validation lets through: not empty, and decimal digits only. *)
Definition decimal (id : string) : Prop :=
  id <> ""
  /\ Forall (fun c => 48 <= nat_of_ascii c <= 57) (String.list_ascii_of_string id).

Lemma digitsOnly_decimal (id : string) : digitsOnly id = true <-> decimal id.
Proof.
  unfold digitsOnly, decimal.
  rewrite andb_true_iff, negb_true_iff, String.eqb_neq.
  apply and_iff_compat_l.
  induction id as [| c id IH]; simpl.
  - split; auto.
  - rewrite andb_true_iff, Forall_cons, IH. unfold isDigit.
    rewrite andb_true_iff, !Nat.leb_le. tauto.
Qed.

(** Validation accepts exactly the lists of 1 to 100 ids that are each a
    non-empty string of decimal digits. *)
Theorem validate_accepts (userIds : list string) :
  validate userIds = None
  <-> 1 <= length userIds <= 100 /\ Forall decimal userIds.
Proof.
  unfold validate.
  destruct (Nat.eqb_spec (length userIds) 0) as [Hempty | Hsome].
  { split; [discriminate | lia]. }
  destruct (Nat.ltb_spec 100 (length userIds)) as [Hmany | Hfew].
  { split; [discriminate | lia]. }
  destruct (forallb digitsOnly userIds) eqn:Hdigits; simpl.
  - split; [| done]. intros _. split; [lia |].
    pose proof (proj1 (forallb_forall digitsOnly userIds) Hdigits) as Hall.
    apply Forall_forall.
    intros id Hin%list_elem_of_In. apply digitsOnly_decimal. by apply Hall.
  - split; [discriminate |]. intros [_ Hall].
    assert (forallb digitsOnly userIds = true); [| congruence].
    apply (proj2 (forallb_forall digitsOnly userIds)).
    intros id Hin%list_elem_of_In.
    apply digitsOnly_decimal. rewrite Forall_forall in Hall. by apply Hall.
Qed.

Section Runs.
Context {St : Type}.
Variable TABLE_NAME : string.
Variable send :
  St -> gmap string (list Key) -> St * Sent BatchGetItemCommandOutput.

Lemma read_attempts_first userIds s evs r :
  attempts TABLE_NAME userIds s evs r ->
  loopCond s = true ->
  exists outcome rest,
    evs = Submitted (requestItems TABLE_NAME userIds) outcome :: rest.
Proof. destruct 1; intros Hcond; [congruence | eauto ..]. Qed.

End Runs.

(** An input that fails validation never reaches the store: the response
    carries the validation error and the world is as it was.  An input
    that passes always does, and every call of the run carries the same
    request: for each user the profile key [USER#id / PROFILE#id], then for
    each user the key [USER#id / VIEWING#], two keys per user. *)
Theorem read_request_of_every_call {St : Type} (TABLE_NAME : string)
    (send : St -> gmap string (list Key) -> St * Sent BatchGetItemCommandOutput)
    (userIds : list string)
    (w : World St (gmap string (list Key)) BatchGetItemCommandOutput) :
  let keys := formatUserKeys userIds ++ formatViewingHistoryKeys userIds in
  length keys = 2 * length userIds
  /\ (forall i id,
         userIds !! i = Some id ->
         keys !! i = Some {| keyPK := "USER#" +:+ id; keySK := "PROFILE#" +:+ id |}
         /\ keys !! (length userIds + i)
            = Some {| keyPK := "USER#" +:+ id; keySK := "VIEWING#" |})
  /\ match validate userIds with
     | Some problem =>
         getUserAnalytics TABLE_NAME send userIds w
         = ({| success := false; message := None; data := None;
               error := Some problem |}, w)
     | None =>
         exists outcome evs,
           log (getUserAnalytics TABLE_NAME send userIds w).2
           = log w ++ Submitted {[ TABLE_NAME := keys ]} outcome :: evs
           /\ Forall (fun call => call.1 = {[ TABLE_NAME := keys ]})
                     (submissions evs)
     end.
Proof.
  intros keys. subst keys. split; [| split].
  - unfold formatUserKeys, formatViewingHistoryKeys.
    rewrite length_app, !length_map. lia.
  - intros i id Hid. unfold formatUserKeys, formatViewingHistoryKeys. split.
    + rewrite lookup_app_l by (rewrite length_map; by eapply lookup_lt_Some).
      change (map ?f ?l) with (f <$> l). by rewrite list_lookup_fmap, Hid.
    + rewrite lookup_app_r by (rewrite length_map; lia).
      rewrite length_map, Nat.add_comm, Nat.add_sub.
      change (map ?f ?l) with (f <$> l). by rewrite list_lookup_fmap, Hid.
  - unfold getUserAnalytics.
    destruct (validate userIds) as [problem |]; [reflexivity |].
    destruct (read_retryLoop_attempts TABLE_NAME send userIds
                (mkLoop true 0 [] []) w) as (evs & Hlog & Hrun).
    pose proof (read_attempts_request _ _ _ _ _ Hrun) as Hcalls.
    apply read_attempts_first in Hrun as (outcome & rest & ->); [| reflexivity].
    simpl in Hcalls. apply Forall_cons in Hcalls as [_ Hcalls].
    exists outcome, rest.
    destruct (retryLoop _ _ _ _ w) as [[[e |] s] w1]; simpl in *; auto.
Qed.

(** When the first call returns and leaves no key unprocessed, the run is
    that one call: no sleep, and a success whose data are the profiles and
    viewing histories among the returned items.  When the first call
    throws, the run is that one call too, and the failure carries the
    message of what was thrown. *)
Theorem read_first_call_decides {St : Type} (TABLE_NAME : string)
    (send : St -> gmap string (list Key) -> St * Sent BatchGetItemCommandOutput)
    (userIds : list string)
    (w : World St (gmap string (list Key)) BatchGetItemCommandOutput) :
  validate userIds = None ->
  match send (store w) (requestItems TABLE_NAME userIds) with
  | (st, Returned response) =>
      hasUnprocessedKeys response = false ->
      getUserAnalytics TABLE_NAME send userIds w
      = ({| success := true;
            message := Some "All items retrieved successfully";
            data := Some (format
                            (filter (fun i => isProfile i = true)
                                    (received TABLE_NAME response))
                            (filter (fun i => isViewing i = true)
                                    (received TABLE_NAME response)));
            error := None |},
         mkWorld st (log w ++ [Submitted (requestItems TABLE_NAME userIds)
                                         (Returned response)]))
  | (st, Threw e) =>
      getUserAnalytics TABLE_NAME send userIds w
      = ({| success := false; message := None; data := None;
            error := Some (messageOrUnknown e) |},
         mkWorld st (log w ++ [Submitted (requestItems TABLE_NAME userIds)
                                         (Threw e)]))
  end.
Proof.
  intros Hvalid. unfold getUserAnalytics. rewrite Hvalid.
  rewrite read_retryLoop_eq. cbn [loopCond unprocessedKeys retryCount andb].
  change (0 <? maxRetries) with true. cbv iota.
  unfold loopBody, submit.
  destruct (send (store w) (requestItems TABLE_NAME userIds))
    as [st [response | e]]; [| reflexivity].
  intros Hkeys. rewrite Hkeys. rewrite read_retryLoop_eq.
  reflexivity.
Qed.

Lemma read_first_call_decides_witness :
  getUserAnalytics table (scripted (fully [])) ["1001"]
    (replaying [fully [profile "1001" "Ann" "premium"]])
  = ({| success := true;
        message := Some "All items retrieved successfully";
        data := Some [ {| userId := "1001"; name := Some "Ann";
                          subscriptionTier := Some "premium";
                          viewingHistory := [] |} ];
        error := None |},
     mkWorld [] [Submitted (requestItems table ["1001"])
                           (fully [profile "1001" "Ann" "premium"])]).
Proof.
  exact (read_first_call_decides table (scripted (fully [])) ["1001"]
           (replaying [fully [profile "1001" "Ann" "premium"]])
           eq_refl eq_refl).
Defined.

(** The formatted data has one entry per profile item, in order.  The
    entry of a profile stored under the key [USER#id] has the user id [id];
    its viewing history has one entry, in order, per viewing item with the
    profile's partition key; and the entry of a viewing item with the sort
    key [VIEWING#date] has the watch date [date]. *)
Theorem format_decodes_keys (profiles histories : list Item) :
  length (format profiles histories) = length profiles
  /\ forall i p,
      profiles !! i = Some p ->
      exists entry,
        format profiles histories !! i = Some entry
        /\ (forall id, PK p = "USER#" +:+ id -> userId entry = id)
        /\ name entry = item_name p
        /\ subscriptionTier entry = subscription_tier p
        /\ length (viewingHistory entry)
           = length (filter (fun vh => PK vh = PK p) histories)
        /\ forall j vh,
            filter (fun vh => PK vh = PK p) histories !! j = Some vh ->
            exists seen,
              viewingHistory entry !! j = Some seen
              /\ movieId seen = movie_id vh
              /\ watchDuration seen = watch_duration vh
              /\ completed seen = item_completed vh
              /\ (forall date,
                     SK vh = "VIEWING#" +:+ date ->
                     "#"%char ∉ String.list_ascii_of_string date ->
                     watchDate seen = Some date).
Proof.
  unfold format. split; [by rewrite length_map |].
  intros i p Hp. eexists. split.
  { change (map ?f ?l) with (f <$> l). rewrite list_lookup_fmap, Hp.
    reflexivity. }
  simpl. split; [| split; [reflexivity | split; [reflexivity |]]].
  { intros id ->. apply replace_prefix. }
  split; [by rewrite length_map |].
  intros j vh Hvh. eexists. split.
  { change (map ?f ?l) with (f <$> l). rewrite list_lookup_fmap, Hvh.
    reflexivity. }
  simpl. repeat split.
  intros date -> Hfree.
  change (split "#" ("VIEWING#" +:+ date)) with ("VIEWING" :: split "#" date).
  by rewrite split_plain.
Qed.

Lemma format_decodes_keys_witness :
  let ann := profile "1001" "Ann" "premium" in
  let seenByAnn := viewing "1001" "2024-03-01" "MOVIE#101" 5400 in
  exists entry seen,
    format [ann] [seenByAnn] !! 0 = Some entry
    /\ userId entry = "1001"
    /\ viewingHistory entry !! 0 = Some seen
    /\ watchDate seen = Some "2024-03-01".
Proof.
  intros ann seenByAnn.
  destruct (proj2 (format_decodes_keys [ann] [seenByAnn]) 0 ann eq_refl)
    as (entry & Hentry & Hid & _ & _ & _ & Hseen).
  destruct (Hseen 0 seenByAnn eq_refl) as (seen & Hlookup & _ & _ & _ & Hdate).
  exists entry, seen. split; [exact Hentry |].
  split; [exact (Hid "1001" eq_refl) |]. split; [exact Hlookup |].
  apply (Hdate "2024-03-01" eq_refl). simpl. intros Hin.
  repeat (apply elem_of_cons in Hin as [Hin | Hin]; [discriminate |]).
  by apply elem_of_nil in Hin.
Defined.

End BatchReadRuns.

(** ** Further properties of the product creation *)

Module PutProductGate.
Import Effects PutProduct.

Section Gate.
Context {St : Type}.
Variable TABLE_NAME : string.
Variable send : St -> PutItemCommandInput -> St * Sent PutItemCommandOutput.
Variable toFixed2 : JSNumber -> string.
Variable toString : JSNumber -> string.
Variable Date_parse : string -> JSNumber.
Variable marshallError : Product -> string.

(** The products [putProduct] lets through to the store: every field set;
    the keys with their prefixes; id, name and category not empty; a
    finite price above zero that prints the same with two decimals; a
    whole stock above zero; neither of the two above the safe range of
    [marshall]; a date that parses; an approved brand. *)
Definition acceptable (product : Product) : Prop :=
  exists pk sk id nm cat pr st lu br,
    product = {| PK := Some pk; SK := Some sk; productId := Some id;
                 name := Some nm; category := Some cat;
                 price := Some (Finite pr); stock := Some (Finite st);
                 lastUpdated := Some lu; brand := Some br |}
    /\ String.prefix "PRODUCT#" pk = true
    /\ String.prefix "METADATA#" sk = true
    /\ id <> "" /\ nm <> "" /\ cat <> ""
    /\ (0 < pr)%Q
    /\ toFixed2 (Finite pr) = toString (Finite pr)
    /\ (0 < st)%Q
    /\ (Zpos (Qden st) | Qnum st)%Z
    /\ (pr <= inject_Z MAX_SAFE_INTEGER)%Q
    /\ (st <= inject_Z MAX_SAFE_INTEGER)%Q
    /\ lu <> ""
    /\ Date_parse lu <> NaN
    /\ br ∈ approvedBrands.

(** The command for a product. *)
Definition commandFor (product : Product) : PutItemCommandInput :=
  {| TableName := TABLE_NAME;
     Item := product;
     ConditionExpression := "attribute_not_exists(PK) AND attribute_not_exists(SK)";
     ReturnValues := "ALL_OLD" |}.

(** The response to what the store answered. *)
Definition answer (product : Product) (outcome : Sent PutItemCommandOutput)
  : ProductResponse :=
  match outcome with
  | Returned _ => {| success := true; data := Some product; error := None |}
  | Threw e =>
      if isConditionalCheckFailed e
      then {| success := false; data := None;
              error := Some "Product already exists" |}
      else {| success := false; data := None; error := messageOf e |}
  end.

Lemma truthyString_set (s : option string) :
  truthyString s = true <-> exists v, s = Some v /\ v <> "".
Proof.
  destruct s as [v |]; simpl.
  - rewrite negb_true_iff, String.eqb_neq. split; [eauto |].
    by intros (v' & [= <-] & Hne).
  - split; [discriminate | by intros (v & ? & _)].
Qed.

Lemma positive_price (n : option JSNumber) :
  truthyNumber n = true ->
  (exists p, n = Some p /\ notPositive p || negb (isFinite p) = false)
  <-> exists q, n = Some (Finite q) /\ (0 < q)%Q.
Proof.
  intros Htruthy. split.
  - intros (p & -> & Hcheck). apply orb_false_iff in Hcheck as [Hpos Hfin].
    destruct p as [| neg | q]; try discriminate.
    exists q. split; [reflexivity |]. simpl in Hpos.
    apply Qnot_le_lt. intros Hle. apply Qle_bool_iff in Hle. congruence.
  - intros (q & -> & Hpos). exists (Finite q). split; [reflexivity |].
    simpl. rewrite orb_false_r. destruct (Qle_bool q 0) eqn:Hle; [| reflexivity].
    apply Qle_bool_iff in Hle. exfalso. by apply (Qlt_not_le 0 q).
Qed.

Lemma whole_stock (n : option JSNumber) :
  (truthyNumber n = true
   /\ exists p, n = Some p /\ negative p || negb (isInteger p) = false)
  <-> exists q, n = Some (Finite q) /\ (0 < q)%Q /\ (Zpos (Qden q) | Qnum q)%Z.
Proof.
  split.
  - intros (Htruthy & p & -> & Hcheck).
    apply orb_false_iff in Hcheck as [Hneg Hint]. apply negb_false_iff in Hint.
    destruct p as [| neg | q]; try discriminate.
    simpl in Htruthy, Hneg, Hint. exists q. split; [reflexivity |].
    apply negb_true_iff in Htruthy. apply negb_false_iff in Hneg.
    apply Qle_bool_iff in Hneg. split.
    + apply Qle_lteq in Hneg as [Hlt | Heq]; [exact Hlt |].
      symmetry in Heq. apply Qeq_bool_iff in Heq. congruence.
    + apply Z.eqb_eq in Hint. by apply Z.mod_divide.
  - intros (q & -> & Hpos & Hwhole). split.
    + simpl. apply negb_true_iff. destruct (Qeq_bool q 0) eqn:Heq; [| reflexivity].
      apply Qeq_bool_iff in Heq. rewrite Heq in Hpos. by apply Qlt_irrefl in Hpos.
    + exists (Finite q). split; [reflexivity |]. simpl.
      apply orb_false_iff. split.
      * apply negb_false_iff, Qle_bool_iff, Qlt_le_weak, Hpos.
      * apply negb_false_iff, Z.eqb_eq. by apply Z.mod_divide.
Qed.

Lemma none_missing (product : Product) :
  find (missing product) requiredFields = None
  <-> forall field, missing product field = false.
Proof.
  unfold requiredFields. simpl. split.
  - repeat match goal with
           | |- context [if missing product ?f then _ else _] =>
               destruct (missing product f) eqn:?; [discriminate |]
           end.
    intros _ field. by destruct field.
  - intros Hall. by rewrite !Hall.
Qed.

Lemma safe_number (q : Q) :
  (0 < q)%Q ->
  refused (Finite q) = false <-> (q <= inject_Z MAX_SAFE_INTEGER)%Q.
Proof.
  intros Hpos. unfold refused.
  assert (Hlow : Qle_bool (inject_Z (- MAX_SAFE_INTEGER)) q = true).
  { apply Qle_bool_iff. apply Qle_trans with 0%Q; [| by apply Qlt_le_weak].
    unfold Qle, MAX_SAFE_INTEGER. simpl. lia. }
  rewrite Hlow, orb_false_r, negb_false_iff. apply Qle_bool_iff.
Qed.

Lemma acceptable_passes (product : Product) :
  acceptable product <->
  find (missing product) requiredFields = None
  /\ exists pk sk pr st lu br,
      PK product = Some pk /\ SK product = Some sk /\ price product = Some pr
      /\ stock product = Some st /\ lastUpdated product = Some lu
      /\ brand product = Some br
      /\ validateValues toFixed2 toString Date_parse pk sk pr st lu br = None
      /\ refused pr || refused st = false.
Proof.
  rewrite none_missing. split.
  - intros (pk & sk & id & nm & cat & pr & st & lu & br & -> & Hpk & Hsk & Hid
            & Hnm & Hcat & Hpr & Hfixed & Hst & Hwhole & Hprsafe & Hstsafe
            & Hlu & Hdate & Hbr).
    assert (Hempty : forall s, String.prefix (String "P" s) pk = true
                            \/ String.prefix (String "M" s) pk = true -> pk <> "").
    { intros s [H | H] ->; discriminate. }
    assert (Hprice : truthyNumber (Some (Finite pr)) = true
                     /\ notPositive (Finite pr) || negb (isFinite (Finite pr)) = false).
    { assert (Htruthy : truthyNumber (Some (Finite pr)) = true).
      { simpl. apply negb_true_iff. destruct (Qeq_bool pr 0) eqn:Heq; [| done].
        apply Qeq_bool_iff in Heq. rewrite Heq in Hpr. by apply Qlt_irrefl in Hpr. }
      split; [exact Htruthy |].
      destruct (proj2 (positive_price (Some (Finite pr)) Htruthy))
        as (p & [= <-] & Hcheck); eauto. }
    destruct Hprice as [Hprice1 Hprice2].
    destruct (proj2 (whole_stock (Some (Finite st)))) as (Hstock1 & p & [= <-] & Hstock2);
      [eauto |].
    split.
    + intros field. unfold missing. apply negb_false_iff.
      destruct field; simpl PK; simpl SK; simpl productId; simpl name;
        simpl category; simpl price; simpl stock; simpl lastUpdated; simpl brand;
        try exact Hprice1; try exact Hstock1;
        apply truthyString_set; eexists; (split; [reflexivity |]); try done.
      * intros ->. discriminate.
      * intros ->. discriminate.
      * intros ->. unfold approvedBrands in Hbr.
        rewrite !elem_of_cons, elem_of_nil in Hbr. intuition discriminate.
    + exists pk, sk, (Finite pr), (Finite st), lu, br. simpl PK. simpl SK.
      simpl price. simpl stock. simpl lastUpdated. simpl brand.
      repeat (split; [reflexivity |]). split.
      * unfold validateValues.
        rewrite Hprice2, Hfixed, String.eqb_refl, Hstock2, Hpk, Hsk.
        cbn [orb negb].
        destruct (Date_parse lu); try done; cbn [isNaN];
          by rewrite bool_decide_eq_true_2.
      * apply orb_false_iff. split; by apply safe_number.
  - intros (Hall & pk & sk & pr & st & lu & br & HPK & HSK & Hprice & Hstock
            & Hlu & Hbr & Hvalid & Hsafe).
    unfold validateValues in Hvalid.
    destruct (notPositive pr || negb (isFinite pr)) eqn:Hpr1; [discriminate |].
    simpl in Hvalid.
    destruct (String.eqb (toFixed2 pr) (toString pr)) eqn:Hfixed; [| discriminate].
    simpl in Hvalid.
    destruct (negative st || negb (isInteger st)) eqn:Hst1; [discriminate |].
    destruct (String.prefix "PRODUCT#" pk) eqn:Hpk; [| discriminate].
    destruct (String.prefix "METADATA#" sk) eqn:Hsk; [| discriminate].
    simpl in Hvalid.
    destruct (isNaN (Date_parse lu)) eqn:Hdate; [discriminate |].
    destruct (bool_decide (br ∈ approvedBrands)) eqn:Hbrand; [| discriminate].
    apply bool_decide_eq_true in Hbrand. apply String.eqb_eq in Hfixed.
    pose proof (Hall field_price) as Hp. pose proof (Hall field_stock) as Hs.
    pose proof (Hall field_productId) as Hid. pose proof (Hall field_name) as Hnm.
    pose proof (Hall field_category) as Hcat.
    pose proof (Hall field_lastUpdated) as Hlu'.
    unfold missing in Hp, Hs, Hid, Hnm, Hcat, Hlu'.
    apply negb_false_iff in Hp, Hs, Hid, Hnm, Hcat, Hlu'.
    apply truthyString_set in Hid as (id & Hid & Hid').
    apply truthyString_set in Hnm as (nm & Hnm & Hnm').
    apply truthyString_set in Hcat as (cat & Hcat & Hcat').
    apply truthyString_set in Hlu' as (lu' & Hlu' & Hlu'').
    destruct (proj1 (positive_price (price product) Hp)) as (q & Hq & Hqpos);
      [eauto |].
    destruct (proj1 (whole_stock (stock product))) as (q' & Hq' & Hq'pos & Hwhole);
      [eauto |].
    rewrite Hprice in Hq. injection Hq as ->.
    rewrite Hstock in Hq'. injection Hq' as ->.
    rewrite Hlu in Hlu'. injection Hlu' as <-.
    apply orb_false_iff in Hsafe as [Hprsafe Hstsafe].
    apply safe_number in Hprsafe; [| exact Hqpos].
    apply safe_number in Hstsafe; [| exact Hq'pos].
    exists pk, sk, id, nm, cat, q, q', lu, br.
    repeat split; try assumption.
    + destruct product; simpl in *; congruence.
    + intros HNaN. by rewrite HNaN in Hdate.
Qed.

Lemma putProduct_answer (product : Product)
    (w : World St PutItemCommandInput PutItemCommandOutput) :
  acceptable product ->
  putProduct TABLE_NAME send toFixed2 toString Date_parse marshallError product w
  = (answer product (send (store w) (commandFor product)).2,
     mkWorld (send (store w) (commandFor product)).1
       (log w ++ [Submitted (commandFor product)
                            (send (store w) (commandFor product)).2])).
Proof.
  intros (Hnone & pk & sk & pr & st & lu & br & HPK & HSK & Hprice & Hstock
          & Hlu & Hbr & Hvalid & Hsafe)%acceptable_passes.
  unfold putProduct.
  rewrite Hnone, HPK, HSK, Hprice, Hstock, Hlu, Hbr, Hvalid, Hsafe.
  unfold submit, commandFor, conditionExpression, answer.
  destruct (send (store w) _) as [st' [output | e]]; simpl; [reflexivity |].
  by destruct (isConditionalCheckFailed e).
Qed.

End Gate.

(** [putProduct] calls the store exactly for the acceptable products.  For
    such a product it sends one [PutItem] command, for the product as it
    is and on condition that no item has its key, and answers by what came
    back: success, "Product already exists" for an error of that name, and
    otherwise the message of what was thrown.  For any other product it
    answers a failure with a reason and leaves the world as it was. *)
Theorem putProduct_calls_store_iff_acceptable {St : Type} (TABLE_NAME : string)
    (send : St -> PutItemCommandInput -> St * Sent PutItemCommandOutput)
    (toFixed2 toString : JSNumber -> string) (Date_parse : string -> JSNumber)
    (marshallError : Product -> string)
    (product : Product)
    (w : World St PutItemCommandInput PutItemCommandOutput) :
  let run := putProduct TABLE_NAME send toFixed2 toString Date_parse
               marshallError product w in
  let sent := send (store w) (commandFor TABLE_NAME product) in
  (acceptable toFixed2 toString Date_parse product ->
   run = (answer product sent.2,
          mkWorld sent.1
            (log w ++ [Submitted (commandFor TABLE_NAME product) sent.2])))
  /\ (~ acceptable toFixed2 toString Date_parse product ->
      run.2 = w /\ success run.1 = false /\ is_Some (error run.1)).
Proof.
  intros run sent. subst run sent. split.
  - apply putProduct_answer.
  - intros Hnot. unfold putProduct.
    destruct (find (missing product) requiredFields) as [field |] eqn:Hfind.
    { simpl. eauto. }
    destruct (PK product) as [pk |] eqn:HPK, (SK product) as [sk |] eqn:HSK,
      (price product) as [pr |] eqn:Hprice, (stock product) as [st |] eqn:Hstock,
      (lastUpdated product) as [lu |] eqn:Hlu, (brand product) as [br |] eqn:Hbr;
      try (simpl; eauto; fail).
    destruct (validateValues toFixed2 toString Date_parse pk sk pr st lu br)
      as [problem |] eqn:Hvalid.
    { simpl. eauto. }
    destruct (refused pr || refused st) eqn:Hsafe.
    { simpl. eauto. }
    exfalso. apply Hnot. apply acceptable_passes.
    split; [exact Hfind |]. exists pk, sk, pr, st, lu, br. auto 10.
Qed.

(** The valid product of the source's tests is acceptable. *)
Lemma smartphone_acceptable : acceptable printed printed parsed smartphone.
Proof.
  exists "PRODUCT#101", "METADATA#101", "101", "Smartphone X", "Electronics",
    (59999 # 100), 50%Q, "2024-01-01T00:00:00.000Z", "Samsung".
  repeat split; try done.
  - by exists 50%Z.
  - unfold approvedBrands. set_solver.
Qed.

Lemma putProduct_calls_store_iff_acceptable_witness :
  putProduct table accepting printed printed parsed unsafeNumber smartphone
             (mkWorld tt [])
  = ({| success := true; data := Some smartphone; error := None |},
     mkWorld tt [Submitted (commandFor table smartphone)
                           (Returned {| Attributes := None |})]).
Proof.
  exact (proj1 (putProduct_calls_store_iff_acceptable table accepting printed
                  printed parsed unsafeNumber smartphone (mkWorld tt []))
           smartphone_acceptable).
Defined.

End PutProductGate.

(** ** Product removal: the [deleteProduct] exercise

    The solution of the DeleteItem exercise, which works on the table of
    [putProduct] and, in its tests, removes the product that the tests of
    [putProduct] created. *)

Module DeleteProduct.
Import Effects.

(** *** Types *)

(** The key [marshall({ PK, SK })]. *)
Record Key : Type := {
  PK : string;
  SK : string
}.

Record DeleteItemCommandInput : Type := {
  TableName : string;
  Key_ : Key;
  ReturnValues : string;
  ConditionExpression : string
}.

(** The output: the old item, when the store returns one.  The items of
    this table are products. *)
Record DeleteItemCommandOutput : Type := {
  Attributes : option PutProduct.Product
}.

Record DeletedItem : Type := {
  productId : option string;
  name : option string;
  category : option string;
  deletedAt : string
}.

Record DeleteResponse : Type := {
  success : bool;
  message : option string;
  deletedItem : option DeletedItem;
  error : option string
}.

Definition failure (reason : string) : DeleteResponse :=
  {| success := false; message := None; deletedItem := None;
     error := Some reason |}.

(** [`Failed to delete product: ${error.message}`]. *)
Definition failedToDelete (e : Thrown) : string :=
  "Failed to delete product: "
  +:+ match e with
      | ErrorObject _ message => message
      | NotAnError => "undefined"
      end.

(** *** [deleteProduct] *)

Section DeleteProduct.
Context {St : Type}.
Variable TABLE_NAME : string.
Variable send : St -> DeleteItemCommandInput -> St * Sent DeleteItemCommandOutput.

(** [now] is the reading of the clock, [new Date().toISOString()]; the
    argument is a string by its type, so [typeof productId !== "string"]
    never holds. *)
Definition deleteProduct (id : string) (now : string)
    (w : World St DeleteItemCommandInput DeleteItemCommandOutput)
  : DeleteResponse * World St DeleteItemCommandInput DeleteItemCommandOutput :=
  if String.eqb id "" then (failure "Invalid product ID format", w)
  else
    let input :=
      {| TableName := TABLE_NAME;
         Key_ := {| PK := "PRODUCT#" +:+ id; SK := "METADATA#" +:+ id |};
         ReturnValues := "ALL_OLD";
         ConditionExpression := "attribute_exists(PK) AND attribute_exists(SK)" |} in
    match submit send w input with
    | (w1, Returned response) =>
        match Attributes response with
        | None => (failure "Product not found", w1)
        | Some deleted =>
            ({| success := true;
                message := Some "Product deleted successfully";
                deletedItem :=
                  Some {| productId := PutProduct.productId deleted;
                          name := PutProduct.name deleted;
                          category := PutProduct.category deleted;
                          deletedAt := now |};
                error := None |}, w1)
        end
    | (w1, Threw e) =>
        if PutProduct.isConditionalCheckFailed e
        then (failure "Product does not exist", w1)
        else (failure (failedToDelete e), w1)
    end.

End DeleteProduct.

(** *** A reference store for the table of products

    The part of DynamoDB's [PutItem] and [DeleteItem] that the two
    exercises use, after the service's documentation.  A table holds at
    most one item per key.  A put on condition
    [attribute_not_exists(PK) AND attribute_not_exists(SK)] stores the
    item when no item has its key and fails the condition otherwise; a
    delete on condition [attribute_exists(PK) AND attribute_exists(SK)]
    removes the item with the key and returns it ([ALL_OLD]) when there is
    one, and fails the condition otherwise.  A failed condition leaves the
    table as it is and throws [ConditionalCheckFailedException]. *)

Abbreviation Table := (gmap (string * string) PutProduct.Product).

Definition conditionalCheckFailed {O : Type} : Sent O :=
  Threw (ErrorObject "ConditionalCheckFailedException"
                     "The conditional request failed").

Definition validationException {O : Type} : Sent O :=
  Threw (ErrorObject "ValidationException" "Invalid request").

Definition putItem (tbl : Table) (command : PutProduct.PutItemCommandInput)
  : Table * Sent PutProduct.PutItemCommandOutput :=
  match PutProduct.PK (PutProduct.Item command),
        PutProduct.SK (PutProduct.Item command) with
  | Some pk, Some sk =>
      if negb (String.eqb (PutProduct.ConditionExpression command)
                 "attribute_not_exists(PK) AND attribute_not_exists(SK)")
      then (tbl, validationException)
      else match tbl !! (pk, sk) with
           | Some _ => (tbl, conditionalCheckFailed)
           | None =>
               (<[ (pk, sk) := PutProduct.Item command ]> tbl,
                Returned {| PutProduct.Attributes := None |})
           end
  | _, _ => (tbl, validationException)
  end.

Definition deleteItem (tbl : Table) (command : DeleteItemCommandInput)
  : Table * Sent DeleteItemCommandOutput :=
  if negb (String.eqb (ConditionExpression command)
             "attribute_exists(PK) AND attribute_exists(SK)")
  then (tbl, validationException)
  else
    let k := (PK (Key_ command), SK (Key_ command)) in
    match tbl !! k with
    | Some old => (delete k tbl, Returned {| Attributes := Some old |})
    | None => (tbl, conditionalCheckFailed)
    end.

Definition table : string := "ProductsPutDelete".

End DeleteProduct.

(** ** A product's life on the table: [putProduct] and [deleteProduct]
    together

    The two exercises share one table; the tests of [deleteProduct] remove
    the product that the tests of [putProduct] created.  The facts below
    run the two functions one after the other on the reference table. *)

Module ProductLifecycle.
Import Effects.

Abbreviation Product := PutProduct.Product.
Abbreviation Table := DeleteProduct.Table.

(** The key under which the table holds the product [id]. *)
Definition keyOf (id : string) : string * string :=
  ("PRODUCT#" +:+ id, "METADATA#" +:+ id).

(** The successful answers of the two functions. *)
Definition created (product : Product) : PutProduct.ProductResponse :=
  {| PutProduct.success := true; PutProduct.data := Some product;
     PutProduct.error := None |}.

Definition alreadyExists : PutProduct.ProductResponse :=
  {| PutProduct.success := false; PutProduct.data := None;
     PutProduct.error := Some "Product already exists" |}.

Definition deleted (old : Product) (now : string) : DeleteProduct.DeleteResponse :=
  {| DeleteProduct.success := true;
     DeleteProduct.message := Some "Product deleted successfully";
     DeleteProduct.deletedItem :=
       Some {| DeleteProduct.productId := PutProduct.productId old;
               DeleteProduct.name := PutProduct.name old;
               DeleteProduct.category := PutProduct.category old;
               DeleteProduct.deletedAt := now |};
     DeleteProduct.error := None |}.

Section Lifecycle.
Variable TABLE_NAME : string.
Variable toFixed2 : PutProduct.JSNumber -> string.
Variable toString : PutProduct.JSNumber -> string.
Variable Date_parse : string -> PutProduct.JSNumber.
Variable marshallError : Product -> string.

(** [putProduct] and [deleteProduct] on the reference table, from a table
    [tbl] and an empty log. *)
Definition put (product : Product) (tbl : Table) :=
  PutProduct.putProduct TABLE_NAME DeleteProduct.putItem
    toFixed2 toString Date_parse marshallError product (mkWorld tbl []).

Definition remove (id now : string) (tbl : Table) :=
  DeleteProduct.deleteProduct TABLE_NAME DeleteProduct.deleteItem id now
    (mkWorld tbl []).

Lemma put_on_table (product : Product) (pk sk : string) (tbl : Table) :
  PutProductGate.acceptable toFixed2 toString Date_parse product ->
  PutProduct.PK product = Some pk ->
  PutProduct.SK product = Some sk ->
  ((put product tbl).1, store (put product tbl).2)
  = match tbl !! (pk, sk) with
    | None => (created product, <[ (pk, sk) := product ]> tbl)
    | Some _ => (alreadyExists, tbl)
    end.
Proof.
  intros Hacc HPK HSK. unfold put.
  rewrite (PutProductGate.putProduct_answer _ _ _ _ _ _ _ _ Hacc).
  unfold DeleteProduct.putItem, PutProductGate.commandFor. simpl.
  rewrite HPK, HSK. by destruct (tbl !! (pk, sk)).
Qed.

Lemma remove_on_table (id now : string) (tbl : Table) :
  id <> "" ->
  ((remove id now tbl).1, store (remove id now tbl).2)
  = match tbl !! keyOf id with
    | Some old => (deleted old now, delete (keyOf id) tbl)
    | None => (DeleteProduct.failure "Product does not exist", tbl)
    end.
Proof.
  intros Hid. unfold remove, DeleteProduct.deleteProduct.
  destruct (String.eqb_spec id ""); [done |].
  unfold submit, DeleteProduct.deleteItem, keyOf. simpl.
  by destruct (tbl !! _).
Qed.

End Lifecycle.

(** [putProduct] never overwrites.  On the reference table, for an
    acceptable product with key [(pk, sk)]: when the table has no item
    with that key the product is stored under it and the answer is a
    success carrying the product; when it has one the answer is the
    failure "Product already exists" and the table is left as it was.  In
    both cases putting the same product once more is refused and changes
    nothing, and the items under all other keys are never touched. *)
Theorem putProduct_never_overwrites (TABLE_NAME : string)
    (toFixed2 toString : PutProduct.JSNumber -> string)
    (Date_parse : string -> PutProduct.JSNumber)
    (marshallError : Product -> string)
    (product : Product) (pk sk : string) (tbl : Table) :
  PutProductGate.acceptable toFixed2 toString Date_parse product ->
  PutProduct.PK product = Some pk ->
  PutProduct.SK product = Some sk ->
  let first := put TABLE_NAME toFixed2 toString Date_parse marshallError product tbl in
  let second :=
    put TABLE_NAME toFixed2 toString Date_parse marshallError product (store first.2) in
  (first.1 = if tbl !! (pk, sk) is Some _ then alreadyExists else created product)
  /\ store first.2 !! (pk, sk) = Some (default product (tbl !! (pk, sk)))
  /\ (forall k, k <> (pk, sk) -> store first.2 !! k = tbl !! k)
  /\ second.1 = alreadyExists
  /\ store second.2 = store first.2.
Proof.
  intros Hacc HPK HSK first second.
  pose proof (put_on_table TABLE_NAME toFixed2 toString Date_parse marshallError
                product pk sk tbl Hacc HPK HSK) as Hfirst.
  pose proof (put_on_table TABLE_NAME toFixed2 toString Date_parse marshallError
                product pk sk (store first.2) Hacc HPK HSK) as Hsecond.
  fold first in Hfirst. fold second in Hsecond.
  assert (Hheld : store first.2 !! (pk, sk)
                  = Some (default product (tbl !! (pk, sk)))).
  { destruct (tbl !! (pk, sk)) as [old |] eqn:Hold;
      injection Hfirst as _ ->; [exact Hold | apply lookup_insert_eq]. }
  rewrite Hheld in Hsecond. injection Hsecond as -> ->.
  repeat split; try done.
  - destruct (tbl !! (pk, sk)); by injection Hfirst as -> _.
  - intros k Hk. destruct (tbl !! (pk, sk));
      injection Hfirst as _ ->; [done | by apply lookup_insert_ne].
Qed.

Lemma putProduct_never_overwrites_witness :
  let first := put DeleteProduct.table PutProduct.printed PutProduct.printed
                 PutProduct.parsed PutProduct.unsafeNumber
                 PutProduct.smartphone ∅ in
  let second := put DeleteProduct.table PutProduct.printed PutProduct.printed
                  PutProduct.parsed PutProduct.unsafeNumber
                  PutProduct.smartphone (store first.2) in
  first.1 = created PutProduct.smartphone
  /\ store first.2 !! ("PRODUCT#101", "METADATA#101") = Some PutProduct.smartphone
  /\ second.1 = alreadyExists
  /\ store second.2 = store first.2.
Proof.
  destruct (putProduct_never_overwrites DeleteProduct.table PutProduct.printed
              PutProduct.printed PutProduct.parsed PutProduct.unsafeNumber
              PutProduct.smartphone "PRODUCT#101" "METADATA#101" ∅ PutProductGate.smartphone_acceptable eq_refl eq_refl)
    as (H1 & H2 & _ & H4 & H5).
  exact (conj H1 (conj H2 (conj H4 H5))).
Defined.

(** Put, then delete, is a round trip.  On the reference table, let an
    acceptable product have the keys ["PRODUCT#" + id] and
    ["METADATA#" + id] for a non-empty [id], and let the table hold nothing
    under that key.  Then [putProduct] succeeds; [deleteProduct id], run
    next, succeeds and hands back the [productId], [name] and [category]
    of that product with the reading of the clock as [deletedAt]; the
    table is then again what it was before the put; and a second
    [deleteProduct id] fails with "Product does not exist" and changes
    nothing. *)
Theorem put_then_delete_round_trip (TABLE_NAME : string)
    (toFixed2 toString : PutProduct.JSNumber -> string)
    (Date_parse : string -> PutProduct.JSNumber)
    (marshallError : Product -> string)
    (product : Product) (id now later : string) (tbl : Table) :
  PutProductGate.acceptable toFixed2 toString Date_parse product ->
  PutProduct.PK product = Some ("PRODUCT#" +:+ id) ->
  PutProduct.SK product = Some ("METADATA#" +:+ id) ->
  id <> "" ->
  tbl !! keyOf id = None ->
  let stored := put TABLE_NAME toFixed2 toString Date_parse marshallError product tbl in
  let removed := remove TABLE_NAME id now (store stored.2) in
  let again := remove TABLE_NAME id later (store removed.2) in
  stored.1 = created product
  /\ removed.1 = deleted product now
  /\ store removed.2 = tbl
  /\ again.1 = DeleteProduct.failure "Product does not exist"
  /\ store again.2 = tbl.
Proof.
  intros Hacc HPK HSK Hid Hnone stored removed again.
  pose proof (put_on_table TABLE_NAME toFixed2 toString Date_parse marshallError
                product _ _ tbl Hacc HPK HSK) as Hstored.
  fold stored in Hstored. change (_ +:+ id, _ +:+ id) with (keyOf id) in Hstored.
  rewrite Hnone in Hstored. injection Hstored as Hanswer Htable.
  pose proof (remove_on_table TABLE_NAME id now (store stored.2) Hid) as Hremoved.
  fold removed in Hremoved.
  rewrite Htable, lookup_insert_eq, delete_insert_eq, delete_id in Hremoved
    by exact Hnone.
  injection Hremoved as Hanswer' Htable'.
  pose proof (remove_on_table TABLE_NAME id later (store removed.2) Hid) as Hagain.
  fold again in Hagain. rewrite Htable', Hnone in Hagain.
  injection Hagain as Hanswer'' Htable''.
  done.
Qed.

Lemma put_then_delete_round_trip_witness :
  let stored := put DeleteProduct.table PutProduct.printed PutProduct.printed
                  PutProduct.parsed PutProduct.unsafeNumber
                  PutProduct.smartphone ∅ in
  let removed := remove DeleteProduct.table "101" "2024-01-02T00:00:00.000Z"
                   (store stored.2) in
  let again := remove DeleteProduct.table "101" "2024-01-03T00:00:00.000Z"
                 (store removed.2) in
  stored.1 = created PutProduct.smartphone
  /\ removed.1 = deleted PutProduct.smartphone "2024-01-02T00:00:00.000Z"
  /\ store removed.2 = ∅
  /\ again.1 = DeleteProduct.failure "Product does not exist"
  /\ store again.2 = ∅.
Proof.
  assert (Hid : "101" <> "") by discriminate.
  exact (put_then_delete_round_trip DeleteProduct.table PutProduct.printed
           PutProduct.printed PutProduct.parsed PutProduct.unsafeNumber
           PutProduct.smartphone "101" "2024-01-02T00:00:00.000Z" "2024-01-03T00:00:00.000Z" ∅
           PutProductGate.smartphone_acceptable eq_refl eq_refl Hid
           (lookup_empty _)).
Defined.

End ProductLifecycle.


(** ** The keys of a batch

    DynamoDB refuses a [BatchWriteItem] call that names one key twice, and
    a put under a key already written replaces the item.  The requests
    [formatBatchWriteItems] builds never collide when the input has no
    duplicates. *)

Module BatchWriteKeys.
Import Chunker BatchWrite.

(** [c] does not occur in [s]. *)
Fixpoint without (c : ascii) (s : string) : Prop :=
  match s with
  | EmptyString => True
  | String a rest => a <> c /\ without c rest
  end.

(** The key of a request. *)
Definition keyOf (request : WriteRequest) : string * string :=
  (PK request, SK request).

(** What identifies an episode in the input. *)
Definition episodeId (episode : SeriesEpisode) : string * Z * Z :=
  (seriesId episode, seasonNumber episode, episodeNumber episode).

Lemma append_cons (a : ascii) (s t : string) :
  String a s +:+ t = String a (s +:+ t).
Proof. reflexivity. Qed.

Lemma without_app (c : ascii) (s t : string) :
  without c s -> without c t -> without c (s +:+ t).
Proof.
  induction s as [| a s IH]; [auto |].
  rewrite append_cons. simpl. intros []; auto.
Qed.

Lemma append_assoc (s t u : string) : (s +:+ t) +:+ u = s +:+ (t +:+ u).
Proof.
  induction s as [| a s IH]; [reflexivity |].
  by rewrite !append_cons, IH.
Qed.

Lemma pretty_N_char_plain (x : N) :
  pretty_N_char x <> "E"%char
  /\ ((0 < x < 10)%N -> pretty_N_char x <> "0"%char).
Proof.
  split.
  - unfold pretty_N_char. by repeat case_match.
  - intros Hx. unfold pretty_N_char. repeat case_match; try done. lia.
Qed.

(** The digits of a number: no ["E"] among them, and the first is not
    ["0"]. *)
Lemma pretty_N_go_digits (x : N) (s : string) :
  exists d,
    pretty_N_go x s = d +:+ s /\ without "E" d
    /\ ((0 < x)%N -> exists c d', d = String c d' /\ c <> "0"%char).
Proof.
  revert s. induction (N.lt_wf_0 x) as [x _ IH]. intros s.
  assert (x = 0 \/ 0 < x < 10 \/ 10 <= x)%N as [-> | [Hsmall | Hbig]] by lia.
  - exists "". rewrite pretty_N_go_0. repeat split; try done; lia.
  - rewrite pretty_N_go_step by lia.
    rewrite (N.div_small x 10), pretty_N_go_0 by lia.
    rewrite (N.mod_small x 10) by lia.
    exists (String (pretty_N_char x) ""). simpl.
    destruct (pretty_N_char_plain x) as [HE Hzero].
    repeat split; [exact HE |]. eauto.
  - rewrite pretty_N_go_step by lia.
    destruct (IH (x `div` 10)%N ltac:(apply N.div_lt; lia)
                (String (pretty_N_char (x `mod` 10)) s))
      as (d & -> & HE & Hfirst).
    exists (d +:+ String (pretty_N_char (x `mod` 10)) "").
    rewrite append_assoc. simpl. split; [reflexivity |]. split.
    + apply without_app; [exact HE |]. simpl.
      by destruct (pretty_N_char_plain (x `mod` 10)).
    + intros _.
      destruct Hfirst as (c & d' & -> & Hc).
      { apply N.div_str_pos. lia. }
      simpl. eauto.
Qed.

(** A printed integer: not empty, no ["E"] in it, and no ["0"] in front
    unless it is ["0"]. *)
Lemma pretty_Z_plain (z : Z) :
  pretty z <> ""
  /\ without "E" (pretty z)
  /\ (forall s, pretty z = String "0" s -> s = "").
Proof.
  assert (Hpos : forall p : positive,
            exists c d, pretty p = String c d /\ c <> "0"%char
                        /\ c <> "E"%char /\ without "E" d).
  { intros p. unfold pretty, pretty_positive, pretty, pretty_N.
    destruct (decide (N.pos p = 0%N)); [done |].
    destruct (pretty_N_go_digits (N.pos p) "") as (d & -> & HE & Hfirst).
    destruct Hfirst as (c & d' & -> & Hc); [lia |].
    destruct HE as [HE HE']. exists c, (d' +:+ "").
    repeat split; try done. by apply without_app. }
  destruct z as [| p | p]; unfold pretty, pretty_Z.
  - repeat split; try done. by intros s [= <-].
  - destruct (Hpos p) as (c & d & -> & Hc & HE & HE').
    repeat split; try done. intros s [= Habs _]. done.
  - destruct (Hpos p) as (c & d & -> & Hc & HE & HE').
    simpl. repeat split; try done.
Qed.

Lemma zeros_plain (n : nat) : without "E" (zeros n).
Proof.
  induction n as [| n IH]; [done |].
  change (zeros (S n)) with (String "0" (zeros n)). by split.
Qed.

Lemma padStart_plain (z : Z) : without "E" (padStart 2 (pretty z)).
Proof.
  destruct (pretty_Z_plain z) as (_ & HE & _). unfold padStart.
  apply without_app; [apply zeros_plain | exact HE].
Qed.

(** Padding to two digits keeps printed integers apart. *)
Lemma padStart_inj (z1 z2 : Z) :
  padStart 2 (pretty z1) = padStart 2 (pretty z2) -> z1 = z2.
Proof.
  intros Hpad. apply (inj pretty).
  destruct (pretty_Z_plain z1) as (Hne1 & _ & Hzero1).
  destruct (pretty_Z_plain z2) as (Hne2 & _ & Hzero2).
  destruct (pretty z1) as [| a1 [| b1 r1]], (pretty z2) as [| a2 [| b2 r2]];
    try done;
    cbv [padStart String.length Nat.sub zeros String.append] in Hpad.
  - by injection Hpad as ->.
  - injection Hpad as <- <- <-. by specialize (Hzero2 _ eq_refl).
  - injection Hpad as -> -> ->. by specialize (Hzero1 _ eq_refl).
Qed.

(** Two texts with an ["E"] between them come apart in one way when the
    first has no ["E"]. *)
Lemma split_at_E (a1 a2 b1 b2 : string) :
  without "E" a1 -> without "E" a2 ->
  a1 +:+ String "E" b1 = a2 +:+ String "E" b2 ->
  a1 = a2 /\ b1 = b2.
Proof.
  revert a2. induction a1 as [| c1 a1 IH]; intros [| c2 a2]; simpl;
    rewrite ?append_cons; change ("" +:+ ?x) with x.
  - by intros _ _ [= ->].
  - intros _ [Hc _] [= <- _]. done.
  - intros [Hc _] _ [= -> _]. done.
  - intros [_ H1] [_ H2] [= -> Heq].
    destruct (IH a2 H1 H2 Heq) as [-> ->]. done.
Qed.

(** The sort key of an episode tells its season and its number. *)
Lemma episodeSK_inj (e1 e2 : SeriesEpisode) :
  episodeSK e1 = episodeSK e2 ->
  seasonNumber e1 = seasonNumber e2 /\ episodeNumber e1 = episodeNumber e2.
Proof.
  unfold episodeSK. intros Heq%(inj (String.append _)).
  change ("E" +:+ ?x) with (String "E" x) in Heq.
  apply split_at_E in Heq as [Hseason Hepisode]; try apply padStart_plain.
  split; by apply padStart_inj.
Qed.

Lemma episodeSK_prefix (e : SeriesEpisode) :
  exists rest, episodeSK e = String "E" rest.
Proof. unfold episodeSK. rewrite append_cons. eauto. Qed.

Lemma NoDup_map_on {A B C : Type} (f : A -> B) (g : A -> C) (l : list A) :
  (forall x y, x ∈ l -> y ∈ l -> f x = f y -> g x = g y) ->
  NoDup (map g l) -> NoDup (map f l).
Proof.
  induction l as [| x l IH]; simpl; intros Hfg Hg; [constructor |].
  apply NoDup_cons in Hg as [Hx Hl]. apply NoDup_cons. split.
  - intros Hin. apply Hx.
    apply list_elem_of_In, in_map_iff in Hin as (y & Hy & Hin).
    apply list_elem_of_In, in_map_iff. exists y. split; [| exact Hin].
    apply list_elem_of_In in Hin. symmetry. apply Hfg; [left | by right | done].
  - apply IH; [| exact Hl]. intros y z Hy Hz. apply Hfg; by right.
Qed.

Lemma NoDup_map_filter {A B : Type} (g : A -> B) (P : A -> Prop)
    `{!forall x, Decision (P x)} (l : list A) :
  NoDup (map g l) -> NoDup (map g (filter P l)).
Proof.
  induction l as [| x l IH]; simpl; intros Hg; [constructor |].
  apply NoDup_cons in Hg as [Hx Hl]. rewrite filter_cons.
  destruct (decide (P x)); [| by apply IH]. simpl.
  apply NoDup_cons. split; [| by apply IH].
  intros Hin. apply Hx.
  apply list_elem_of_In, in_map_iff in Hin as (y & Hy & Hin).
  apply list_elem_of_In, in_map_iff. exists y. split; [exact Hy |].
  apply list_elem_of_In in Hin. apply list_elem_of_In.
  by apply list_elem_of_filter in Hin as [_ Hin].
Qed.

(** The requests [formatBatchWriteItems] builds for one content item. *)
Definition requestsOf (episodes : list SeriesEpisode) (stats : list ContentStats)
    (item : ContentMetadata) : list WriteRequest :=
  [metadataRequest item]
  ++ match find (fun stat => String.eqb (contentId stat) (id item)) stats with
     | Some itemStats => [statsRequest item itemStats]
     | None => []
     end
  ++ match type item with
     | SERIES =>
         map (episodeRequest item)
             (filter (fun ep => seriesId ep = id item) episodes)
     | MOVIE => []
     end.

Lemma requestsOf_PK episodes stats item request :
  request ∈ requestsOf episodes stats item -> PK request = id item.
Proof.
  unfold requestsOf. rewrite !elem_of_app, list_elem_of_singleton.
  intros [-> | [Hstats | Hepisode]]; [reflexivity | |].
  - destruct (find _ stats); [| by apply elem_of_nil in Hstats].
    by apply list_elem_of_singleton in Hstats as ->.
  - destruct (type item); [by apply elem_of_nil in Hepisode |].
    by apply list_elem_of_In, in_map_iff in Hepisode as (ep & <- & _).
Qed.

Lemma requestsOf_distinct episodes stats item :
  NoDup (map episodeId episodes) ->
  NoDup (map keyOf (requestsOf episodes stats item)).
Proof.
  intros Hepisodes. unfold requestsOf.
  assert (Heps : NoDup (map keyOf
                          (match type item with
                           | SERIES =>
                               map (episodeRequest item)
                                 (filter (fun ep => seriesId ep = id item) episodes)
                           | MOVIE => []
                           end))
                 /\ forall sk, (id item, sk)
                               ∈ map keyOf
                                   (match type item with
                                    | SERIES =>
                                        map (episodeRequest item)
                                          (filter (fun ep => seriesId ep = id item)
                                                  episodes)
                                    | MOVIE => []
                                    end) ->
                               exists rest, sk = String "E" rest).
  { destruct (type item); simpl.
    - split; [constructor |]. by intros sk Hin%elem_of_nil.
    - rewrite map_map. split.
      + apply (NoDup_map_on _ episodeId).
        * intros x y [Hx _]%list_elem_of_filter [Hy _]%list_elem_of_filter Hsk.
          apply (f_equal snd) in Hsk.
          change (episodeSK x = episodeSK y) in Hsk.
          apply episodeSK_inj in Hsk as [Hs He].
          unfold episodeId. congruence.
        * by apply NoDup_map_filter.
      + intros sk (ep & [= <-] & _)%list_elem_of_In%in_map_iff.
        apply episodeSK_prefix. }
  destruct Heps as [Hdistinct Hprefix].
  rewrite !map_app. simpl.
  apply NoDup_cons. split.
  - rewrite elem_of_app. intros [Hstats | Hepisode].
    + destruct (find _ stats); [| by apply elem_of_nil in Hstats].
      by apply list_elem_of_singleton in Hstats.
    + by destruct (Hprefix _ Hepisode).
  - apply NoDup_app. split; [| split; [| exact Hdistinct]].
    + destruct (find _ stats); simpl; [apply NoDup_singleton | constructor].
    + intros key Hstats Hepisode.
      destruct (find _ stats); [| by apply elem_of_nil in Hstats].
      apply list_elem_of_singleton in Hstats as ->.
      by destruct (Hprefix _ Hepisode).
Qed.

(** No two requests of a batch have the same key, when [marshall] accepts
    the input, no two content items of the input have the same id and no
    two episodes the same series, season and number. *)
Theorem formatted_keys_distinct (content : list ContentMetadata)
    (episodes : list SeriesEpisode) (stats : list ContentStats) :
  thrownNumber (formatBatchWriteItems content episodes stats) = None ->
  NoDup (map id content) ->
  NoDup (map episodeId episodes) ->
  NoDup (map keyOf (formatBatchWriteItems content episodes stats)).
Proof.
  intros _ Hcontent Hepisodes.
  change (formatBatchWriteItems content episodes stats)
    with (flat_map (requestsOf episodes stats) content).
  induction content as [| item rest IH]; [constructor |].
  change (map id (item :: rest)) with (id item :: map id rest) in Hcontent.
  apply NoDup_cons in Hcontent as [Hitem Hrest].
  change (flat_map (requestsOf episodes stats) (item :: rest))
    with (requestsOf episodes stats item
          ++ flat_map (requestsOf episodes stats) rest).
  rewrite map_app. apply NoDup_app. split; [| split].
  - by apply requestsOf_distinct.
  - intros key (r & <- & Hr)%list_elem_of_In%in_map_iff
               (r' & Hkey & Hr')%list_elem_of_In%in_map_iff.
    apply list_elem_of_In, requestsOf_PK in Hr.
    apply in_flat_map in Hr' as (item' & Hitem' & Hr').
    apply list_elem_of_In, requestsOf_PK in Hr'.
    apply Hitem. apply list_elem_of_In, in_map_iff. exists item'.
    split; [| exact Hitem']. injection Hkey as HPK _. congruence.
  - by apply IH.
Qed.

Lemma formatted_keys_distinct_witness :
  NoDup (map keyOf (formatBatchWriteItems newContent seriesEpisodes contentStats)).
Proof.
  apply formatted_keys_distinct.
  - reflexivity.
  - apply (bool_decide_unpack _). vm_compute. reflexivity.
  - apply (bool_decide_unpack _). vm_compute. reflexivity.
Defined.

End BatchWriteKeys.
